(** * MLOS tunables and optimizer wrappers: a shallow embedding

    The development follows
    [mlos_bench/tunables/tunable_groups.py] (class [TunableGroups]),
    [mlos_bench/optimizers/mlos_core_optimizer.py] (class
    [MlosCoreOptimizer]), [mlos_core/optimizers/flaml_optimizer.py]
    (class [FlamlOptimizer]) and [mlos_bench/environment/status.py].

    Python objects live in a store and are named by references, so that
    the sharing of one [CovariantTunableGroup] by several [TunableGroups]
    is the sharing of one store cell.  Methods are computations in a
    state-and-exception monad over that store; dictionaries are
    insertion-ordered association lists, as Python's [dict] is.
    Assertions are taken to be enabled, and logging is left out. *)

From Stdlib Require Import ZArith QArith_base String List Bool Lia.
From stdpp Require Import base list strings option gmap.

Local Open Scope string_scope.
Local Open Scope list_scope.

(** ** Python dictionaries *)

(** A dictionary with string keys is the list of its items in the order
    of insertion. *)
Abbreviation dict V := (list (string * V)).

Section Dict.
Context {V : Type}.

Fixpoint dict_get (k : string) (d : dict V) : option V :=
  match d with
  | [] => None
  | (k', v) :: d' => if String.eqb k k' then Some v else dict_get k d'
  end.

(** [k in d] *)
Definition dict_contains (k : string) (d : dict V) : bool :=
  match dict_get k d with Some _ => true | None => false end.

(** [d[k] = v]: an existing key keeps its position, a new key goes last. *)
Fixpoint dict_set (k : string) (v : V) (d : dict V) : dict V :=
  match d with
  | [] => [(k, v)]
  | (k', v') :: d' =>
      if String.eqb k k' then (k', v) :: d' else (k', v') :: dict_set k v d'
  end.

Definition dict_keys (d : dict V) : list string := map fst d.
Definition dict_values (d : dict V) : list V := map snd d.

(** [d1 == d2]: same number of keys, and every key of [d1] is bound in
    [d2] to an equal value; the order of insertion plays no part. *)
Definition dict_eqb (veq : V -> V -> bool) (d1 d2 : dict V) : bool :=
  Nat.eqb (length d1) (length d2)
  && forallb (fun kv => match dict_get (fst kv) d2 with
                        | Some v' => veq (snd kv) v'
                        | None => false
                        end) d1.
End Dict.

(** ** Exceptions *)

Inductive value_error : Type :=
| DuplicateTunable (tunable group : string)
| OverlappingGroup (group : string).

Inductive exn : Type :=
| AssertionError (group : string)
| ValueError (why : value_error)
| KeyError (key : string)
| ValidationError (tunable : string)
| NotImplementedError
| StaleReference.

Inductive result (A : Type) : Type :=
| Ok (a : A)
| Raise (e : exn).
Arguments Ok {A} a.
Arguments Raise {A} e.

(** ** Tunable *)

Module Tunable.

(** Modelled from the spec: [tunable_types.py] is not among the sources.
    A value is an integer, a float (here a rational) or a string. *)
Inductive TunableValue : Type :=
| VInt (z : Z)
| VFloat (q : Q)
| VStr (s : string).

(** Modelled from the spec: [tunable.py] is not among the sources.  A
    tunable has a type in {int, float, categorical}; a numeric one has a
    range [min, max] and optional special values, a categorical one has
    its ordered allowed values. *)
Inductive Domain : Type :=
| DInt (lo hi : Z) (special : list Z)
| DFloat (lo hi : Q) (special : list Q)
| DCategorical (values : list string).

(** Modelled from the spec: the class [Tunable], with its name, domain,
    default and current value. *)
Record t : Type := mk {
  name : string;
  domain : Domain;
  default : TunableValue;
  value : TunableValue;
}.

(** Modelled from the spec: [==] on tunable values, where numbers compare
    by value. *)
Definition value_eqb (a b : TunableValue) : bool :=
  match a, b with
  | VInt x, VInt y => Z.eqb x y
  | VFloat x, VFloat y => Qeq_bool x y
  | VInt x, VFloat y | VFloat y, VInt x => Qeq_bool (inject_Z x) y
  | VStr x, VStr y => String.eqb x y
  | _, _ => false
  end.

(** Modelled from the spec: equality of domains, part of the structural
    equality of tunables. *)
Definition domain_eqb (a b : Domain) : bool :=
  match a, b with
  | DInt l h s, DInt l' h' s' =>
      Z.eqb l l' && Z.eqb h h'
      && Nat.eqb (length s) (length s') && forallb (fun p => Z.eqb (fst p) (snd p)) (combine s s')
  | DFloat l h s, DFloat l' h' s' =>
      Qeq_bool l l' && Qeq_bool h h'
      && Nat.eqb (length s) (length s') && forallb (fun p => Qeq_bool (fst p) (snd p)) (combine s s')
  | DCategorical v, DCategorical v' =>
      Nat.eqb (length v) (length v') && forallb (fun p => String.eqb (fst p) (snd p)) (combine v v')
  | _, _ => false
  end.

(** Modelled from the spec: the value is inside [range] or in [special]
    (numeric), or one of [values] (categorical). *)
Definition in_domain (d : Domain) (v : TunableValue) : bool :=
  match d, v with
  | DInt lo hi special, VInt z =>
      (Z.leb lo z && Z.leb z hi) || existsb (Z.eqb z) special
  | DFloat lo hi special, VFloat q =>
      (Qle_bool lo q && Qle_bool q hi) || existsb (Qeq_bool q) special
  | DCategorical values, VStr s => existsb (String.eqb s) values
  | _, _ => false
  end.

(** Modelled from the spec: [set(value)] fails with a validation error
    outside the domain and changes nothing but the value otherwise. *)
Definition set (v : TunableValue) (x : t) : result t :=
  if in_domain (domain x) v
  then Ok (mk (name x) (domain x) (default x) v)
  else Raise (ValidationError (name x)).

(** Modelled from the spec: the current value set to the default. *)
Definition restore_default (x : t) : t :=
  mk (name x) (domain x) (default x) (default x).

(** Modelled from the spec: the current value equals the default. *)
Definition is_default (x : t) : bool := value_eqb (value x) (default x).

(** Modelled from the spec: structural equality, current value included. *)
Definition eqb (a b : t) : bool :=
  String.eqb (name a) (name b) && domain_eqb (domain a) (domain b)
  && value_eqb (default a) (default b) && value_eqb (value a) (value b).

(** Modelled from the spec: equality of name, domain and default only. *)
Definition eqb_defaults (a b : t) : bool :=
  String.eqb (name a) (name b) && domain_eqb (domain a) (domain b)
  && value_eqb (default a) (default b).

End Tunable.

Abbreviation TunableValue := Tunable.TunableValue.

(** ** CovariantTunableGroup *)

Module CovariantTunableGroup.

(** Modelled from the spec: [covariant_group.py] is not among the
    sources.  A group has a name, a cost, its tunables by name and one
    update flag. *)
Record t : Type := mk {
  name : string;
  cost : Z;
  _tunables : dict Tunable.t;
  _is_updated : bool;
}.

(** Modelled from the spec: one tunable of a configuration tree, with its
    domain (type, range or values, special) and its default. *)
Record TunableConfig : Type := mk_tunable_config {
  cfg_domain : Tunable.Domain;
  cfg_default : TunableValue;
}.

(** Modelled from the spec: one group of a configuration tree, with its
    cost and its parameters. *)
Record GroupConfig : Type := mk_group_config {
  cfg_cost : Z;
  cfg_params : dict TunableConfig;
}.

(** Modelled from the spec: the constructor [CovariantTunableGroup(name,
    config)]; every tunable starts at its default and the group starts
    marked as updated (the test fixture resets it after construction). *)
Definition __init__ (group_name : string) (config : GroupConfig) : t :=
  mk group_name (cfg_cost config)
     (map (fun p => (fst p, Tunable.mk (fst p) (cfg_domain (snd p))
                                       (cfg_default (snd p)) (cfg_default (snd p))))
          (cfg_params config))
     true.

(** Modelled from the spec: the members, in the order of the mapping. *)
Definition get_tunables (g : t) : list Tunable.t := dict_values (_tunables g).

(** Modelled from the spec: [get_tunable(name)] fails with [KeyError] if
    the name is absent. *)
Definition get_tunable (tunable : string) (g : t) : result Tunable.t :=
  match dict_get tunable (_tunables g) with
  | Some x => Ok x
  | None => Raise (KeyError tunable)
  end.

(** Modelled from the spec: the flat mapping of names to current values. *)
Definition get_tunable_values_dict (g : t) : dict TunableValue :=
  map (fun kv => (fst kv, Tunable.value (snd kv))) (_tunables g).

(** Modelled from the spec: sets every member to its default and does
    not by itself change the flag. *)
Definition restore_defaults (g : t) : t :=
  mk (name g) (cost g)
     (map (fun kv => (fst kv, Tunable.restore_default (snd kv))) (_tunables g))
     (_is_updated g).

(** Modelled from the spec: clears the flag only. *)
Definition reset_is_updated (g : t) : t :=
  mk (name g) (cost g) (_tunables g) false.

(** Modelled from the spec: the update flag. *)
Definition is_updated (g : t) : bool := _is_updated g.

(** Modelled from the spec: every member's value equals its default. *)
Definition is_defaults (g : t) : bool :=
  forallb Tunable.is_default (get_tunables g).

(** Modelled from the spec: member names, domains and defaults are
    equal; current values and the flag are ignored. *)
Definition equals_defaults (g other : t) : bool :=
  dict_eqb Tunable.eqb_defaults (_tunables g) (_tunables other).

(** Modelled from the spec: structural equality, current values and
    flag included. *)
Definition __eq__ (g other : t) : bool :=
  String.eqb (name g) (name other) && Z.eqb (cost g) (cost other)
  && Bool.eqb (_is_updated g) (_is_updated other)
  && dict_eqb Tunable.eqb (_tunables g) (_tunables other).

(** Modelled from the spec: the current value of a member by name. *)
Definition __getitem__ (tunable : string) (g : t) : result TunableValue :=
  match dict_get tunable (_tunables g) with
  | Some x => Ok (Tunable.value x)
  | None => Raise (KeyError tunable)
  end.

(** Modelled from the spec: assignment through the group validates the
    value, stores it and sets the flag, whether or not the value
    changed. *)
Definition __setitem__ (tunable : string) (v : TunableValue) (g : t) : result t :=
  match dict_get tunable (_tunables g) with
  | None => Raise (KeyError tunable)
  | Some x =>
      match Tunable.set v x with
      | Raise e => Raise e
      | Ok x' => Ok (mk (name g) (cost g) (dict_set tunable x' (_tunables g)) true)
      end
  end.

End CovariantTunableGroup.

(** ** The store and the monad of methods *)

(** References to [CovariantTunableGroup] objects and to [TunableGroups]
    objects: positions in the two halves of the store. *)
Abbreviation gref := nat.
Abbreviation tgref := nat.

(** The two attributes of a [TunableGroups] object. *)
Record TunableGroupsObject : Type := mk_tunable_groups {
  _index : dict gref;
  _tunable_groups : dict gref;
}.

Record Store : Type := mk_store {
  groups : list CovariantTunableGroup.t;
  tunable_groups : list TunableGroupsObject;
}.

(** A method is a computation over some state [S] that ends normally or
    raises; the state it leaves behind is kept in both cases, as a Python
    object keeps what was done to it before an exception. *)
Definition St (S A : Type) : Type := S -> S * result A.

Definition ret {S A} (a : A) : St S A := fun s => (s, Ok a).

Definition raise {S A} (e : exn) : St S A := fun s => (s, Raise e).

Definition bind {S A B} (m : St S A) (k : A -> St S B) : St S B :=
  fun s => match m s with
           | (s', Ok a) => k a s'
           | (s', Raise e) => (s', Raise e)
           end.

Notation "'let*' x ':=' c 'in' k" := (bind c (fun x => k))
  (at level 10, x binder, c at level 100, k at level 200).

(** Methods of [TunableGroups] and of its groups run over the store. *)
Abbreviation M := (St Store).

Definition lift_result {S A} (r : result A) : St S A := fun s => (s, r).

(** Reading and writing the object behind a reference.  A reference that
    was never allocated has no counterpart in Python; reading one is the
    model's own [StaleReference]. *)
Definition group_at (group : gref) : M CovariantTunableGroup.t :=
  fun s => match groups s !! group with
           | Some g => (s, Ok g)
           | None => (s, Raise StaleReference)
           end.

Definition put_group (group : gref) (g : CovariantTunableGroup.t) : M unit :=
  fun s => (mk_store (<[group := g]> (groups s)) (tunable_groups s), Ok tt).

Definition new_group (g : CovariantTunableGroup.t) : M gref :=
  fun s => (mk_store (groups s ++ [g]) (tunable_groups s), Ok (length (groups s))).

Definition this (self : tgref) : M TunableGroupsObject :=
  fun s => match tunable_groups s !! self with
           | Some o => (s, Ok o)
           | None => (s, Raise StaleReference)
           end.

Definition put_this (self : tgref) (o : TunableGroupsObject) : M unit :=
  fun s => (mk_store (groups s) (<[self := o]> (tunable_groups s)), Ok tt).

Definition new_tunable_groups (o : TunableGroupsObject) : M tgref :=
  fun s => (mk_store (groups s) (tunable_groups s ++ [o]), Ok (length (tunable_groups s))).

(** [for x in l: body(x)] *)
Fixpoint for_ {S A} (l : list A) (body : A -> St S unit) : St S unit :=
  match l with
  | [] => ret tt
  | x :: l' => let* _ := body x in for_ l' body
  end.

(** [any(test(x) for x in l)], which stops at the first true. *)
Fixpoint any_ {S A} (l : list A) (test : A -> St S bool) : St S bool :=
  match l with
  | [] => ret false
  | x :: l' => let* b := test x in if b then ret true else any_ l' test
  end.

(** [all(test(x) for x in l)], which stops at the first false. *)
Fixpoint all_ {S A} (l : list A) (test : A -> St S bool) : St S bool :=
  match l with
  | [] => ret true
  | x :: l' => let* b := test x in if b then all_ l' test else ret false
  end.

(** [a or b] on an optional list of names: [None] and the empty list are
    false. *)
Definition py_or (a : option (list string)) (b : list string) : list string :=
  match a with
  | Some (x :: l) => x :: l
  | Some [] | None => b
  end.

(** ** TunableGroups *)

Module TunableGroups.

Import CovariantTunableGroup.

Abbreviation Config := (dict GroupConfig).

(** [_add_group]: the assertion on the group name, the entry in
    [_tunable_groups], then the loop over the tunables of the group. *)
Definition _add_group (self : tgref) (group : gref) : M unit :=
  let* g := group_at group in
  let* o := this self in
  if dict_contains (name g) (_tunable_groups o)
  then raise (AssertionError (name g))
  else
    let* _ := put_this self (mk_tunable_groups (_index o)
                               (dict_set (name g) group (_tunable_groups o))) in
    for_ (get_tunables g) (fun tunable =>
      let* o := this self in
      if dict_contains (Tunable.name tunable) (_index o)
      then raise (ValueError (DuplicateTunable (Tunable.name tunable) (name g)))
      else put_this self (mk_tunable_groups
                            (dict_set (Tunable.name tunable) group (_index o))
                            (_tunable_groups o))).

(** [TunableGroups(config)]; [config] is the schema-checked tree. *)
Definition __init__ (config : Config) : M tgref :=
  let* self := new_tunable_groups (mk_tunable_groups [] []) in
  let* _ := for_ config (fun item =>
              let* group := new_group (CovariantTunableGroup.__init__ (fst item) (snd item)) in
              _add_group self group) in
  ret self.

Definition __len__ (self : tgref) : M nat :=
  let* o := this self in ret (length (_index o)).

Definition __contains__ (self : tgref) (tunable : string) : M bool :=
  let* o := this self in ret (dict_contains tunable (_index o)).

(** [self._tunable_groups == other._tunable_groups]; two values of a key
    are equal when they are the same object or compare equal. *)
Definition __eq__ (self other : tgref) : M bool :=
  let* a := this self in
  let* b := this other in
  if negb (Nat.eqb (length (_tunable_groups a)) (length (_tunable_groups b)))
  then ret false
  else all_ (_tunable_groups a) (fun kv =>
         match dict_get (fst kv) (_tunable_groups b) with
         | None => ret false
         | Some theirs =>
             let* g := group_at (snd kv) in
             let* g' := group_at theirs in
             ret (Nat.eqb (snd kv) theirs || CovariantTunableGroup.__eq__ g g')
         end).

(** [merge]: the groups of [tunables] are visited in the order of its
    dictionary. *)
Definition merge (self tunables : tgref) : M tgref :=
  let* other := this tunables in
  let* _ := for_ (dict_values (_tunable_groups other)) (fun group =>
              let* g := group_at group in
              let* o := this self in
              match dict_get (name g) (_tunable_groups o) with
              | None => _add_group self group
              | Some mine =>
                  let* m := group_at mine in
                  if equals_defaults m g then ret tt
                  else raise (ValueError (OverlappingGroup (name g)))
              end) in
  ret self.

Definition __getitem__ (self : tgref) (tunable : string) : M TunableValue :=
  let* o := this self in
  match dict_get tunable (_index o) with
  | None => raise (KeyError tunable)
  | Some group =>
      let* g := group_at group in
      lift_result (CovariantTunableGroup.__getitem__ tunable g)
  end.

Definition __setitem__ (self : tgref) (tunable : string) (tunable_value : TunableValue)
  : M TunableValue :=
  let* o := this self in
  match dict_get tunable (_index o) with
  | None => raise (KeyError tunable)
  | Some group =>
      let* g := group_at group in
      let* g' := lift_result (CovariantTunableGroup.__setitem__ tunable tunable_value g) in
      let* _ := put_group group g' in
      __getitem__ self tunable
  end.

(** [__iter__]: the pairs [(group.get_tunable(name), group)] for the
    items of the index, in its order; the generator is run to its end. *)
Fixpoint iter_index (index : dict gref) : M (list (Tunable.t * gref)) :=
  match index with
  | [] => ret []
  | (name, group) :: index' =>
      let* g := group_at group in
      let* tunable := lift_result (CovariantTunableGroup.get_tunable name g) in
      let* rest := iter_index index' in
      ret ((tunable, group) :: rest)
  end.

Definition __iter__ (self : tgref) : M (list (Tunable.t * gref)) :=
  let* o := this self in iter_index (_index o).

Definition get_covariant_group_names (self : tgref) : M (list string) :=
  let* o := this self in ret (dict_keys (_tunable_groups o)).

Definition subgroup (self : tgref) (group_names : list string) : M tgref :=
  let* tunables := __init__ [] in
  let* _ := for_ group_names (fun name =>
              let* o := this self in
              match dict_get name (_tunable_groups o) with
              | None => raise (KeyError name)
              | Some group => _add_group tunables group
              end) in
  ret tunables.

(** The group named [name] of [self]: [self._tunable_groups[name]]. *)
Definition group_named (self : tgref) (name : string) : M gref :=
  let* o := this self in
  match dict_get name (_tunable_groups o) with
  | None => raise (KeyError name)
  | Some group => ret group
  end.

Fixpoint collect_values (self : tgref) (names : list string) (into_params : dict TunableValue)
  : M (dict TunableValue) :=
  match names with
  | [] => ret into_params
  | name :: rest =>
      let* group := group_named self name in
      let* g := group_at group in
      collect_values self rest
        (fold_left (fun d kv => dict_set (fst kv) (snd kv) d)
                   (get_tunable_values_dict g) into_params)
  end.

(** [get_param_values]; the dictionary that is returned is the one
    passed as [into_params], updated, or a new one. *)
Definition get_param_values (self : tgref) (group_names : option (list string))
  (into_params : option (dict TunableValue)) : M (dict TunableValue) :=
  let* all_names := get_covariant_group_names self in
  collect_values self
    (match group_names with None => all_names | Some l => l end)
    (match into_params with None => [] | Some d => d end).

Definition is_updated (self : tgref) (group_names : option (list string)) : M bool :=
  let* all_names := get_covariant_group_names self in
  any_ (py_or group_names all_names) (fun name =>
    let* group := group_named self name in
    let* g := group_at group in
    ret (CovariantTunableGroup.is_updated g)).

Definition is_defaults (self : tgref) : M bool :=
  let* o := this self in
  all_ (dict_values (_tunable_groups o)) (fun group =>
    let* g := group_at group in
    ret (CovariantTunableGroup.is_defaults g)).

Definition restore_defaults (self : tgref) (group_names : option (list string)) : M tgref :=
  let* all_names := get_covariant_group_names self in
  let* _ := for_ (py_or group_names all_names) (fun name =>
              let* group := group_named self name in
              let* g := group_at group in
              put_group group (CovariantTunableGroup.restore_defaults g)) in
  ret self.

Definition reset (self : tgref) (group_names : option (list string)) : M tgref :=
  let* all_names := get_covariant_group_names self in
  let* _ := for_ (py_or group_names all_names) (fun name =>
              let* group := group_named self name in
              let* g := group_at group in
              put_group group (CovariantTunableGroup.reset_is_updated g)) in
  ret self.

Definition assign (self : tgref) (param_values : dict TunableValue) : M tgref :=
  match param_values with
  | [] => restore_defaults self None
  | _ :: _ =>
      let* _ := for_ param_values (fun kv =>
                  let* _ := __setitem__ self (fst kv) (snd kv) in ret tt) in
      ret self
  end.

(** [copy.deepcopy] of the group objects behind a dictionary; [memo]
    pairs every object copied so far with its copy, so that an object
    reached twice is copied once. *)
Fixpoint memo_get (group : gref) (memo : list (gref * gref)) : option gref :=
  match memo with
  | [] => None
  | (old, new) :: memo' => if Nat.eqb group old then Some new else memo_get group memo'
  end.

Definition deepcopy_group (group : gref) (memo : list (gref * gref))
  : M (list (gref * gref) * gref) :=
  match memo_get group memo with
  | Some new => ret (memo, new)
  | None =>
      let* g := group_at group in
      let* new := new_group g in
      ret ((group, new) :: memo, new)
  end.

Fixpoint deepcopy_dict (d : dict gref) (memo : list (gref * gref))
  : M (list (gref * gref) * dict gref) :=
  match d with
  | [] => ret (memo, [])
  | (k, group) :: d' =>
      let* head := deepcopy_group group memo in
      let* tail := deepcopy_dict d' (fst head) in
      ret (fst tail, (k, snd head) :: snd tail)
  end.

(** [copy.deepcopy(self)]: the attributes are copied in the order of
    their creation, [_index] first, under one memo. *)
Definition copy (self : tgref) : M tgref :=
  let* o := this self in
  let* index := deepcopy_dict (_index o) [] in
  let* named := deepcopy_dict (_tunable_groups o) (fst index) in
  new_tunable_groups (mk_tunable_groups (snd index) (snd named)).

(** [__bool__]: [bool(self._index)]. *)
Definition __bool__ (self : tgref) : M bool :=
  let* o := this self in ret (negb (Nat.eqb (length (_index o)) 0)).

(** [get_tunable]: the tunable itself and its group, by name. *)
Definition get_tunable (self : tgref) (tunable : string) : M (Tunable.t * gref) :=
  let* o := this self in
  match dict_get tunable (_index o) with
  | None => raise (KeyError tunable)
  | Some group =>
      let* g := group_at group in
      let* x := lift_result (CovariantTunableGroup.get_tunable tunable g) in
      ret (x, group)
  end.

End TunableGroups.

(** ** Status *)

Module Status.

Inductive t : Type :=
| UNKNOWN | PENDING | READY | RUNNING | SUCCEEDED | CANCELED | FAILED | TIMED_OUT.

Definition eqb (a b : t) : bool :=
  match a, b with
  | UNKNOWN, UNKNOWN | PENDING, PENDING | READY, READY | RUNNING, RUNNING
  | SUCCEEDED, SUCCEEDED | CANCELED, CANCELED | FAILED, FAILED
  | TIMED_OUT, TIMED_OUT => true
  | _, _ => false
  end.

Definition is_good (status : t) : bool :=
  negb (existsb (eqb status) [CANCELED; FAILED; TIMED_OUT]).

(** Modelled from the spec: the [is_succeeded] property that the
    optimizer wrapper reads is not in the [Status] of the sources; a
    status is succeeded when it is [SUCCEEDED]. *)
Definition is_succeeded (status : t) : bool := eqb status SUCCEEDED.

End Status.

(** ** Data frames *)

(** A configuration is a row: column name to cell.  A frame is its rows
    in order; a float series is its cells in order, [None] being NaN. *)
Abbreviation Row := (dict TunableValue).
Abbreviation DataFrame := (list Row).
Abbreviation Series := (list (option Q)).

(** [sorted(l)] on names, and on items whose keys are distinct, by
    insertion on the key. *)
Fixpoint insert_sorted {A} (key : A -> string) (x : A) (l : list A) : list A :=
  match l with
  | [] => [x]
  | y :: l' => if String.leb (key x) (key y) then x :: y :: l' else y :: insert_sorted key x l'
  end.

Definition sorted_by {A} (key : A -> string) (l : list A) : list A :=
  fold_right (insert_sorted key) [] l.

Definition sorted (l : list string) : list string := sorted_by (fun x => x) l.

(** [pd.DataFrame(configs)[names]] on rows that all have every column:
    the cells of the named columns, in the order of [names]; a column
    that a row lacks is a [KeyError]. *)
Fixpoint select_row (names : list string) (row : Row) : result Row :=
  match names with
  | [] => Ok []
  | n :: names' =>
      match dict_get n row, select_row names' row with
      | None, _ => Raise (KeyError n)
      | Some v, Ok r => Ok ((n, v) :: r)
      | Some _, Raise e => Raise e
      end
  end.

Fixpoint select_columns (names : list string) (frame : list Row) : result DataFrame :=
  match frame with
  | [] => Ok []
  | row :: frame' =>
      match select_row names row, select_columns names frame' with
      | Ok r, Ok f => Ok (r :: f)
      | Raise e, _ => Raise e
      | Ok _, Raise e => Raise e
      end
  end.

(** [column[mask]] for a boolean mask of the same length. *)
Definition mask_filter {A} (mask : list bool) (l : list A) : list A :=
  map snd (List.filter (fun p => fst p) (combine mask l)).

(** [frame[name] = frame[name].astype(...)] with [cast] as the cast of
    one cell. *)
Fixpoint cast_column (name : string) (cast : TunableValue -> result TunableValue)
  (frame : DataFrame) : result DataFrame :=
  match frame with
  | [] => Ok []
  | row :: frame' =>
      match dict_get name row with
      | None => Raise (KeyError name)
      | Some v =>
          match cast v, cast_column name cast frame' with
          | Ok v', Ok f => Ok (dict_set name v' row :: f)
          | Raise e, _ => Raise e
          | Ok _, Raise e => Raise e
          end
      end
  end.

(** ** The interface of the search backends *)

(** Modelled from the spec: [mlos_core/optimizers/optimizer.py] is not
    among the sources.  A backend takes a batch of configurations with
    their scores, and reports its best observation as rows with their
    score, none while it has no observation. *)
Class BaseOptimizer (B : Type) : Type := {
  opt_register : DataFrame -> Series -> St B unit;
  opt_get_best_observation : B -> list (Row * Q);
}.

(** ** FlamlOptimizer *)

Module FlamlOptimizer.

(** [evaluated_configs] by configuration hash, and the warnings issued so
    far, each with the configuration it names. *)
Record t : Type := mk {
  evaluated_configs : gmap Z (Row * option Q);
  warnings : list Row;
}.

Section Flaml.

(** [hash(ConfigSpace.Configuration(space, values=config))] of a
    configuration that is legal for the space. *)
Variable config_hash : Row -> Z.

(** [warn(..., UserWarning)]: the warning is issued and execution goes
    on. *)
Definition warn (config : Row) : St t unit :=
  fun st => (mk (evaluated_configs st) (warnings st ++ [config]), Ok tt).

Definition _register (configurations : DataFrame) (scores : Series)
  (context : option DataFrame) : St t unit :=
  match context with
  | Some _ => raise NotImplementedError
  | None =>
      for_ (combine configurations scores) (fun item =>
        let h := config_hash (fst item) in
        let* _ := (fun st =>
                     match evaluated_configs st !! h with
                     | Some _ => warn (fst item) st
                     | None => ret tt st
                     end) in
        fun st => (mk (<[h := (fst item, snd item)]> (evaluated_configs st)) (warnings st),
                   Ok tt))
  end.

(** Modelled from the spec: the inherited [register] feeds the batch to
    [_register]. *)
Definition register (configurations : DataFrame) (scores : Series) : St t unit :=
  _register configurations scores None.

(** The best observation is inherited from the absent base class and is
    taken as given. *)
Variable get_best_observation : t -> list (Row * Q).

Definition Flaml_BaseOptimizer : BaseOptimizer t := {|
  opt_register := register;
  opt_get_best_observation := get_best_observation;
|}.

End Flaml.

(** The optimizer while FLAML searches: [_suggested_config] beside what
    [_register] keeps. *)
Record searching : Type := mk_searching {
  registrations : t;
  _suggested_config : option Row;
}.

Section FlamlTarget.

Variable config_hash : Row -> Z.

(** [_target_function]: the score, as [{'score': score}], of a
    configuration already evaluated; otherwise the configuration is kept
    as the suggestion and the result is [None]. *)
Definition _target_function (config : Row) : St searching (option (option Q)) :=
  fun st =>
    match evaluated_configs (registrations st) !! config_hash config with
    | Some entry => (st, Ok (Some (snd entry)))
    | None => (mk_searching (registrations st) (Some config), Ok None)
    end.

(** [_register] on the optimizer while it searches. *)
Definition register_searching (configurations : DataFrame) (scores : Series)
  : St searching unit :=
  fun st =>
    let (r, res) := _register config_hash configurations scores None (registrations st) in
    (mk_searching r (_suggested_config st), res).

End FlamlTarget.

Definition register_pending (configurations : DataFrame) (context : option DataFrame)
  : St t unit :=
  raise NotImplementedError.

End FlamlOptimizer.

(** ** MlosCoreOptimizer *)

Module MlosCoreOptimizer.

(** The attributes read by the methods below; [_opt_sign] is 1 to
    minimize and -1 to maximize. *)
Record t (B : Type) : Type := mk {
  _tunables : tgref;
  _opt_sign : Z;
  _iter : Z;
  _opt : B;
}.
Arguments mk {B}.
Arguments _tunables {B}.
Arguments _opt_sign {B}.
Arguments _iter {B}.
Arguments _opt {B}.

(** What a method of the wrapper can reach: the store of tunables, the
    wrapper itself and whether the logger is at DEBUG level. *)
Record World (B : Type) : Type := mk_world {
  store : Store;
  optimizer : t B;
  log_debug : bool;
}.
Arguments mk_world {B}.
Arguments store {B}.
Arguments optimizer {B}.
Arguments log_debug {B}.

Section Wrapper.

Context {B : Type} `{BaseOptimizer B}.

(** [super().bulk_register(configs, scores, status)] of the base class,
    which is not among the sources: the wrapper only tests its result and
    returns [False] at once when it is false. *)
Variable Optimizer_bulk_register :
  list Row -> list (option Q) -> option (list Status.t) -> bool.

(** [column.astype(tunable.dtype)] on one cell; [Tunable.dtype] is not
    among the sources. *)
Variable astype : Tunable.t -> TunableValue -> result TunableValue.

Definition in_store {A} (m : M A) : St (World B) A :=
  fun w => let (s, r) := m (store w) in (mk_world s (optimizer w) (log_debug w), r).

Definition in_backend {A} (m : St B A) : St (World B) A :=
  fun w => let o := optimizer w in
           let (b, r) := m (_opt o) in
           (mk_world (store w) (mk (_tunables o) (_opt_sign o) (_iter o) b) (log_debug w), r).

Definition self {A} (f : t B -> A) : St (World B) A :=
  fun w => (w, Ok (f (optimizer w))).

Definition normalize (sign : Z) (score : option Q) : option Q :=
  option_map (fun q => Qmult q (inject_Z sign)) score.

(** Modelled from the spec: [super().register(tunables, status, score)]
    normalizes the sign of the score, once, by the configured direction. *)
Definition Optimizer_register (tunables : tgref) (status : Status.t) (score : option Q)
  : St (World B) (option Q) :=
  let* sign := self _opt_sign in
  ret (normalize sign score).

Fixpoint cast_columns (tunables : list (Tunable.t * gref)) (frame : DataFrame)
  : result DataFrame :=
  match tunables with
  | [] => Ok frame
  | (tunable, _) :: rest =>
      match cast_column (Tunable.name tunable) (astype tunable) frame with
      | Ok frame' => cast_columns rest frame'
      | Raise e => Raise e
      end
  end.

Definition get_best_observation : St (World B) (option (Q * tgref)) :=
  let* opt := self _opt in
  match opt_get_best_observation opt with
  | [] => ret None
  | (params, score) :: _ =>
      let* sign := self _opt_sign in
      let* tunables := self _tunables in
      let* best := in_store (TunableGroups.copy tunables) in
      let* _ := in_store (TunableGroups.assign best params) in
      ret (Some (Qmult score (inject_Z sign), best))
  end.

Definition bulk_register (configs : list Row) (scores : list (option Q))
  (status : option (list Status.t)) : St (World B) bool :=
  if negb (Optimizer_bulk_register configs scores status) then ret false
  else
    let* tunables := self _tunables in
    let* sign := self _opt_sign in
    let* params := in_store (TunableGroups.get_param_values tunables None None) in
    let tunables_names := sorted (dict_keys params) in
    let* df_configs := lift_result (select_columns tunables_names configs) in
    let df_scores := map (normalize sign) scores in
    let df_status_ok := option_map (map Status.is_succeeded) status in
    let df_configs := match df_status_ok with
                      | Some mask => mask_filter mask df_configs
                      | None => df_configs
                      end in
    let df_scores := match df_status_ok with
                     | Some mask => mask_filter mask df_scores
                     | None => df_scores
                     end in
    let* pairs := in_store (TunableGroups.__iter__ tunables) in
    let* df_configs := lift_result (cast_columns pairs df_configs) in
    let* _ := in_backend (opt_register df_configs df_scores) in
    let* debug := (fun w => (w, Ok (log_debug w))) in
    let* _ := if (debug : bool) then let* _ := get_best_observation in ret tt else ret tt in
    ret true.

Definition register (tunables : tgref) (status : Status.t) (score : option Q)
  : St (World B) (option Q) :=
  let* score := Optimizer_register tunables status score in
  let* _ := if Status.is_succeeded status
            then
              let* params := in_store (TunableGroups.get_param_values tunables None None) in
              let df_config := [sorted_by fst params] in
              in_backend (opt_register df_config [score])
            else ret tt in
  let* _ := (fun w => let o := optimizer w in
                      (mk_world (store w)
                                (mk (_tunables o) (_opt_sign o) (_iter o + 1)%Z (_opt o))
                                (log_debug w), Ok tt)) in
  ret score.

End Wrapper.

Section Suggest.

Context {B : Type} `{BaseOptimizer B}.

(** [self._opt.suggest(defaults=...)] of the backend, and the attribute
    [_use_defaults] of the base class; neither is among the sources. *)
Variable opt_suggest : bool -> St B DataFrame.
Variable _use_defaults : bool.

(** [suggest]: [self._tunables.copy()] is evaluated before
    [df_config.loc[0]], which is a [KeyError] on a frame without rows. *)
Definition suggest : St (World B) tgref :=
  let* it := self _iter in
  let use_defaults := _use_defaults && Z.eqb it 1 in
  let* df_config := in_backend (opt_suggest use_defaults) in
  let* tunables := self _tunables in
  let* fresh := in_store (TunableGroups.copy tunables) in
  match df_config with
  | [] => raise (KeyError "0")
  | row :: _ => in_store (TunableGroups.assign fresh row)
  end.

End Suggest.

End MlosCoreOptimizer.

(** A backend that does nothing but keep the batches it was given, to
    see whether [register] was called on it. *)
#[global] Instance recording_backend : BaseOptimizer (list (DataFrame * Series)) := {
  opt_register := fun configurations scores calls =>
                    (calls ++ [(configurations, scores)], Ok tt);
  opt_get_best_observation := fun _ => [];
}.

(** ** Auxiliary definitions for the statements and proofs *)

(** The names under which [_add_group] indexes the tunables of a group. *)
Definition tunable_names (g : CovariantTunableGroup.t) : list string :=
  map Tunable.name (CovariantTunableGroup.get_tunables g).

(** The loop of [_add_group] seen on the index alone: the index it
    leaves, and the tunable it stopped at, if any. *)
Fixpoint index_tunables (group : gref) (tunables : list Tunable.t) (index : dict gref)
  : dict gref * option Tunable.t :=
  match tunables with
  | [] => (index, None)
  | x :: rest =>
      if dict_contains (Tunable.name x) index then (index, Some x)
      else index_tunables group rest (dict_set (Tunable.name x) group index)
  end.

(** [o'] has the entries of [o], in place, and possibly more after them;
    the groups that came after are among [src] and under names that [o]
    had not. *)
Definition extends (src : list gref) (o o' : TunableGroupsObject) : Prop :=
  (exists more, _index o' = _index o ++ more)
  /\ (exists more, _tunable_groups o' = _tunable_groups o ++ more
        /\ forall k l, (k, l) ∈ more ->
             l ∈ src /\ dict_get k (_tunable_groups o) = None).

(** From [s] to [s'] nothing was written but the object [self], which
    was extended. *)
Definition grows (src : list gref) (self : tgref) (s s' : Store) : Prop :=
  groups s' = groups s
  /\ length (tunable_groups s') = length (tunable_groups s)
  /\ (forall r, r <> self -> tunable_groups s' !! r = tunable_groups s !! r)
  /\ (forall o, tunable_groups s !! self = Some o ->
        exists o', tunable_groups s' !! self = Some o' /\ extends src o o').

(** A computation all of whose runs relate the state before to the state
    after by [R], however it ends. *)
Definition preserves {S A} (R : S -> S -> Prop) (m : St S A) : Prop :=
  forall s, R s (fst (m s)).

(** What holds of every Python object by construction and has to be said
    of a store of the model: dictionaries have each key once, and the
    references held by a [TunableGroups] are to existing groups. *)
Record allocated (s : Store) (o : TunableGroupsObject) : Prop := {
  alloc_group_keys : NoDup (dict_keys (_tunable_groups o));
  alloc_index_keys : NoDup (dict_keys (_index o));
  alloc_groups : forall k l, (k, l) ∈ _tunable_groups o ->
    exists g, groups s !! l = Some g /\ NoDup (dict_keys (CovariantTunableGroup._tunables g));
  alloc_index : forall n l, (n, l) ∈ _index o ->
    exists g, groups s !! l = Some g /\ NoDup (dict_keys (CovariantTunableGroup._tunables g));
}.

(** Group [l] of [o] has a tunable called [n]. *)
Definition owns (s : Store) (o : TunableGroupsObject) (n : string) (l : gref) : Prop :=
  exists k g, (k, l) ∈ _tunable_groups o /\ groups s !! l = Some g /\ n ∈ tunable_names g.

(** The class invariant of [TunableGroups]: groups are filed under their
    own names, the tunables of a group have distinct names, and the index
    holds exactly the tunables of the groups, each under its group. *)
Record consistent (s : Store) (o : TunableGroupsObject) : Prop := {
  groups_nodup : NoDup (dict_keys (_tunable_groups o));
  index_nodup : NoDup (dict_keys (_index o));
  groups_named : forall k l, (k, l) ∈ _tunable_groups o ->
    exists g, groups s !! l = Some g /\ CovariantTunableGroup.name g = k
              /\ NoDup (tunable_names g);
  index_sound : forall n l, (n, l) ∈ _index o -> owns s o n l;
  index_complete : forall n l, owns s o n l -> (n, l) ∈ _index o;
}.

(** All the tunable names of a configuration tree, group after group. *)
Definition config_tunable_names (config : TunableGroups.Config) : list string :=
  concat (map (fun item => dict_keys (CovariantTunableGroup.cfg_params (snd item))) config).

(** What the loops of [restore_defaults] and [reset] do to the group
    objects: [f] at each of the references [ls] in turn. *)
Definition update_all (f : CovariantTunableGroup.t -> CovariantTunableGroup.t)
  (ls : list gref) (gs : list CovariantTunableGroup.t) : list CovariantTunableGroup.t :=
  fold_left (fun gs l => alter f l gs) ls gs.

(** The update flag of the group behind a reference. *)
Definition dirty (s : Store) (l : gref) : bool :=
  match groups s !! l with
  | Some g => CovariantTunableGroup.is_updated g
  | None => false
  end.

(** The group objects that a collection refers to. *)
Definition refs (o : TunableGroupsObject) : list gref :=
  dict_values (_index o) ++ dict_values (_tunable_groups o).

(** The calls that change values or flags through a collection. *)
Inductive mutation : Type :=
| SetItem (tunable : string) (value : TunableValue)
| Assign (param_values : dict TunableValue)
| RestoreDefaults (group_names : option (list string))
| Reset (group_names : option (list string)).

Definition mutate (self : tgref) (m : mutation) : M unit :=
  match m with
  | SetItem tunable value =>
      let* _ := TunableGroups.__setitem__ self tunable value in ret tt
  | Assign param_values => let* _ := TunableGroups.assign self param_values in ret tt
  | RestoreDefaults group_names =>
      let* _ := TunableGroups.restore_defaults self group_names in ret tt
  | Reset group_names => let* _ := TunableGroups.reset self group_names in ret tt
  end.

(** What the reading methods return for [self] is the same in [s'] as in
    [s]. *)
Definition same_observations (self : tgref) (s s' : Store) : Prop :=
  snd (TunableGroups.get_param_values self None None s')
  = snd (TunableGroups.get_param_values self None None s)
  /\ snd (TunableGroups.is_updated self None s') = snd (TunableGroups.is_updated self None s)
  /\ snd (TunableGroups.is_defaults self s') = snd (TunableGroups.is_defaults self s)
  /\ forall x, snd (TunableGroups.__getitem__ self x s')
               = snd (TunableGroups.__getitem__ self x s).

(** From [s] to [s'] no collection was written, no group was created, and
    only groups among [fp] were written. *)
Definition writes_only (fp : list gref) (s s' : Store) : Prop :=
  tunable_groups s' = tunable_groups s
  /\ length (groups s') = length (groups s)
  /\ forall l, l ∉ fp -> groups s' !! l = groups s !! l.

(** If [self] is the object [o] in [s], then from [s] to [s'] only groups
    of [o] were written. *)
Definition touches (self : tgref) (o : TunableGroupsObject) (s s' : Store) : Prop :=
  tunable_groups s !! self = Some o -> writes_only (refs o) s s'.

(** During a deep copy: the store has grown from [gs0] by copies only,
    and the memo sends old objects to their copies. *)
Definition memo_ok (gs0 gs : list CovariantTunableGroup.t) (memo : list (gref * gref)) : Prop :=
  (exists copies, gs = gs0 ++ copies)
  /\ forall old new, TunableGroups.memo_get old memo = Some new ->
       length gs0 <= new /\ old < length gs0 /\ gs !! new = gs0 !! old.

(** What the loop of [FlamlOptimizer._register] leaves in
    [evaluated_configs], and the configurations it warns about, in
    order. *)
Fixpoint registered (config_hash : Row -> Z) (rows : list (Row * option Q))
  (evaluated : gmap Z (Row * option Q)) : gmap Z (Row * option Q) :=
  match rows with
  | [] => evaluated
  | row :: rest =>
      registered config_hash rest (<[config_hash (fst row) := (fst row, snd row)]> evaluated)
  end.

Fixpoint repeated (config_hash : Row -> Z) (rows : list (Row * option Q))
  (evaluated : gmap Z (Row * option Q)) : list Row :=
  match rows with
  | [] => []
  | row :: rest =>
      match evaluated !! config_hash (fst row) with
      | Some _ => [fst row]
      | None => []
      end ++ repeated config_hash rest
               (<[config_hash (fst row) := (fst row, snd row)]> evaluated)
  end.

(** The batch that [bulk_register] hands to the backend once the rows
    have their columns: the rows and the normalized scores, both kept
    where the status is [SUCCEEDED] when statuses are given. *)
Definition kept {A} (status : option (list Status.t)) (l : list A) : list A :=
  match option_map (map Status.is_succeeded) status with
  | Some mask => mask_filter mask l
  | None => l
  end.

(** The two invariants as tests, for stores that are given in full. *)
Definition distinct (l : list string) : bool := bool_decide (NoDup l).

Definition allocated_group (s : Store) (l : gref) : bool :=
  match groups s !! l with
  | Some g => distinct (dict_keys (CovariantTunableGroup._tunables g))
  | None => false
  end.

Definition allocatedb (s : Store) (o : TunableGroupsObject) : bool :=
  distinct (dict_keys (_tunable_groups o))
  && distinct (dict_keys (_index o))
  && forallb (fun kl => allocated_group s (snd kl)) (_tunable_groups o)
  && forallb (fun kl => allocated_group s (snd kl)) (_index o).

Definition named_group (s : Store) (kl : string * gref) : bool :=
  match groups s !! snd kl with
  | Some g => String.eqb (CovariantTunableGroup.name g) (fst kl) && distinct (tunable_names g)
  | None => false
  end.

Definition ownsb (s : Store) (o : TunableGroupsObject) (nl : string * gref) : bool :=
  existsb (fun kl => Nat.eqb (snd kl) (snd nl)
                     && match groups s !! snd nl with
                        | Some g => existsb (String.eqb (fst nl)) (tunable_names g)
                        | None => false
                        end) (_tunable_groups o).

Definition indexed_group (s : Store) (o : TunableGroupsObject) (kl : string * gref) : bool :=
  match groups s !! snd kl with
  | Some g => forallb (fun n => match dict_get n (_index o) with
                                | Some l => Nat.eqb l (snd kl)
                                | None => false
                                end) (tunable_names g)
  | None => true
  end.

Definition consistentb (s : Store) (o : TunableGroupsObject) : bool :=
  distinct (dict_keys (_tunable_groups o))
  && distinct (dict_keys (_index o))
  && forallb (named_group s) (_tunable_groups o)
  && forallb (ownsb s o) (_index o)
  && forallb (indexed_group s o) (_tunable_groups o).

(** The tunables of every group of [o] are filed, inside the group,
    under their own names. *)
Definition keyed_group (g : CovariantTunableGroup.t) : bool :=
  forallb (fun kv => String.eqb (fst kv) (Tunable.name (snd kv)))
          (CovariantTunableGroup._tunables g).

Definition keyed (s : Store) (o : TunableGroupsObject) : bool :=
  forallb (fun kl => match groups s !! snd kl with
                     | Some g => keyed_group g
                     | None => true
                     end) (_tunable_groups o).

(** The number of tunables of the group behind a reference. *)
Definition group_size (s : Store) (l : gref) : nat :=
  match groups s !! l with
  | Some g => length (CovariantTunableGroup.get_tunables g)
  | None => 0
  end.

(** What [TunableGroups(config)] leaves in its two dictionaries when it
    completes, the group of the first entry being the object [base], the
    next one [base + 1], and so on. *)
Fixpoint built_groups (base : gref) (config : TunableGroups.Config) : dict gref :=
  match config with
  | [] => []
  | item :: rest => (fst item, base) :: built_groups (S base) rest
  end.

Fixpoint built_index (base : gref) (config : TunableGroups.Config) : dict gref :=
  match config with
  | [] => []
  | item :: rest =>
      map (fun p => (fst p, base)) (CovariantTunableGroup.cfg_params (snd item))
      ++ built_index (S base) rest
  end.

(** The entries that [_add_group] puts in the index for the group behind
    a reference, and the groups of a dictionary that are under names
    that [o] has not. *)
Definition group_entries (s : Store) (l : gref) : dict gref :=
  match groups s !! l with
  | Some g => map (fun x => (Tunable.name x, l)) (CovariantTunableGroup.get_tunables g)
  | None => []
  end.

Definition new_to (o : TunableGroupsObject) (d : dict gref) : dict gref :=
  List.filter (fun kl => negb (dict_contains (fst kl) (_tunable_groups o))) d.

(** The keys of a list of items never go down. *)
Fixpoint ascending {A} (key : A -> string) (l : list A) : bool :=
  match l with
  | [] => true
  | x :: rest =>
      match rest with
      | [] => true
      | y :: _ => String.leb (key x) (key y) && ascending key rest
      end
  end.

(** From [w] to [w'] the wrapper has kept its tunables, its direction,
    its iteration count and the level of its logger; and, with the store
    too, when the logger is not at DEBUG level. *)
Definition same_wrapper {B} (w w' : MlosCoreOptimizer.World B) : Prop :=
  MlosCoreOptimizer._tunables (MlosCoreOptimizer.optimizer w')
  = MlosCoreOptimizer._tunables (MlosCoreOptimizer.optimizer w)
  /\ MlosCoreOptimizer._opt_sign (MlosCoreOptimizer.optimizer w')
     = MlosCoreOptimizer._opt_sign (MlosCoreOptimizer.optimizer w)
  /\ MlosCoreOptimizer._iter (MlosCoreOptimizer.optimizer w')
     = MlosCoreOptimizer._iter (MlosCoreOptimizer.optimizer w)
  /\ MlosCoreOptimizer.log_debug w' = MlosCoreOptimizer.log_debug w.

Definition same_wrapper_and_store {B} (w w' : MlosCoreOptimizer.World B) : Prop :=
  same_wrapper w w'
  /\ (MlosCoreOptimizer.log_debug w = false
      -> MlosCoreOptimizer.store w' = MlosCoreOptimizer.store w).

(** From [s] to [s'] no group object that existed was written, and no
    collection that existed other than [self]. *)
Definition allocates (self : tgref) (s s' : Store) : Prop :=
  (forall l g, groups s !! l = Some g -> groups s' !! l = Some g)
  /\ (forall r o, r <> self -> tunable_groups s !! r = Some o ->
        tunable_groups s' !! r = Some o).

(** ** Example data *)

(** The tunables of the fixture in [tests/conftest.py]. *)
Definition categorical (values : list string) (default : string)
  : CovariantTunableGroup.TunableConfig :=
  CovariantTunableGroup.mk_tunable_config (Tunable.DCategorical values) (Tunable.VStr default).

Definition integer (lo hi : Z) (special : list Z) (default : Z)
  : CovariantTunableGroup.TunableConfig :=
  CovariantTunableGroup.mk_tunable_config (Tunable.DInt lo hi special) (Tunable.VInt default).

Definition boot_config : CovariantTunableGroup.GroupConfig :=
  CovariantTunableGroup.mk_group_config 300
    [("rootfs", categorical ["xfs"; "ext4"; "ext2"] "xfs")].

Definition fixture_config : TunableGroups.Config :=
  [("provision", CovariantTunableGroup.mk_group_config 1000
      [("vmSize", categorical ["Standard_B2s"; "Standard_B2ms"; "Standard_B4ms"]
                              "Standard_B4ms")]);
   ("boot", boot_config);
   ("kernel", CovariantTunableGroup.mk_group_config 1
      [("kernel_sched_migration_cost_ns", integer (-1) 500000 [(-1)%Z] (-1));
       ("kernel_sched_latency_ns", integer 0 1000000000 [] 2000000)])].

Definition empty_store : Store := mk_store [] [].

(** The [TunableGroups] object that the fixture builds. *)
Definition fixture_object : TunableGroupsObject :=
  mk_tunable_groups
    [("vmSize", 0); ("rootfs", 1); ("kernel_sched_migration_cost_ns", 2);
     ("kernel_sched_latency_ns", 2)]
    [("provision", 0); ("boot", 1); ("kernel", 2)].

(** The store after [tunables = TunableGroups(fixture_config)]: the
    object is reference 0 and its groups are references 0, 1 and 2. *)
Definition fixture_store : Store :=
  Eval vm_compute in fst (TunableGroups.__init__ fixture_config empty_store).

(** A second collection, reference 1, with a [boot] group of its own
    (reference 3) set to [ext4] and a group [net] (reference 4). *)
Definition other_config : TunableGroups.Config :=
  [("boot", boot_config);
   ("net", CovariantTunableGroup.mk_group_config 10
      [("tcp_window", integer 1 64 [] 16)])].

Definition two_collections : Store :=
  Eval vm_compute in
    fst ((let* other := TunableGroups.__init__ other_config in
          TunableGroups.__setitem__ other "rootfs" (Tunable.VStr "ext4")) fixture_store).

(** A third collection, reference 1, whose [boot] group allows other
    file systems. *)
Definition clashing_config : TunableGroups.Config :=
  [("boot", CovariantTunableGroup.mk_group_config 300
      [("rootfs", categorical ["btrfs"; "zfs"] "btrfs")])].

Definition clashing_collections : Store :=
  Eval vm_compute in fst (TunableGroups.__init__ clashing_config fixture_store).

(** A row of values for the four tunables of the fixture, and a hash of
    configurations for the examples. *)
Definition fixture_row : Row :=
  [("kernel_sched_latency_ns", Tunable.VInt 1000000);
   ("kernel_sched_migration_cost_ns", Tunable.VInt (-1));
   ("rootfs", Tunable.VStr "ext4");
   ("vmSize", Tunable.VStr "Standard_B2s")].

Definition length_hash (config : Row) : Z :=
  fold_right (fun kv h =>
      match snd kv with
      | Tunable.VInt z => (z + 31 * h)%Z
      | Tunable.VFloat q => (Qnum q + 31 * h)%Z
      | Tunable.VStr v => (Z.of_nat (String.length v) + 31 * h)%Z
      end) 7%Z config.

(** A wrapper over the FLAML backend for the fixture, in which
    [fixture_row] is already registered with score 1. *)
Definition warm_world : MlosCoreOptimizer.World FlamlOptimizer.t :=
  MlosCoreOptimizer.mk_world fixture_store
    (MlosCoreOptimizer.mk 0 1%Z 1%Z
       (FlamlOptimizer.mk {[ length_hash fixture_row := (fixture_row, Some (1 # 1)%Q) ]} []))
    false.

Definition has_data (configs : list Row) (scores : list (option Q))
  (status : option (list Status.t)) : bool :=
  negb (Nat.eqb (length configs) 0).

(** A group, reference 3, that is not in the fixture but has a tunable
    called [rootfs] after one called [swappiness]. *)
Definition stray_group : CovariantTunableGroup.t :=
  CovariantTunableGroup.__init__ "memory"
    (CovariantTunableGroup.mk_group_config 5
       [("swappiness", integer 0 100 [] 60);
        ("rootfs", categorical ["xfs"; "ext4"] "xfs")]).

Definition fixture_and_stray : Store :=
  Eval vm_compute in fst (new_group stray_group fixture_store).

(** The fixture after [tunables["rootfs"] = "ext4"]. *)
Definition fixture_changed : Store :=
  Eval vm_compute in
    fst (TunableGroups.__setitem__ 0 "rootfs" (Tunable.VStr "ext4") fixture_store).

(** * Properties *)

Lemma map_fmap {A B} (f : A -> B) (l : list A) : map f l = f <$> l.
Proof. reflexivity. Qed.

Section DictFacts.
Context {V : Type}.
Implicit Types (d : dict V) (k : string) (v : V).

Lemma dict_get_app k d d' :
  dict_get k (d ++ d') = match dict_get k d with Some v => Some v | None => dict_get k d' end.
Proof.
  induction d as [|[k' v'] d IH]; simpl; [done|].
  destruct (String.eqb k k'); done.
Qed.

Lemma dict_get_None k d : dict_get k d = None ↔ k ∉ dict_keys d.
Proof.
  induction d as [|[k' v'] d IH]; simpl.
  - split; [intros _; apply not_elem_of_nil | done].
  - rewrite not_elem_of_cons. destruct (String.eqb_spec k k') as [->|Hne]; simpl.
    + split; [done | intros [? _]; done].
    + rewrite IH. tauto.
Qed.

Lemma dict_get_elem k v d : dict_get k d = Some v → (k, v) ∈ d.
Proof.
  induction d as [|[k' v'] d IH]; simpl; [done|].
  destruct (String.eqb_spec k k') as [->|Hne].
  - intros [= ->]. left.
  - intros H. right. auto.
Qed.

Lemma dict_get_nodup k v d : NoDup (dict_keys d) → (k, v) ∈ d → dict_get k d = Some v.
Proof.
  induction d as [|[k' v'] d IH]; simpl.
  - intros _ H. by apply elem_of_nil in H.
  - intros Hnd Hin. apply NoDup_cons in Hnd as [Hk Hnd].
    apply elem_of_cons in Hin as [[= -> ->]|Hin].
    + by rewrite String.eqb_refl.
    + destruct (String.eqb_spec k k') as [->|Hne]; [|auto].
      exfalso. apply Hk. unfold dict_keys. rewrite map_fmap.
      apply (list_elem_of_fmap_2 fst _ (k', v)), Hin.
Qed.

Lemma dict_contains_false k d : dict_contains k d = false ↔ dict_get k d = None.
Proof. unfold dict_contains. destruct (dict_get k d); split; congruence. Qed.

Lemma dict_contains_true k d : dict_contains k d = true ↔ k ∈ dict_keys d.
Proof.
  destruct (dict_contains k d) eqn:E.
  - split; [intros _|done]. destruct (decide (k ∈ dict_keys d)) as [|Hn]; [done|].
    apply dict_get_None in Hn. apply dict_contains_false in Hn. congruence.
  - split; [done|]. intros Hin. apply dict_contains_false, dict_get_None in E. done.
Qed.

Lemma dict_set_absent k v d : dict_get k d = None → dict_set k v d = d ++ [(k, v)].
Proof.
  induction d as [|[k' v'] d IH]; simpl; [done|].
  destruct (String.eqb k k'); [done|]. intros H. by rewrite IH.
Qed.

Lemma dict_get_set_eq k v d : dict_get k (dict_set k v d) = Some v.
Proof.
  induction d as [|[k' v'] d IH]; simpl.
  - by rewrite String.eqb_refl.
  - destruct (String.eqb k k') eqn:E; simpl; rewrite E; [|done].
    done.
Qed.

Lemma dict_get_set_ne k k' v d : k ≠ k' → dict_get k' (dict_set k v d) = dict_get k' d.
Proof.
  intros Hne. induction d as [|[k0 v0] d IH]; simpl.
  - destruct (String.eqb_spec k' k); [congruence|done].
  - destruct (String.eqb_spec k k0) as [->|]; simpl.
    + destruct (String.eqb_spec k' k0); [congruence|done].
    + destruct (String.eqb k' k0); [done|apply IH].
Qed.

Lemma dict_keys_app d d' : dict_keys (d ++ d') = dict_keys d ++ dict_keys d'.
Proof. apply map_app. Qed.

End DictFacts.

Import CovariantTunableGroup TunableGroups.

(** ** Running the primitives *)

Lemma store_eta (s : Store) : mk_store (groups s) (tunable_groups s) = s.
Proof. by destruct s. Qed.

Lemma put_this_same (s : Store) self o :
  tunable_groups s !! self = Some o →
  mk_store (groups s) (<[self := o]> (tunable_groups s)) = s.
Proof. intros H. rewrite list_insert_id; [apply store_eta | done]. Qed.

Lemma bind_run {S A B} (m : St S A) (k : A → St S B) (s : S) :
  bind m k s = match m s with
               | (s', Ok a) => k a s'
               | (s', Raise e) => (s', Raise e)
               end.
Proof. reflexivity. Qed.

Lemma this_ok (s : Store) self o :
  tunable_groups s !! self = Some o → this self s = (s, Ok o).
Proof. intros H. unfold this. by rewrite H. Qed.

Lemma this_stale (s : Store) self :
  tunable_groups s !! self = None → this self s = (s, Raise StaleReference).
Proof. intros H. unfold this. by rewrite H. Qed.

Lemma group_at_ok (s : Store) group g :
  groups s !! group = Some g → group_at group s = (s, Ok g).
Proof. intros H. unfold group_at. by rewrite H. Qed.

Lemma group_at_stale (s : Store) group :
  groups s !! group = None → group_at group s = (s, Raise StaleReference).
Proof. intros H. unfold group_at. by rewrite H. Qed.

(** ** [_add_group] *)

Lemma index_loop_run group gname ts : ∀ (s : Store) idx G self,
  tunable_groups s !! self = Some (mk_tunable_groups idx G) →
  for_ ts (fun tunable =>
      let* o := this self in
      if dict_contains (Tunable.name tunable) (_index o)
      then raise (ValueError (DuplicateTunable (Tunable.name tunable) gname))
      else put_this self (mk_tunable_groups
                            (dict_set (Tunable.name tunable) group (_index o))
                            (_tunable_groups o))) s
  = (mk_store (groups s)
       (<[self := mk_tunable_groups (index_tunables group ts idx).1 G]> (tunable_groups s)),
     match (index_tunables group ts idx).2 with
     | None => Ok tt
     | Some x => Raise (ValueError (DuplicateTunable (Tunable.name x) gname))
     end).
Proof.
  induction ts as [|x ts IH]; intros s idx G self Hself; simpl.
  - unfold ret. by rewrite put_this_same.
  - rewrite !bind_run, (this_ok _ _ _ Hself). simpl.
    destruct (dict_contains (Tunable.name x) idx) eqn:E; simpl.
    + by rewrite put_this_same.
    + rewrite (IH _ (dict_set (Tunable.name x) group idx) G self); simpl.
      * by rewrite list_insert_insert_eq.
      * apply list_lookup_insert_eq. by eapply lookup_lt_Some.
Qed.

Lemma add_group_run (s : Store) self group g o :
  groups s !! group = Some g → tunable_groups s !! self = Some o →
  _add_group self group s =
    if dict_contains (name g) (_tunable_groups o)
    then (s, Raise (AssertionError (name g)))
    else (mk_store (groups s)
            (<[self := mk_tunable_groups
                         (index_tunables group (get_tunables g) (_index o)).1
                         (dict_set (name g) group (_tunable_groups o))]> (tunable_groups s)),
          match (index_tunables group (get_tunables g) (_index o)).2 with
          | None => Ok tt
          | Some x => Raise (ValueError (DuplicateTunable (Tunable.name x) (name g)))
          end).
Proof.
  intros Hg Ho. unfold _add_group.
  rewrite bind_run, (group_at_ok _ _ _ Hg), bind_run, (this_ok _ _ _ Ho).
  destruct (dict_contains (name g) (_tunable_groups o)); [done|].
  rewrite bind_run. unfold put_this at 1.
  rewrite (index_loop_run group (name g) _ _ (_index o)
             (dict_set (name g) group (_tunable_groups o)) self); simpl.
  - by rewrite list_insert_insert_eq.
  - apply list_lookup_insert_eq. by eapply lookup_lt_Some.
Qed.

(** The index loop stops at the first tunable whose name is already
    indexed, be it from before or from this same group. *)
Lemma index_tunables_spec group ts : ∀ idx,
  ∃ pre rest,
    ts = pre ++ rest
    ∧ NoDup (map Tunable.name pre)
    ∧ (∀ x, x ∈ pre → Tunable.name x ∉ dict_keys idx)
    ∧ (index_tunables group ts idx).1 = idx ++ map (fun x => (Tunable.name x, group)) pre
    ∧ match rest with
      | [] => (index_tunables group ts idx).2 = None
      | x :: _ => (index_tunables group ts idx).2 = Some x
                  ∧ (Tunable.name x ∈ dict_keys idx ∨ Tunable.name x ∈ map Tunable.name pre)
      end.
Proof.
  induction ts as [|x ts IH]; intros idx; simpl.
  - exists [], []. simpl. rewrite app_nil_r. repeat split; try done.
    + constructor.
    + intros x Hx. by apply elem_of_nil in Hx.
  - destruct (dict_contains (Tunable.name x) idx) eqn:E.
    + exists [], (x :: ts). simpl. rewrite app_nil_r. repeat split; try done.
      * constructor.
      * intros y Hy. by apply elem_of_nil in Hy.
      * left. by apply dict_contains_true.
    + apply dict_contains_false in E.
      destruct (IH (dict_set (Tunable.name x) group idx))
        as (pre & rest & -> & Hnd & Hfresh & Hidx & Hrest).
      rewrite (dict_set_absent _ _ _ E) in Hidx, Hrest, Hfresh.
      rewrite dict_keys_app in Hfresh, Hrest. simpl in Hfresh, Hrest.
      exists (x :: pre), rest. simpl. repeat split.
      * apply NoDup_cons. split; [|done].
        rewrite map_fmap. intros (y & Hy & Hin)%list_elem_of_fmap.
        apply (Hfresh y Hin). rewrite elem_of_app, <- Hy. right. left.
      * intros y [->|Hy]%elem_of_cons.
        -- by apply dict_get_None.
        -- intros Hin. apply (Hfresh y Hy). rewrite elem_of_app. by left.
      * rewrite (dict_set_absent _ _ _ E), Hidx, <- app_assoc. done.
      * rewrite (dict_set_absent _ _ _ E). destruct rest as [|z rest]; [done|].
        destruct Hrest as [-> Hz]. split; [done|].
        destruct Hz as [[Hz|Hz]%elem_of_app|Hz].
        -- by left.
        -- right. apply list_elem_of_singleton in Hz. rewrite Hz. left.
        -- right. by right.
Qed.

Lemma index_tunables_ok group ts idx :
  (index_tunables group ts idx).2 = None →
  NoDup (map Tunable.name ts)
  ∧ (∀ x, x ∈ ts → Tunable.name x ∉ dict_keys idx)
  ∧ (index_tunables group ts idx).1 = idx ++ map (fun x => (Tunable.name x, group)) ts.
Proof.
  intros Hok.
  destruct (index_tunables_spec group ts idx) as (pre & rest & -> & Hnd & Hfresh & Hidx & Hrest).
  destruct rest as [|z rest].
  - rewrite app_nil_r in *. done.
  - destruct Hrest as [Hz _]. congruence.
Qed.

Lemma index_tunables_succeeds group ts : ∀ idx,
  NoDup (map Tunable.name ts) →
  (∀ x, x ∈ ts → Tunable.name x ∉ dict_keys idx) →
  (index_tunables group ts idx).2 = None.
Proof.
  induction ts as [|x ts IH]; intros idx Hnd Hfresh; simpl; [done|].
  simpl in Hnd. apply NoDup_cons in Hnd as [Hx Hnd].
  assert (dict_get (Tunable.name x) idx = None) as E.
  { apply dict_get_None, Hfresh. left. }
  rewrite (proj2 (dict_contains_false _ _) E).
  apply IH; [done|]. intros y Hy. rewrite (dict_set_absent _ _ _ E), dict_keys_app.
  simpl. rewrite elem_of_app, list_elem_of_singleton.
  intros [Hin|Heq].
  - apply (Hfresh y); [by right | done].
  - apply Hx. rewrite map_fmap, <- Heq. by apply list_elem_of_fmap_2.
Qed.

(** ** Frame rules of the monad *)

Section Preserves.
Context {S : Type} (R : S → S → Prop) `{!PreOrder R}.

Lemma preserves_ret {A} (a : A) : preserves R (ret a).
Proof. intros s. simpl. reflexivity. Qed.

Lemma preserves_raise {A} e : preserves R (raise (A:=A) e).
Proof. intros s. simpl. reflexivity. Qed.

Lemma preserves_lift_result {A} (r : result A) : preserves R (lift_result r).
Proof. intros s. simpl. reflexivity. Qed.

Lemma preserves_bind {A B} (m : St S A) (k : A → St S B) :
  preserves R m → (∀ a, preserves R (k a)) → preserves R (bind m k).
Proof.
  intros Hm Hk s. unfold bind. specialize (Hm s).
  destruct (m s) as [s' [a|e]]; simpl in *; [|done].
  etrans; [exact Hm | apply Hk].
Qed.

Lemma preserves_for {A} (l : list A) (body : A → St S unit) :
  (∀ x, x ∈ l → preserves R (body x)) → preserves R (for_ l body).
Proof.
  induction l as [|x l IH]; intros Hbody; simpl.
  - apply preserves_ret.
  - apply preserves_bind.
    + apply Hbody. left.
    + intros _. apply IH. intros y Hy. apply Hbody. by right.
Qed.

Lemma preserves_any {A} (l : list A) (test : A → St S bool) :
  (∀ x, x ∈ l → preserves R (test x)) → preserves R (any_ l test).
Proof.
  induction l as [|x l IH]; intros Htest; simpl.
  - apply preserves_ret.
  - apply preserves_bind.
    + apply Htest. left.
    + intros [|]; [apply preserves_ret|]. apply IH. intros y Hy. apply Htest. by right.
Qed.

Lemma preserves_all {A} (l : list A) (test : A → St S bool) :
  (∀ x, x ∈ l → preserves R (test x)) → preserves R (all_ l test).
Proof.
  induction l as [|x l IH]; intros Htest; simpl.
  - apply preserves_ret.
  - apply preserves_bind.
    + apply Htest. left.
    + intros [|]; [|apply preserves_ret]. apply IH. intros y Hy. apply Htest. by right.
Qed.

End Preserves.

Lemma preserves_group_at (R : Store → Store → Prop) `{!Reflexive R} group :
  preserves R (group_at group).
Proof. intros s. unfold group_at. destruct (groups s !! group); simpl; reflexivity. Qed.

Lemma preserves_this (R : Store → Store → Prop) `{!Reflexive R} self :
  preserves R (this self).
Proof. intros s. unfold this. destruct (tunable_groups s !! self); simpl; reflexivity. Qed.

(** ** Growth of a [TunableGroups] object *)

Lemma extends_refl src o : extends src o o.
Proof.
  split; [exists []; by rewrite app_nil_r|].
  exists []. rewrite app_nil_r. split; [done|]. intros k l H. by apply elem_of_nil in H.
Qed.

Lemma extends_trans src o1 o2 o3 : extends src o1 o2 → extends src o2 o3 → extends src o1 o3.
Proof.
  intros [[i1 Hi1] (g1 & Hg1 & Hn1)] [[i2 Hi2] (g2 & Hg2 & Hn2)]. split.
  - exists (i1 ++ i2). by rewrite Hi2, Hi1, app_assoc.
  - exists (g1 ++ g2). split; [by rewrite Hg2, Hg1, app_assoc|].
    intros k l [Hin|Hin]%elem_of_app; [by apply Hn1|].
    destruct (Hn2 k l Hin) as [Hsrc Hnone]. split; [done|].
    rewrite Hg1, dict_get_app in Hnone. by destruct (dict_get k (_tunable_groups o1)).
Qed.

Lemma extends_mono src src' o o' : src ⊆ src' → extends src o o' → extends src' o o'.
Proof.
  intros Hsub [Hi (g & Hg & Hn)]. split; [done|]. exists g. split; [done|].
  intros k l Hin. destruct (Hn k l Hin). split; [by apply Hsub | done].
Qed.

Lemma extends_get_group src o o' k l :
  extends src o o' → dict_get k (_tunable_groups o) = Some l →
  dict_get k (_tunable_groups o') = Some l.
Proof. intros [_ (g & -> & _)] H. by rewrite dict_get_app, H. Qed.

Lemma extends_get_index src o o' n l :
  extends src o o' → dict_get n (_index o) = Some l → dict_get n (_index o') = Some l.
Proof. intros [[i ->] _] H. by rewrite dict_get_app, H. Qed.

#[local] Instance grows_preorder src self : PreOrder (grows src self).
Proof.
  split.
  - intros s. repeat split; try done. intros o Ho. exists o. split; [done|apply extends_refl].
  - intros s1 s2 s3 (Hg1 & Hl1 & Ho1 & He1) (Hg2 & Hl2 & Ho2 & He2). repeat split.
    + congruence.
    + congruence.
    + intros r Hr. rewrite Ho2, Ho1; done.
    + intros o Ho. destruct (He1 o Ho) as (o' & Ho' & Hext).
      destruct (He2 o' Ho') as (o'' & Ho'' & Hext'). exists o''. split; [done|].
      by eapply extends_trans.
Qed.

Lemma grows_mono src src' self s s' : src ⊆ src' → grows src self s s' → grows src' self s s'.
Proof.
  intros Hsub (Hg & Hl & Ho & He). repeat split; try done.
  intros o Hs. destruct (He o Hs) as (o' & Ho' & Hext). exists o'. split; [done|].
  by eapply extends_mono.
Qed.

Lemma add_group_grows self group : preserves (grows [group] self) (_add_group self group).
Proof.
  intros s.
  destruct (groups s !! group) as [g|] eqn:Hg; cycle 1.
  { unfold _add_group. rewrite bind_run, (group_at_stale _ _ Hg). simpl. reflexivity. }
  destruct (tunable_groups s !! self) as [o|] eqn:Ho; cycle 1.
  { unfold _add_group.
    rewrite bind_run, (group_at_ok _ _ _ Hg), bind_run, (this_stale _ _ Ho). simpl. reflexivity. }
  rewrite (add_group_run s self group g o Hg Ho).
  destruct (dict_contains (name g) (_tunable_groups o)) eqn:E; simpl; [reflexivity|].
  repeat split; simpl.
  - by rewrite length_insert.
  - intros r Hr. by rewrite list_lookup_insert_ne.
  - intros o0 Ho0. assert (o0 = o) as -> by congruence.
    eexists. split; [apply list_lookup_insert_eq; by eapply lookup_lt_Some|].
    apply dict_contains_false in E. split; simpl.
    + destruct (index_tunables_spec group (get_tunables g) (_index o))
        as (pre & rest & _ & _ & _ & -> & _). eauto.
    + rewrite (dict_set_absent _ _ _ E). eexists. split; [done|].
      intros k l [= -> ->]%list_elem_of_singleton. split; [left | done].
Qed.

Lemma merge_grows self tunables (s : Store) other :
  tunable_groups s !! tunables = Some other →
  grows (dict_values (_tunable_groups other)) self s (merge self tunables s).1.
Proof.
  intros Hother. unfold merge. rewrite bind_run, (this_ok _ _ _ Hother).
  apply (preserves_bind (grows _ self)); [|intros; apply preserves_ret; apply _].
  apply preserves_for; [apply _|]. intros group Hgroup.
  apply preserves_bind; [apply _ | apply preserves_group_at; apply _ |]. intros g.
  apply preserves_bind; [apply _ | apply preserves_this; apply _ |]. intros o.
  destruct (dict_get (name g) (_tunable_groups o)) as [mine|].
  - apply preserves_bind; [apply _ | apply preserves_group_at; apply _ |]. intros m.
    destruct (equals_defaults m g); [apply preserves_ret | apply preserves_raise]; apply _.
  - intros s0. eapply grows_mono; [|apply add_group_grows].
    intros l ->%list_elem_of_singleton. done.
Qed.

Ltac run :=
  repeat first
    [ rewrite bind_run
    | erewrite this_ok by eassumption
    | erewrite group_at_ok by eassumption
    | progress simpl ].

(** ** Reading through a [TunableGroups] *)

Lemma group_named_ok (s : Store) self o name l :
  tunable_groups s !! self = Some o → dict_get name (_tunable_groups o) = Some l →
  group_named self name s = (s, Ok l).
Proof. intros Ho Hl. unfold group_named. run. by rewrite Hl. Qed.

Lemma getitem_run (s : Store) self o x :
  tunable_groups s !! self = Some o →
  __getitem__ self x s =
    (s, match dict_get x (_index o) with
        | None => Raise (KeyError x)
        | Some l => match groups s !! l with
                    | None => Raise StaleReference
                    | Some g => CovariantTunableGroup.__getitem__ x g
                    end
        end).
Proof.
  intros Ho. unfold __getitem__. run. destruct (dict_get x (_index o)) as [l|]; [|done].
  rewrite bind_run. unfold group_at. destruct (groups s !! l); done.
Qed.

Lemma get_param_values_one (s : Store) self o n l g :
  tunable_groups s !! self = Some o → dict_get n (_tunable_groups o) = Some l →
  groups s !! l = Some g →
  get_param_values self (Some [n]) None s =
    (s, Ok (fold_left (fun d kv => dict_set kv.1 kv.2 d) (get_tunable_values_dict g) [])).
Proof.
  intros Ho Hl Hg. unfold get_param_values, get_covariant_group_names. run.
  rewrite (group_named_ok _ _ _ _ _ Ho Hl). run. done.
Qed.

Lemma is_updated_one (s : Store) self o n l g :
  tunable_groups s !! self = Some o → dict_get n (_tunable_groups o) = Some l →
  groups s !! l = Some g →
  TunableGroups.is_updated self (Some [n]) s = (s, Ok (CovariantTunableGroup.is_updated g)).
Proof.
  intros Ho Hl Hg. unfold TunableGroups.is_updated, get_covariant_group_names. run.
  rewrite (group_named_ok _ _ _ _ _ Ho Hl). run.
  by destruct (CovariantTunableGroup.is_updated g).
Qed.

(** ** Claims on [merge] and [_add_group] *)

(** C1. When the receiver [r] and the argument [o] of [merge] both have a
    group named [n], with equal names, domains and defaults of the
    members but different current values, [r.merge(o)] writes no group
    object at all: whatever its outcome, the receiver still files its own
    group under [n], that group has the values and the flag it had, what
    is read through [r] for that group and for every tunable of [r] is
    what was read before, the receiver's entries are kept in place with
    only groups of [o] under names new to [r] added after them, and the
    value returned is [r]. *)
Theorem merge_keeps_receiver_state (s : Store) (r o : tgref) (ro oo : TunableGroupsObject)
    (n : string) (mine theirs : gref) (g g' : CovariantTunableGroup.t) :
  tunable_groups s !! r = Some ro →
  tunable_groups s !! o = Some oo →
  dict_get n (_tunable_groups ro) = Some mine →
  dict_get n (_tunable_groups oo) = Some theirs →
  groups s !! mine = Some g →
  groups s !! theirs = Some g' →
  equals_defaults g g' = true →
  get_tunable_values_dict g ≠ get_tunable_values_dict g' →
  groups (merge r o s).1 = groups s
  ∧ groups (merge r o s).1 !! mine = Some g
  ∧ (∃ ro', tunable_groups (merge r o s).1 !! r = Some ro'
            ∧ dict_get n (_tunable_groups ro') = Some mine
            ∧ extends (dict_values (_tunable_groups oo)) ro ro')
  ∧ (get_param_values r (Some [n]) None (merge r o s).1).2
    = (get_param_values r (Some [n]) None s).2
  ∧ (TunableGroups.is_updated r (Some [n]) (merge r o s).1).2
    = (TunableGroups.is_updated r (Some [n]) s).2
  ∧ (∀ x, dict_contains x (_index ro) = true →
       (__getitem__ r x (merge r o s).1).2 = (__getitem__ r x s).2)
  ∧ (∀ a, (merge r o s).2 = Ok a → a = r).
Proof.
  intros Hr Ho Hmine Htheirs Hg Hg' _ _.
  destruct (merge_grows r o s oo Ho) as (Hgroups & _ & _ & Hext).
  destruct (Hext ro Hr) as (ro' & Hr' & Hro').
  pose proof (extends_get_group _ _ _ _ _ Hro' Hmine) as Hmine'.
  assert (groups (merge r o s).1 !! mine = Some g) as Hg1 by (by rewrite Hgroups).
  split; [done|]. split; [done|]. split; [by exists ro'|].
  split; [|split; [|split]].
  - rewrite (get_param_values_one _ _ _ _ _ _ Hr' Hmine' Hg1).
    by rewrite (get_param_values_one _ _ _ _ _ _ Hr Hmine Hg).
  - rewrite (is_updated_one _ _ _ _ _ _ Hr' Hmine' Hg1).
    by rewrite (is_updated_one _ _ _ _ _ _ Hr Hmine Hg).
  - intros x Hx. rewrite (getitem_run _ _ _ x Hr'), (getitem_run _ _ _ x Hr). simpl.
    unfold dict_contains in Hx. destruct (dict_get x (_index ro)) as [l|] eqn:Hl; [|done].
    rewrite (extends_get_index _ _ _ _ _ Hro' Hl). by rewrite Hgroups.
  - intros a. unfold merge. rewrite bind_run, (this_ok _ _ _ Ho), bind_run.
    destruct (for_ _ _ s) as [s1 [[]|e]]; simpl; [|done]. by intros [= <-].
Qed.

Lemma merge_keeps_receiver_state_witness :
  groups (merge 0 1 two_collections).1 = groups two_collections
  ∧ (TunableGroups.is_updated 0 (Some ["boot"]) (merge 0 1 two_collections).1).2
    = (TunableGroups.is_updated 0 (Some ["boot"]) two_collections).2
  ∧ (get_param_values 0 (Some ["boot"]) None (merge 0 1 two_collections).1).2
    = Ok [("rootfs", Tunable.VStr "xfs")].
Proof.
  destruct (merge_keeps_receiver_state two_collections 0 1
              (mk_tunable_groups
                 [("vmSize", 0); ("rootfs", 1); ("kernel_sched_migration_cost_ns", 2);
                  ("kernel_sched_latency_ns", 2)]
                 [("provision", 0); ("boot", 1); ("kernel", 2)])
              (mk_tunable_groups [("rootfs", 3); ("tcp_window", 4)] [("boot", 3); ("net", 4)])
              "boot" 1 3
              (CovariantTunableGroup.__init__ "boot" boot_config)
              (CovariantTunableGroup.mk "boot" 300
                 [("rootfs", Tunable.mk "rootfs" (Tunable.DCategorical ["xfs"; "ext4"; "ext2"])
                               (Tunable.VStr "xfs") (Tunable.VStr "ext4"))] true))
    as (H1 & _ & _ & H2 & H3 & _); try reflexivity.
  - vm_compute. discriminate.
  - split; [exact H1|]. split; [exact H3|]. rewrite H2. reflexivity.
Defined.

(** C3, as the code has it.  [_add_group] looks for the name of the group
    before it writes anything, and a name that is taken leaves the
    collection as it was.  It then files the group and only afterwards
    goes through the tunables, looking each name up just before indexing
    it: at the first name already indexed the call fails with the
    duplicate-tunable error, the group is filed and the tunables before
    that one are indexed; entries that were there are not touched. *)
Theorem add_group_checks_as_it_inserts (s : Store) (self : tgref) (group : gref)
    (g : CovariantTunableGroup.t) (o : TunableGroupsObject) :
  groups s !! group = Some g →
  tunable_groups s !! self = Some o →
  (dict_contains (name g) (_tunable_groups o) = true →
     _add_group self group s = (s, Raise (AssertionError (name g))))
  ∧ (dict_contains (name g) (_tunable_groups o) = false →
     ∃ pre rest,
       get_tunables g = pre ++ rest
       ∧ NoDup (map Tunable.name pre)
       ∧ (∀ x, x ∈ pre → Tunable.name x ∉ dict_keys (_index o))
       ∧ _add_group self group s =
           (mk_store (groups s)
              (<[self := mk_tunable_groups
                           (_index o ++ map (fun x => (Tunable.name x, group)) pre)
                           (_tunable_groups o ++ [(name g, group)])]> (tunable_groups s)),
            match rest with
            | [] => Ok tt
            | x :: _ => Raise (ValueError (DuplicateTunable (Tunable.name x) (name g)))
            end)
       ∧ match rest with
         | [] => True
         | x :: _ => Tunable.name x ∈ dict_keys (_index o)
                     ∨ Tunable.name x ∈ map Tunable.name pre
         end).
Proof.
  intros Hg Ho. rewrite (add_group_run s self group g o Hg Ho). split.
  - by intros ->.
  - intros E. rewrite E. apply dict_contains_false in E.
    destruct (index_tunables_spec group (get_tunables g) (_index o))
      as (pre & rest & Hts & Hnd & Hfresh & Hidx & Hrest).
    exists pre, rest. repeat split; try done.
    + rewrite Hidx, (dict_set_absent _ _ _ E). destruct rest as [|x rest].
      * by rewrite Hrest.
      * destruct Hrest as [-> _]. done.
    + destruct rest as [|x rest]; [done|]. by destruct Hrest.
Qed.

Lemma add_group_checks_as_it_inserts_witness :
  _add_group 0 1 fixture_store = (fixture_store, Raise (AssertionError "boot")).
Proof.
  destruct (add_group_checks_as_it_inserts fixture_store 0 1
              (CovariantTunableGroup.__init__ "boot" boot_config)
              (mk_tunable_groups
                 [("vmSize", 0); ("rootfs", 1); ("kernel_sched_migration_cost_ns", 2);
                  ("kernel_sched_latency_ns", 2)]
                 [("provision", 0); ("boot", 1); ("kernel", 2)]))
    as [H _]; [reflexivity | reflexivity |].
  apply H. reflexivity.
Defined.

(** C3 as stated fails: adding a group whose second tunable is already
    indexed raises the duplicate-tunable error and yet leaves the group
    filed and its first tunable indexed. *)
Lemma add_group_is_not_atomic :
  (_add_group 0 3 fixture_and_stray).2 = Raise (ValueError (DuplicateTunable "rootfs" "memory"))
  ∧ tunable_groups (_add_group 0 3 fixture_and_stray).1
    = [mk_tunable_groups
         [("vmSize", 0); ("rootfs", 1); ("kernel_sched_migration_cost_ns", 2);
          ("kernel_sched_latency_ns", 2); ("swappiness", 3)]
         [("provision", 0); ("boot", 1); ("kernel", 2); ("memory", 3)]]
  ∧ tunable_groups (_add_group 0 3 fixture_and_stray).1 ≠ tunable_groups fixture_and_stray.
Proof. split; [reflexivity|]. split; [reflexivity|]. vm_compute. discriminate. Qed.

Lemma merge_loop_fails (s0 : Store) (r : tgref) n mine theirs g g' :
  groups s0 !! mine = Some g → groups s0 !! theirs = Some g' →
  name g' = n → equals_defaults g g' = false →
  ∀ (l : list gref) (s : Store) cur,
    groups s = groups s0 →
    tunable_groups s !! r = Some cur →
    (∀ k l', (k, l') ∈ _tunable_groups cur → is_Some (groups s0 !! l')) →
    dict_get n (_tunable_groups cur) = Some mine →
    (∀ l', l' ∈ l → is_Some (groups s0 !! l')) →
    theirs ∈ l →
    ∃ why,
      (for_ l (fun group =>
         let* g := group_at group in
         let* o := this r in
         match dict_get (name g) (_tunable_groups o) with
         | None => _add_group r group
         | Some mine =>
             let* m := group_at mine in
             if equals_defaults m g then ret tt
             else raise (ValueError (OverlappingGroup (name g)))
         end) s).2 = Raise (ValueError why).
Proof.
  intros Hg Hg' Hname Hdiff. induction l as [|x l IH]; intros s cur Hgs Hcur Hvalid Hmine Hl Hin.
  { by apply elem_of_nil in Hin. }
  destruct (Hl x) as [gx Hgx]; [left|].
  assert (groups s !! x = Some gx) as Hgx' by (by rewrite Hgs).
  simpl. run. destruct (dict_get (name gx) (_tunable_groups cur)) as [m|] eqn:Hm.
  - destruct (Hvalid (name gx) m) as [gm Hgm]; [by apply dict_get_elem|].
    assert (groups s !! m = Some gm) as Hgm' by (by rewrite Hgs).
    run. destruct (equals_defaults gm gx) eqn:Heq; simpl; [|eauto].
    apply (IH s cur); try done.
    + intros l' Hl'. apply Hl. by right.
    + apply elem_of_cons in Hin as [->|Hin]; [|done].
      exfalso. assert (gx = g') as -> by congruence.
      rewrite Hname, Hmine in Hm. congruence.
  - rewrite (add_group_run s r x gx cur Hgx' Hcur).
    rewrite (proj2 (dict_contains_false _ _) Hm).
    destruct (index_tunables x (get_tunables gx) (_index cur)) as [idx [bad|]]; simpl; [eauto|].
    eapply IH; simpl.
    + done.
    + apply list_lookup_insert_eq. by eapply lookup_lt_Some.
    + simpl. rewrite (dict_set_absent _ _ _ Hm).
      intros k l' [Hold|[= -> ->]%list_elem_of_singleton]%elem_of_app; [by eapply Hvalid|].
      by exists gx.
    + simpl. by rewrite (dict_set_absent _ _ _ Hm), dict_get_app, Hmine.
    + intros l' Hl'. apply Hl. by right.
    + apply elem_of_cons in Hin as [->|Hin]; [|done].
      exfalso. assert (gx = g') as -> by congruence.
      rewrite Hname, Hmine in Hm. congruence.
Qed.

Lemma dict_get_value {V} k (v : V) d : dict_get k d = Some v → v ∈ dict_values d.
Proof.
  intros H%dict_get_elem. unfold dict_values. rewrite map_fmap.
  by apply (list_elem_of_fmap_2 snd _ (k, v)).
Qed.

Lemma dict_values_elem {V} (v : V) d : v ∈ dict_values d → ∃ k, (k, v) ∈ d.
Proof.
  unfold dict_values. rewrite map_fmap. intros ([k v'] & -> & Hin)%list_elem_of_fmap.
  by exists k.
Qed.

(** C2. When the receiver [r] and the argument [o] of [merge] both have a
    group named [n] and [equals_defaults] is false of the two groups,
    [r.merge(o)] does not complete: it raises [ValueError], the error
    class with which the code reports incompatible groups.  The error
    names the overlapping group [n] when that group is the first one of
    [o]; a group of [o] that comes earlier and cannot be taken is
    reported first, by the same class. *)
Theorem merge_incompatible_raises (s : Store) (r o : tgref) (ro oo : TunableGroupsObject)
    (n : string) (mine theirs : gref) (g g' : CovariantTunableGroup.t) :
  tunable_groups s !! r = Some ro →
  tunable_groups s !! o = Some oo →
  allocated s ro →
  allocated s oo →
  dict_get n (_tunable_groups ro) = Some mine →
  dict_get n (_tunable_groups oo) = Some theirs →
  groups s !! mine = Some g →
  groups s !! theirs = Some g' →
  name g' = n →
  equals_defaults g g' = false →
  (∃ why, (merge r o s).2 = Raise (ValueError why))
  ∧ (∀ rest, _tunable_groups oo = (n, theirs) :: rest →
       (merge r o s).2 = Raise (ValueError (OverlappingGroup n))).
Proof.
  intros Hr Ho Hro Hoo Hmine Htheirs Hg Hg' Hname Hdiff. split.
  - unfold merge. rewrite bind_run, (this_ok _ _ _ Ho), bind_run.
    destruct (merge_loop_fails s r n mine theirs g g' Hg Hg' Hname Hdiff
                (dict_values (_tunable_groups oo)) s ro) as [why Hwhy]; try done.
    + intros k l' Hin. destruct (alloc_groups _ _ Hro k l' Hin) as (gl & -> & _). eauto.
    + intros l' [k Hin]%dict_values_elem.
      destruct (alloc_groups _ _ Hoo k l' Hin) as (gl & -> & _). eauto.
    + by eapply dict_get_value.
    + destruct (for_ _ _ s) as [s1 [[]|e]]; simpl in *; [done|]. exists why. congruence.
  - intros rest Hfirst. unfold merge. rewrite bind_run, (this_ok _ _ _ Ho), Hfirst. simpl.
    run. rewrite Hname, Hmine. run. by rewrite Hdiff.
Qed.

(** ** The invariants as tests *)

Lemma distinct_sound l : distinct l = true → NoDup l.
Proof. unfold distinct. apply bool_decide_eq_true_1. Qed.

Lemma forallb_elem {A} (f : A → bool) l x : forallb f l = true → x ∈ l → f x = true.
Proof. intros H Hin. apply list_elem_of_In in Hin. by apply (proj1 (forallb_forall f l) H). Qed.

Lemma existsb_elem {A} (f : A → bool) l : existsb f l = true → ∃ x, x ∈ l ∧ f x = true.
Proof. intros (x & Hin & Hx)%existsb_exists. exists x. by rewrite list_elem_of_In. Qed.

Lemma allocatedb_sound s o : allocatedb s o = true → allocated s o.
Proof.
  unfold allocatedb. intros [[[H1 H2]%andb_prop H3]%andb_prop H4]%andb_prop.
  split.
  - by apply distinct_sound.
  - by apply distinct_sound.
  - intros k l Hin. pose proof (forallb_elem _ _ _ H3 Hin) as H. simpl in H.
    unfold allocated_group in H. destruct (groups s !! l) as [g|]; [|done].
    exists g. split; [done | by apply distinct_sound].
  - intros k l Hin. pose proof (forallb_elem _ _ _ H4 Hin) as H. simpl in H.
    unfold allocated_group in H. destruct (groups s !! l) as [g|]; [|done].
    exists g. split; [done | by apply distinct_sound].
Qed.

Lemma consistentb_sound s o : consistentb s o = true → consistent s o.
Proof.
  unfold consistentb.
  intros [[[[H1 H2]%andb_prop H3]%andb_prop H4]%andb_prop H5]%andb_prop.
  apply distinct_sound in H1, H2. split; try done.
  - intros k l Hin. pose proof (forallb_elem _ _ _ H3 Hin) as H. unfold named_group in H.
    simpl in H. destruct (groups s !! l) as [g|]; [|done].
    apply andb_prop in H as [Hn Hd]. exists g. split; [done|].
    split; [by apply String.eqb_eq | by apply distinct_sound].
  - intros n l Hin. pose proof (forallb_elem _ _ _ H4 Hin) as H. unfold ownsb in H.
    apply existsb_elem in H as ([k l'] & Hkl & H). simpl in H.
    apply andb_prop in H as [->%Nat.eqb_eq H].
    destruct (groups s !! l) as [g|] eqn:Hg; [|done].
    apply existsb_elem in H as (n' & Hn' & ->%String.eqb_eq).
    exists k, g. done.
  - intros n l (k & g & Hin & Hg & Hn).
    pose proof (forallb_elem _ _ _ H5 Hin) as H. unfold indexed_group in H. simpl in H.
    rewrite Hg in H. pose proof (forallb_elem _ _ _ H Hn) as Hidx. simpl in Hidx.
    destruct (dict_get n (_index o)) as [l'|] eqn:Hl'; [|done].
    apply Nat.eqb_eq in Hidx as ->. by apply dict_get_elem.
Qed.

Lemma merge_incompatible_raises_witness :
  (merge 0 1 clashing_collections).2 = Raise (ValueError (OverlappingGroup "boot")).
Proof.
  refine (proj2 (merge_incompatible_raises clashing_collections 0 1
              (mk_tunable_groups
                 [("vmSize", 0); ("rootfs", 1); ("kernel_sched_migration_cost_ns", 2);
                  ("kernel_sched_latency_ns", 2)]
                 [("provision", 0); ("boot", 1); ("kernel", 2)])
              (mk_tunable_groups [("rootfs", 3)] [("boot", 3)])
              "boot" 1 3
              (CovariantTunableGroup.__init__ "boot" boot_config)
              (CovariantTunableGroup.__init__ "boot"
                 (CovariantTunableGroup.mk_group_config 300
                    [("rootfs", categorical ["btrfs"; "zfs"] "btrfs")]))
              _ _ _ _ _ _ _ _ _ _) [] _);
    try reflexivity; apply allocatedb_sound; vm_compute; reflexivity.
Defined.

(** ** Loops over the groups of a collection *)

Lemma put_group_alter (s : Store) l g f :
  groups s !! l = Some g →
  put_group l (f g) s = (mk_store (alter f l (groups s)) (tunable_groups s), Ok tt).
Proof.
  intros Hg. unfold put_group. do 2 f_equal. apply list_eq. intros j.
  destruct (decide (l = j)) as [<-|Hne].
  - rewrite list_lookup_insert_eq, list_lookup_alter_eq, Hg; [done|]. by eapply lookup_lt_Some.
  - by rewrite list_lookup_insert_ne, list_lookup_alter_ne.
Qed.

Lemma length_update_all f ls : ∀ gs, length (update_all f ls gs) = length gs.
Proof.
  induction ls as [|l ls IH]; intros gs; simpl; [done|].
  unfold update_all in *. simpl. by rewrite IH, length_alter.
Qed.

Lemma update_all_lookup f ls l :
  (∀ g, f (f g) = f g) →
  ∀ gs, update_all f ls gs !! l = if decide (l ∈ ls) then f <$> gs !! l else gs !! l.
Proof.
  intros Hf. induction ls as [|a ls IH]; intros gs.
  - simpl. destruct (decide (l ∈ [])) as [Hin|]; [by apply elem_of_nil in Hin | done].
  - change (update_all f (a :: ls) gs) with (update_all f ls (alter f a gs)). rewrite IH.
    destruct (decide (a = l)) as [->|Hne].
    + rewrite list_lookup_alter_eq.
      destruct (decide (l ∈ l :: ls)) as [_|Hn]; [|exfalso; apply Hn; left].
      destruct (gs !! l) as [g|]; simpl; [|by destruct (decide (l ∈ ls))].
      rewrite Hf. by destruct (decide (l ∈ ls)).
    + rewrite list_lookup_alter_ne by done.
      destruct (decide (l ∈ ls)) as [Hin|Hn].
      * destruct (decide (l ∈ a :: ls)) as [_|Hn]; [done|]. exfalso. apply Hn. by right.
      * destruct (decide (l ∈ a :: ls)) as [[?|?]%elem_of_cons|_]; done.
Qed.

Lemma update_loop_run f self o : ∀ (d : dict gref) (s : Store),
  tunable_groups s !! self = Some o →
  (∀ k l, (k, l) ∈ d → dict_get k (_tunable_groups o) = Some l ∧ l < length (groups s)) →
  for_ (dict_keys d) (fun name =>
      let* group := group_named self name in
      let* g := group_at group in
      put_group group (f g)) s
  = (mk_store (update_all f (dict_values d) (groups s)) (tunable_groups s), Ok tt).
Proof.
  induction d as [|[k l] d IH]; intros s Hself Hd; simpl.
  - unfold ret. by rewrite store_eta.
  - destruct (Hd k l) as [Hk Hl]; [left|].
    destruct (lookup_lt_is_Some_2 _ _ Hl) as [g Hg].
    rewrite bind_run, bind_run, (group_named_ok _ _ _ _ _ Hself Hk).
    rewrite bind_run, (group_at_ok _ _ _ Hg), (put_group_alter _ _ _ f Hg).
    rewrite IH; simpl; [done | done |].
    intros k' l' Hin. destruct (Hd k' l') as [? ?]; [by right|].
    by rewrite length_alter.
Qed.

Lemma allocated_entries s o k l :
  allocated s o → (k, l) ∈ _tunable_groups o →
  dict_get k (_tunable_groups o) = Some l ∧ l < length (groups s).
Proof.
  intros Ha Hin. split.
  - apply dict_get_nodup; [apply Ha | done].
  - destruct (alloc_groups _ _ Ha k l Hin) as (g & Hg & _). by eapply lookup_lt_Some.
Qed.

Lemma update_groups_run f (s : Store) self o :
  tunable_groups s !! self = Some o → allocated s o →
  for_ (dict_keys (_tunable_groups o)) (fun name =>
      let* group := group_named self name in
      let* g := group_at group in
      put_group group (f g)) s
  = (mk_store (update_all f (dict_values (_tunable_groups o)) (groups s))
       (tunable_groups s), Ok tt).
Proof.
  intros Hself Ha. apply (update_loop_run f self o); [done|].
  intros k l Hin. by apply allocated_entries.
Qed.

Lemma is_updated_loop_run self o : ∀ (d : dict gref) (s : Store),
  tunable_groups s !! self = Some o →
  (∀ k l, (k, l) ∈ d → dict_get k (_tunable_groups o) = Some l ∧ l < length (groups s)) →
  any_ (dict_keys d) (fun name =>
      let* group := group_named self name in
      let* g := group_at group in
      ret (CovariantTunableGroup.is_updated g)) s
  = (s, Ok (existsb (fun kl => dirty s kl.2) d)).
Proof.
  induction d as [|[k l] d IH]; intros s Hself Hd; simpl; [done|].
  destruct (Hd k l) as [Hk Hl]; [left|].
  destruct (lookup_lt_is_Some_2 _ _ Hl) as [g Hg].
  rewrite bind_run, bind_run, (group_named_ok _ _ _ _ _ Hself Hk).
  rewrite bind_run, (group_at_ok _ _ _ Hg). simpl.
  unfold dirty at 1. rewrite Hg.
  destruct (CovariantTunableGroup.is_updated g); simpl; [done|].
  apply IH; [done|]. intros k' l' Hin. apply Hd. by right.
Qed.

Lemma restore_defaults_twice g :
  CovariantTunableGroup.restore_defaults (CovariantTunableGroup.restore_defaults g)
  = CovariantTunableGroup.restore_defaults g.
Proof.
  unfold CovariantTunableGroup.restore_defaults. simpl. f_equal.
  rewrite map_map. apply map_ext. by intros [k x].
Qed.

Lemma reset_is_updated_twice g :
  reset_is_updated (reset_is_updated g) = reset_is_updated g.
Proof. done. Qed.



(** ** [assign] *)

Lemma all_run {S A} (test : A → St S bool) (s : S) : ∀ l,
  (∀ x, x ∈ l → test x s = (s, Ok true)) → all_ l test s = (s, Ok true).
Proof.
  induction l as [|x l IH]; intros H; simpl; [done|].
  rewrite bind_run, (H x) by left. apply IH. intros y Hy. apply H. by right.
Qed.

Lemma value_eqb_refl v : Tunable.value_eqb v v = true.
Proof.
  destruct v; simpl.
  - apply Z.eqb_refl.
  - apply Qeq_bool_refl.
  - apply String.eqb_refl.
Qed.

Lemma restored_is_defaults g :
  CovariantTunableGroup.is_defaults (CovariantTunableGroup.restore_defaults g) = true.
Proof.
  unfold CovariantTunableGroup.is_defaults, get_tunables, dict_values. simpl.
  rewrite map_map. simpl. apply forallb_forall. intros x (kv & <- & _)%in_map_iff.
  apply value_eqb_refl.
Qed.

(** C5. [assign({})] is not a no-op: it returns the collection after
    restoring every group of it to its defaults, so that [is_defaults()]
    is true right after; a mapping that is not empty is applied pair by
    pair, in its order, through [__setitem__]. *)
Theorem assign_empty_restores_defaults (s : Store) (self : tgref) (o : TunableGroupsObject) :
  tunable_groups s !! self = Some o →
  allocated s o →
  (assign self [] s).2 = Ok self
  ∧ (∀ k l, (k, l) ∈ _tunable_groups o →
       groups (assign self [] s).1 !! l
       = CovariantTunableGroup.restore_defaults <$> groups s !! l)
  ∧ is_defaults self (assign self [] s).1 = ((assign self [] s).1, Ok true)
  ∧ (∀ kv rest,
       assign self (kv :: rest) s
       = (let* _ := __setitem__ self kv.1 kv.2 in
          let* _ := for_ rest (fun kv => let* _ := __setitem__ self kv.1 kv.2 in ret tt) in
          ret self) s).
Proof.
  intros Hself Ha.
  assert (assign self [] s
          = (mk_store (update_all CovariantTunableGroup.restore_defaults
                         (dict_values (_tunable_groups o)) (groups s))
               (tunable_groups s), Ok self)) as Hrun.
  { unfold assign, TunableGroups.restore_defaults, get_covariant_group_names. run.
    by rewrite (update_groups_run _ _ _ _ Hself Ha). }
  assert (∀ k l, (k, l) ∈ _tunable_groups o →
            groups (assign self [] s).1 !! l
            = CovariantTunableGroup.restore_defaults <$> groups s !! l) as Hrestored.
  { intros k l Hin. rewrite Hrun. simpl.
    rewrite (update_all_lookup _ _ _ restore_defaults_twice).
    destruct (decide (l ∈ dict_values (_tunable_groups o))) as [_|Hn]; [done|].
    exfalso. apply Hn. destruct (allocated_entries s o k l Ha Hin) as [Hk _].
    by eapply dict_get_value. }
  split; [by rewrite Hrun|]. split; [done|]. split.
  - unfold is_defaults. rewrite bind_run, (this_ok _ _ o) by (by rewrite Hrun).
    apply all_run. intros l [k Hin]%dict_values_elem.
    destruct (alloc_groups _ _ Ha k l Hin) as (g & Hg & _).
    rewrite bind_run, (group_at_ok _ _ (CovariantTunableGroup.restore_defaults g)).
    + simpl. by rewrite restored_is_defaults.
    + by rewrite (Hrestored k l Hin), Hg.
  - intros kv rest. unfold assign. simpl. rewrite !bind_run.
    destruct (__setitem__ self kv.1 kv.2 s) as [s1 [v|e]]; simpl; [|done].
    rewrite !bind_run. by destruct (for_ rest _ s1) as [s2 [[]|e]].
Qed.

Lemma assign_empty_restores_defaults_witness :
  is_defaults 0 fixture_changed = (fixture_changed, Ok false)
  ∧ (assign 0 [] fixture_changed).2 = Ok 0
  ∧ is_defaults 0 (assign 0 [] fixture_changed).1 = ((assign 0 [] fixture_changed).1, Ok true).
Proof.
  destruct (assign_empty_restores_defaults fixture_changed 0 fixture_object)
    as (Hself & _ & Hdefaults & _).
  - reflexivity.
  - apply allocatedb_sound. vm_compute. reflexivity.
  - split; [reflexivity|]. split; [exact Hself | exact Hdefaults].
Defined.

(** ** The class invariant *)

Lemma dict_keys_elem {V} k (v : V) d : (k, v) ∈ d → k ∈ dict_keys d.
Proof. intros H. unfold dict_keys. rewrite map_fmap. by apply (list_elem_of_fmap_2 fst _ (k, v)). Qed.

Lemma owns_mono s s' o o' n l :
  (∀ k, (k, l) ∈ _tunable_groups o → (k, l) ∈ _tunable_groups o') →
  (∀ g, groups s !! l = Some g → groups s' !! l = Some g) →
  owns s o n l → owns s' o' n l.
Proof. intros HG Hs (k & g & Hin & Hg & Hn). exists k, g. auto. Qed.

(** In a consistent collection a tunable has one owner, the group that
    the index gives for it. *)
Lemma consistent_owner s o n l :
  consistent s o → (owns s o n l ↔ dict_get n (_index o) = Some l).
Proof.
  intros Hc. split.
  - intros Ho. apply dict_get_nodup; [apply Hc | by apply (index_complete _ _ Hc)].
  - intros Hl. apply (index_sound _ _ Hc). by apply dict_get_elem.
Qed.

Lemma consistent_store_ext s s' o :
  consistent s o →
  (∀ l, l < length (groups s) → groups s' !! l = groups s !! l) →
  consistent s' o.
Proof.
  intros Hc Hext.
  assert (∀ k l, (k, l) ∈ _tunable_groups o → groups s' !! l = groups s !! l) as Hsame.
  { intros k l Hin. destruct (groups_named _ _ Hc k l Hin) as (g & Hg & _).
    apply Hext. by eapply lookup_lt_Some. }
  split.
  - apply Hc.
  - apply Hc.
  - intros k l Hin. rewrite (Hsame k l Hin). by apply (groups_named _ _ Hc).
  - intros n l Hin. destruct (index_sound _ _ Hc n l Hin) as (k & g & Hk & Hg & Hn).
    exists k, g. by rewrite (Hsame k l Hk).
  - intros n l (k & g & Hk & Hg & Hn). apply (index_complete _ _ Hc).
    exists k, g. by rewrite <- (Hsame k l Hk).
Qed.

Lemma consistent_empty s : consistent s (mk_tunable_groups [] []).
Proof.
  split; simpl.
  - constructor.
  - constructor.
  - intros k l H. by apply elem_of_nil in H.
  - intros k l H. by apply elem_of_nil in H.
  - intros n l (k & g & H & _). by apply elem_of_nil in H.
Qed.

Lemma add_group_ok_run (s s' : Store) self group g o :
  groups s !! group = Some g → tunable_groups s !! self = Some o →
  _add_group self group s = (s', Ok tt) →
  dict_get (name g) (_tunable_groups o) = None
  ∧ NoDup (tunable_names g)
  ∧ (∀ n, n ∈ tunable_names g → n ∉ dict_keys (_index o))
  ∧ s' = mk_store (groups s)
           (<[self := mk_tunable_groups
                        (_index o ++ map (fun x => (Tunable.name x, group)) (get_tunables g))
                        (_tunable_groups o ++ [(name g, group)])]> (tunable_groups s)).
Proof.
  intros Hg Ho. rewrite (add_group_run s self group g o Hg Ho).
  destruct (dict_contains (name g) (_tunable_groups o)) eqn:E; [done|].
  apply dict_contains_false in E.
  destruct (index_tunables group (get_tunables g) (_index o)) as [idx bad] eqn:Hidx.
  simpl. destruct bad as [x|]; [done|]. intros [= <-].
  destruct (index_tunables_ok group (get_tunables g) (_index o)) as (Hnd & Hfresh & Heq).
  { by rewrite Hidx. }
  rewrite Hidx in Heq. simpl in Heq. subst idx.
  split; [done|]. split; [done|]. split.
  - unfold tunable_names. rewrite map_fmap. intros n (x & -> & Hx)%list_elem_of_fmap.
    by apply Hfresh.
  - by rewrite (dict_set_absent _ _ _ E).
Qed.

Lemma add_group_consistent (s s' : Store) self group o :
  tunable_groups s !! self = Some o →
  consistent s o →
  _add_group self group s = (s', Ok tt) →
  ∃ g, groups s !! group = Some g
    ∧ groups s' = groups s
    ∧ tunable_groups s' =
        <[self := mk_tunable_groups
                    (_index o ++ map (fun x => (Tunable.name x, group)) (get_tunables g))
                    (_tunable_groups o ++ [(name g, group)])]> (tunable_groups s)
    ∧ consistent s' (mk_tunable_groups
                       (_index o ++ map (fun x => (Tunable.name x, group)) (get_tunables g))
                       (_tunable_groups o ++ [(name g, group)])).
Proof.
  intros Ho Hc Hrun.
  destruct (groups s !! group) as [g|] eqn:Hg; cycle 1.
  { unfold _add_group in Hrun. rewrite bind_run, (group_at_stale _ _ Hg) in Hrun. done. }
  destruct (add_group_ok_run s s' self group g o Hg Ho Hrun) as (Hnew & Hnd & Hfresh & ->).
  exists g. split; [done|]. split; [done|]. split; [done|].
  assert (map fst (map (fun x => (Tunable.name x, group)) (get_tunables g)) = tunable_names g)
    as Hkeys.
  { unfold tunable_names. rewrite map_map. done. }
  split; simpl.
  - rewrite dict_keys_app. simpl. apply NoDup_app. split; [apply Hc|]. split.
    + intros k Hk ->%list_elem_of_singleton. by apply dict_get_None in Hnew.
    + apply NoDup_singleton.
  - rewrite dict_keys_app. unfold dict_keys at 2. rewrite Hkeys.
    apply NoDup_app. split; [apply Hc|]. split; [|done].
    intros n Hn Hn'. by apply (Hfresh n).
  - intros k l [Hin|[= -> ->]%list_elem_of_singleton]%elem_of_app.
    + by apply (groups_named _ _ Hc).
    + by exists g.
  - intros n l [Hin|Hin]%elem_of_app.
    + eapply owns_mono; [| |by apply (index_sound _ _ Hc)]; simpl; [|done].
      intros k Hk. apply elem_of_app. by left.
    + rewrite map_fmap in Hin. apply list_elem_of_fmap in Hin as (x & [= -> ->] & Hx).
      exists (name g), g. split; [apply elem_of_app; right; left|]. split; [done|].
      unfold tunable_names. rewrite map_fmap. by apply list_elem_of_fmap_2.
  - intros n l (k & g0 & [Hin|[= -> ->]%list_elem_of_singleton]%elem_of_app & Hg0 & Hn).
    + apply elem_of_app. left. apply (index_complete _ _ Hc). by exists k, g0.
    + apply elem_of_app. right. simpl in Hg0. assert (g0 = g) as -> by congruence.
      unfold tunable_names in Hn. rewrite map_fmap in Hn.
      apply list_elem_of_fmap in Hn as (x & -> & Hx).
      rewrite map_fmap. by apply (list_elem_of_fmap_2 (fun x => (Tunable.name x, group))).
Qed.


Lemma for_cons_ok {S A} (x : A) l (body : A → St S unit) (s s' : S) :
  for_ (x :: l) body s = (s', Ok tt) →
  ∃ s1, body x s = (s1, Ok tt) ∧ for_ l body s1 = (s', Ok tt).
Proof.
  simpl. rewrite bind_run. destruct (body x s) as [s1 [[]|e]]; [|done]. eauto.
Qed.








(** ** [subgroup] *)

Lemma for_app {S A} (body : A → St S unit) (l1 l2 : list A) (s s1 : S) :
  for_ l1 body s = (s1, Ok tt) → for_ (l1 ++ l2) body s = for_ l2 body s1.
Proof.
  revert s. induction l1 as [|x l1 IH]; intros s Hrun; simpl in *.
  - by injection Hrun as ->.
  - rewrite bind_run in *. destruct (body x s) as [s' [[]|e]]; [|done]. by apply IH.
Qed.

Lemma insert_at_end {A} (l : list A) (x y : A) : <[length l := y]> (l ++ [x]) = l ++ [y].
Proof. induction l as [|a l IH]; simpl; [done|]. by f_equal. Qed.

Lemma first_missing (P : string → Prop) `{∀ n, Decision (P n)} (names : list string) n :
  n ∈ names → ¬ P n →
  ∃ pre n' post, names = pre ++ n' :: post ∧ (∀ m, m ∈ pre → P m) ∧ ¬ P n'.
Proof.
  induction names as [|a names IH]; intros Hin Hn; [by apply elem_of_nil in Hin|].
  destruct (decide (P a)) as [Ha|Ha].
  - apply elem_of_cons in Hin as [->|Hin]; [done|].
    destruct (IH Hin Hn) as (pre & n' & post & -> & Hpre & Hn').
    exists (a :: pre), n', post. split; [done|]. split; [|done].
    intros m [->|Hm]%elem_of_cons; auto.
  - exists [], a, names. split; [done|]. split; [|done].
    intros m Hm. by apply elem_of_nil in Hm.
Qed.

Lemma consistent_same_groups (s s' : Store) o :
  groups s' = groups s → consistent s o → consistent s' o.
Proof. intros Hg Hc. apply (consistent_store_ext s); [done|]. intros l _. by rewrite Hg. Qed.

Lemma subgroup_loop_run t sub o : ∀ (names : list string) (s : Store) cur,
  t ≠ sub →
  tunable_groups s !! t = Some o → consistent s o →
  tunable_groups s !! sub = Some cur → consistent s cur →
  (∀ k l, (k, l) ∈ _tunable_groups cur → (k, l) ∈ _tunable_groups o) →
  NoDup (dict_keys (_tunable_groups cur) ++ names) →
  (∀ n, n ∈ names → n ∈ dict_keys (_tunable_groups o)) →
  ∃ cur',
    for_ names (fun name =>
        let* o := this t in
        match dict_get name (_tunable_groups o) with
        | None => raise (KeyError name)
        | Some group => _add_group sub group
        end) s
    = (mk_store (groups s) (<[sub := cur']> (tunable_groups s)), Ok tt)
    ∧ consistent s cur'
    ∧ (∀ k l, (k, l) ∈ _tunable_groups cur' → (k, l) ∈ _tunable_groups o)
    ∧ dict_keys (_tunable_groups cur') = dict_keys (_tunable_groups cur) ++ names.
Proof.
  induction names as [|n names IH]; intros s cur Hne Ht Hc Hsub Hcur Hincl Hnd Hknown.
  - exists cur. simpl. rewrite app_nil_r. unfold ret. by rewrite put_this_same.
  - destruct (dict_get n (_tunable_groups o)) as [l|] eqn:Hl; cycle 1.
    { apply dict_get_None in Hl. exfalso. apply Hl, Hknown. left. }
    pose proof (dict_get_elem _ _ _ Hl) as Hin.
    destruct (groups_named _ _ Hc n l Hin) as (g & Hg & Hname & Hgnd).
    assert (dict_get n (_tunable_groups cur) = None) as Hfree.
    { apply dict_get_None. intros Hk. apply NoDup_app in Hnd as (_ & Hdis & _).
      apply (Hdis n Hk). left. }
    assert (∀ x, x ∈ get_tunables g → Tunable.name x ∉ dict_keys (_index cur)) as Hfresh.
    { intros x Hx Hk.
      destruct (dict_get (Tunable.name x) (_index cur)) as [l'|] eqn:Hl';
        [|by apply dict_get_None in Hl'].
      apply dict_get_elem in Hl'.
      destruct (index_sound _ _ Hcur _ _ Hl') as (k' & g' & Hk' & Hg' & Hn').
      assert (owns s o (Tunable.name x) l') as Ho1 by (exists k', g'; auto).
      assert (owns s o (Tunable.name x) l) as Ho2.
      { exists n, g. split; [done|]. split; [done|].
        unfold tunable_names. rewrite map_fmap. by apply list_elem_of_fmap_2. }
      apply (consistent_owner _ _ _ _ Hc) in Ho1, Ho2.
      assert (l' = l) as -> by congruence.
      destruct (groups_named _ _ Hcur k' l Hk') as (g0 & Hg0 & Hname0 & _).
      assert (k' = n) as -> by congruence.
      apply dict_get_None in Hfree. apply Hfree. by eapply dict_keys_elem. }
    set (cur1 := mk_tunable_groups
                   (_index cur ++ map (fun x => (Tunable.name x, l)) (get_tunables g))
                   (_tunable_groups cur ++ [(name g, l)])).
    set (s1 := mk_store (groups s) (<[sub := cur1]> (tunable_groups s))).
    assert (_add_group sub l s = (s1, Ok tt)) as Hadd.
    { rewrite (add_group_run s sub l g cur Hg Hsub).
      rewrite Hname, (proj2 (dict_contains_false _ _) Hfree).
      pose proof (index_tunables_succeeds l (get_tunables g) (_index cur) Hgnd Hfresh) as Hok.
      destruct (index_tunables_ok l (get_tunables g) (_index cur) Hok) as (_ & _ & Hidx).
      rewrite Hok, Hidx, (dict_set_absent _ _ _ Hfree). unfold s1, cur1. by rewrite Hname. }
    destruct (add_group_consistent s s1 sub l cur Hsub Hcur Hadd) as (g' & Hg' & _ & _ & Hc1).
    assert (g' = g) as -> by congruence. fold cur1 in Hc1.
    destruct (IH s1 cur1) as (cur' & Hrun & Hc' & Hincl' & Hkeys); try done.
    + unfold s1. simpl. by rewrite list_lookup_insert_ne.
    + by apply (consistent_same_groups s).
    + unfold s1. simpl. apply list_lookup_insert_eq. by eapply lookup_lt_Some.
    + unfold cur1. simpl. rewrite Hname.
      intros k l0 [Hold|[= -> ->]%list_elem_of_singleton]%elem_of_app; auto.
    + unfold cur1. simpl. rewrite dict_keys_app, Hname, <- app_assoc. done.
    + intros m Hm. apply Hknown. by right.
    + exists cur'. split; [|split; [|split]].
      * simpl. rewrite bind_run, bind_run, (this_ok _ _ _ Ht), Hl, Hadd, Hrun.
        unfold s1. simpl. by rewrite list_insert_insert_eq.
      * by apply (consistent_same_groups s1).
      * done.
      * rewrite Hkeys. unfold cur1. simpl. rewrite dict_keys_app, Hname, <- app_assoc. done.
Qed.

Lemma group_setitem_getitem x v g g' :
  CovariantTunableGroup.__setitem__ x v g = Ok g' →
  CovariantTunableGroup.__getitem__ x g' = Ok v.
Proof.
  unfold CovariantTunableGroup.__setitem__, CovariantTunableGroup.__getitem__.
  destruct (dict_get x (_tunables g)) as [tn|]; [|done].
  unfold Tunable.set. destruct (Tunable.in_domain _ _); [|done].
  intros [= <-]. simpl. by rewrite dict_get_set_eq.
Qed.

Lemma setitem_inv (s s' : Store) self x v r o :
  tunable_groups s !! self = Some o →
  __setitem__ self x v s = (s', Ok r) →
  ∃ l g g',
    dict_get x (_index o) = Some l
    ∧ groups s !! l = Some g
    ∧ CovariantTunableGroup.__setitem__ x v g = Ok g'
    ∧ s' = mk_store (<[l := g']> (groups s)) (tunable_groups s)
    ∧ r = v.
Proof.
  intros Ho. unfold __setitem__. rewrite bind_run, (this_ok _ _ _ Ho).
  destruct (dict_get x (_index o)) as [l|] eqn:Hl; [|done].
  rewrite bind_run. unfold group_at at 1.
  destruct (groups s !! l) as [g|] eqn:Hg; [|done].
  rewrite bind_run. unfold lift_result at 1.
  destruct (CovariantTunableGroup.__setitem__ x v g) as [g'|e] eqn:Hset; [|done].
  rewrite bind_run. unfold put_group at 1.
  set (s1 := mk_store (<[l := g']> (groups s)) (tunable_groups s)).
  rewrite (getitem_run s1 self o x Ho), Hl. simpl.
  rewrite list_lookup_insert_eq by (by eapply lookup_lt_Some).
  rewrite (group_setitem_getitem _ _ _ _ Hset). intros [= <- <-].
  exists l, g, g'. done.
Qed.

Lemma subgroup_loop_known t sub o : ∀ (names : list string) (s s' : Store),
  t ≠ sub →
  tunable_groups s !! t = Some o →
  for_ names (fun name =>
      let* o := this t in
      match dict_get name (_tunable_groups o) with
      | None => raise (KeyError name)
      | Some group => _add_group sub group
      end) s = (s', Ok tt) →
  ∀ n, n ∈ names → dict_get n (_tunable_groups o) ≠ None.
Proof.
  induction names as [|m names IH]; intros s s' Hne Ht Hrun n Hn.
  { by apply elem_of_nil in Hn. }
  apply for_cons_ok in Hrun as (s1 & Hbody & Hrest).
  rewrite bind_run, (this_ok _ _ _ Ht) in Hbody.
  destruct (dict_get m (_tunable_groups o)) as [group|] eqn:Hm; [|done].
  apply elem_of_cons in Hn as [->|Hn]; [by rewrite Hm|].
  apply (IH s1 s'); try done.
  destruct (add_group_grows sub group s) as (_ & _ & Hothers & _).
  rewrite Hbody in Hothers. simpl in Hothers. by rewrite Hothers.
Qed.

(** C6. For a consistent collection [t] and a selection [names] of its
    group names, each given once, [t.subgroup(names)] returns a new
    collection whose groups are, name for name, the very objects of [t]:
    no group is created and none is written.  A value set through the
    subgroup is therefore read back through [t] under the same tunable.
    When a requested name is not a group of [t], [subgroup] raises
    [KeyError] for the first such name; if names are repeated in the
    selection it still fails, without returning a collection. *)
Theorem subgroup_shares_groups (s : Store) (t : tgref) (o : TunableGroupsObject)
    (names : list string) :
  tunable_groups s !! t = Some o →
  consistent s o →
  (NoDup names →
   (∀ n, n ∈ names → n ∈ dict_keys (_tunable_groups o)) →
   ∃ so,
     subgroup t names s
     = (mk_store (groups s) (tunable_groups s ++ [so]), Ok (length (tunable_groups s)))
     ∧ dict_keys (_tunable_groups so) = names
     ∧ (∀ k l, dict_get k (_tunable_groups so) = Some l →
               dict_get k (_tunable_groups o) = Some l)
     ∧ (∀ x l, dict_get x (_index so) = Some l → dict_get x (_index o) = Some l)
     ∧ (∀ x v s' r,
          __setitem__ (length (tunable_groups s)) x v
            (mk_store (groups s) (tunable_groups s ++ [so])) = (s', Ok r) →
          r = v ∧ __getitem__ t x s' = (s', Ok v)))
  ∧ (NoDup names →
     ∀ n, n ∈ names → n ∉ dict_keys (_tunable_groups o) →
     ∃ n', n' ∈ names ∧ (n' ∉ dict_keys (_tunable_groups o))
           ∧ (subgroup t names s).2 = Raise (KeyError n'))
  ∧ (∀ n, n ∈ names → n ∉ dict_keys (_tunable_groups o) →
     ∃ e, (subgroup t names s).2 = Raise e).
Proof.
  intros Ht Hc.
  set (sub := length (tunable_groups s)).
  set (s0 := mk_store (groups s) (tunable_groups s ++ [mk_tunable_groups [] []])).
  assert (t ≠ sub) as Hne.
  { apply lookup_lt_Some in Ht. unfold sub. lia. }
  assert (tunable_groups s0 !! t = Some o) as Ht0.
  { unfold s0. simpl. rewrite lookup_app_l; [done | by eapply lookup_lt_Some]. }
  assert (tunable_groups s0 !! sub = Some (mk_tunable_groups [] [])) as Hsub0.
  { unfold s0, sub. simpl. by apply list_lookup_middle. }
  assert (consistent s0 o) as Hc0 by (by apply (consistent_same_groups s)).
  assert (subgroup t names s =
          bind (for_ names (fun name =>
                        let* o := this t in
                        match dict_get name (_tunable_groups o) with
                        | None => raise (KeyError name)
                        | Some group => _add_group sub group
                        end)) (fun _ => ret sub) s0) as Hunfold.
  { unfold subgroup, __init__. simpl. rewrite !bind_run. unfold new_tunable_groups at 1.
    fold s0 sub. rewrite !bind_run. simpl.
    reflexivity. }
  split; [|split].
  - intros Hnd Hknown.
    destruct (subgroup_loop_run t sub o names s0 (mk_tunable_groups [] []))
      as (so & Hrun & Hcso & Hincl & Hkeys); try done.
    { apply consistent_empty. }
    { intros k l H. by apply elem_of_nil in H. }
    exists so.
    assert (consistent (mk_store (groups s) (tunable_groups s ++ [so])) so) as Hcso'.
    { by apply (consistent_same_groups s0). }
    assert (∀ x l, dict_get x (_index so) = Some l → dict_get x (_index o) = Some l) as Hidx.
    { intros x l Hx. apply dict_get_elem in Hx.
      destruct (index_sound _ _ Hcso _ _ Hx) as (k & g & Hk & Hg & Hn).
      apply (consistent_owner s0); [done|]. exists k, g. auto. }
    split; [|split; [|split; [|split]]].
    + rewrite Hunfold, bind_run, Hrun. unfold s0, sub. simpl. by rewrite insert_at_end.
    + done.
    + intros k l Hk. apply dict_get_nodup; [apply Hc|]. by apply Hincl, dict_get_elem.
    + done.
    + intros x v s' r Hset.
      destruct (setitem_inv (mk_store (groups s) (tunable_groups s ++ [so])) s' sub x v r so)
        as (l & g & g' & Hl & Hg & Hg' & -> & ->);
        [simpl; by apply list_lookup_middle | exact Hset |].
      split; [done|]. simpl in Hg.
      rewrite (getitem_run _ t o x); simpl.
      * rewrite (Hidx x l Hl), list_lookup_insert_eq by (by eapply lookup_lt_Some).
        by rewrite (group_setitem_getitem _ _ _ _ Hg').
      * rewrite lookup_app_l; [done | by eapply lookup_lt_Some].
  - intros Hnd n Hn Hmissing.
    destruct (first_missing (fun m => m ∈ dict_keys (_tunable_groups o)) names n Hn Hmissing)
      as (pre & n' & post & -> & Hpre & Hn').
    exists n'. split; [apply elem_of_app; right; left|]. split; [done|].
    destruct (subgroup_loop_run t sub o pre s0 (mk_tunable_groups [] []))
      as (so & Hrun & _); try done.
    { apply consistent_empty. }
    { intros k l H. by apply elem_of_nil in H. }
    { simpl. by apply NoDup_app in Hnd as (? & _). }
    assert (tunable_groups (mk_store (groups s0) (<[sub:=so]> (tunable_groups s0))) !! t
            = Some o) as Ht1.
    { cbn [tunable_groups]. by rewrite list_lookup_insert_ne. }
    rewrite Hunfold, bind_run, (for_app _ _ _ _ _ Hrun). cbn [for_].
    rewrite !bind_run, (this_ok _ _ _ Ht1).
    by rewrite (proj2 (dict_get_None _ _) Hn').
  - intros n Hn Hmissing. rewrite Hunfold, bind_run.
    destruct (for_ names _ s0) as [s1 [[]|e]] eqn:Hloop; simpl; [|eauto].
    exfalso. apply dict_get_None in Hmissing.
    by apply (subgroup_loop_known t sub o names s0 s1 Hne Ht0 Hloop n Hn).
Qed.

Lemma subgroup_shares_groups_witness :
  (subgroup 0 ["boot"] fixture_store).2 = Ok 1
  ∧ (__getitem__ 0 "rootfs"
       (__setitem__ 1 "rootfs" (Tunable.VStr "ext2") (subgroup 0 ["boot"] fixture_store).1).1).2
    = Ok (Tunable.VStr "ext2")
  ∧ (subgroup 0 ["boot"; "disk"] fixture_store).2 = Raise (KeyError "disk").
Proof.
  destruct (subgroup_shares_groups fixture_store 0 fixture_object ["boot"])
    as [Hshare _].
  { reflexivity. }
  { apply consistentb_sound. vm_compute. reflexivity. }
  destruct Hshare as (so & Hrun & _ & _ & _ & Hset).
  { apply (bool_decide_unpack _). vm_compute. exact I. }
  { intros n ->%list_elem_of_singleton. vm_compute. by right; left. }
  assert (so = mk_tunable_groups [("rootfs", 1)] [("boot", 1)]) as ->.
  { assert ((subgroup 0 ["boot"] fixture_store).1
            = mk_store (groups fixture_store) (tunable_groups fixture_store ++ [so])) as H
      by (by rewrite Hrun).
    vm_compute in H. by injection H. }
  split; [by rewrite Hrun|]. split.
  - rewrite Hrun. simpl.
    destruct (Hset "rootfs" (Tunable.VStr "ext2") _ _ eq_refl) as [_ Hget].
    exact (f_equal snd Hget).
  - reflexivity.
Defined.

(** ** [copy] *)

Lemma deepcopy_group_spec gs0 (s : Store) memo group :
  memo_ok gs0 (groups s) memo → group < length gs0 →
  ∃ s' memo' new,
    deepcopy_group group memo s = (s', Ok (memo', new))
    ∧ tunable_groups s' = tunable_groups s
    ∧ memo_ok gs0 (groups s') memo'
    ∧ memo_get group memo' = Some new
    ∧ (∀ old n, memo_get old memo = Some n → memo_get old memo' = Some n).
Proof.
  intros [[copies Hgs] Hmemo] Hlt. unfold deepcopy_group.
  destruct (memo_get group memo) as [new|] eqn:Hget.
  - exists s, memo, new. split; [done|]. split; [done|].
    split; [split; [by exists copies | done]|]. split; done.
  - destruct (lookup_lt_is_Some_2 _ _ Hlt) as [g Hg].
    assert (groups s !! group = Some g) as Hg'.
    { rewrite Hgs, lookup_app_l; done. }
    rewrite bind_run, (group_at_ok _ _ _ Hg'), bind_run. unfold new_group at 1. simpl.
    eexists _, _, _. split; [reflexivity|]. split; [done|]. split; [split|split].
    + exists (copies ++ [g]). simpl. by rewrite Hgs, app_assoc.
    + simpl. intros old new.
      destruct (Nat.eqb_spec old group) as [->|Hne].
      * intros [= <-]. split; [rewrite Hgs, length_app; lia|]. split; [done|].
        by rewrite list_lookup_middle.
      * intros Hold. destruct (Hmemo old new Hold) as (H1 & H2 & H3).
        split; [done|]. split; [done|].
        rewrite lookup_app_l; [done | by eapply lookup_lt_is_Some; rewrite H3; apply lookup_lt_is_Some].
    + simpl. by rewrite Nat.eqb_refl.
    + simpl. intros old n Hold. destruct (Nat.eqb_spec old group) as [->|]; [congruence|done].
Qed.

Lemma deepcopy_dict_spec gs0 : ∀ (d : dict gref) (s : Store) memo,
  memo_ok gs0 (groups s) memo →
  (∀ k l, (k, l) ∈ d → l < length gs0) →
  ∃ s' memo' d',
    deepcopy_dict d memo s = (s', Ok (memo', d'))
    ∧ tunable_groups s' = tunable_groups s
    ∧ memo_ok gs0 (groups s') memo'
    ∧ (∀ old n, memo_get old memo = Some n → memo_get old memo' = Some n)
    ∧ Forall2 (fun kl kl' => kl.1 = kl'.1 ∧ memo_get kl.2 memo' = Some kl'.2) d d'.
Proof.
  induction d as [|[k l] d IH]; intros s memo Hmemo Hd.
  - exists s, memo, []. simpl. split; [done|]. split; [done|]. split; [done|].
    split; [done | constructor].
  - destruct (deepcopy_group_spec gs0 s memo l Hmemo) as (s1 & memo1 & new & Hrun1 & Ht1 & Hm1 & Hnew & Hext1).
    { apply (Hd k). left. }
    destruct (IH s1 memo1 Hm1) as (s2 & memo2 & d' & Hrun2 & Ht2 & Hm2 & Hext2 & Hall).
    { intros k' l' Hin. apply (Hd k'). by right. }
    exists s2, memo2, ((k, new) :: d'). simpl.
    rewrite bind_run, Hrun1, bind_run. simpl. rewrite Hrun2. simpl.
    split; [done|]. split; [congruence|]. split; [done|]. split; [auto|].
    constructor; [|done]. simpl. auto.
Qed.

Section Relocated.
Context (memo : list (gref * gref)).

Lemma relocated_get (d d' : dict gref) k :
  Forall2 (fun kl kl' => kl.1 = kl'.1 ∧ memo_get kl.2 memo = Some kl'.2) d d' →
  dict_get k d' = match dict_get k d with
                  | Some l => memo_get l memo
                  | None => None
                  end.
Proof.
  induction 1 as [|[k1 l1] [k2 l2] d d' [Hk Hl] _ IH]; simpl in *; [done|].
  subst k2. destruct (String.eqb k k1); [by rewrite Hl | done].
Qed.

Lemma relocated_elem (d d' : dict gref) k l' :
  Forall2 (fun kl kl' => kl.1 = kl'.1 ∧ memo_get kl.2 memo = Some kl'.2) d d' →
  (k, l') ∈ d' → ∃ l, (k, l) ∈ d ∧ memo_get l memo = Some l'.
Proof.
  induction 1 as [|[k1 l1] [k2 l2] d d' [Hk Hl] _ IH]; simpl in *.
  - intros H. by apply elem_of_nil in H.
  - intros [[= -> ->]|Hin]%elem_of_cons.
    + exists l1. subst k1. split; [left | done].
    + destruct (IH Hin) as (l & Hl0 & Hm). exists l. split; [by right | done].
Qed.

Lemma relocated_elem_inv (d d' : dict gref) k l :
  Forall2 (fun kl kl' => kl.1 = kl'.1 ∧ memo_get kl.2 memo = Some kl'.2) d d' →
  (k, l) ∈ d → ∃ l', (k, l') ∈ d' ∧ memo_get l memo = Some l'.
Proof.
  induction 1 as [|[k1 l1] [k2 l2] d d' [Hk Hl] _ IH]; simpl in *.
  - intros H. by apply elem_of_nil in H.
  - intros [[= -> ->]|Hin]%elem_of_cons.
    + exists l2. subst k2. split; [left | done].
    + destruct (IH Hin) as (l' & Hl0 & Hm). exists l'. split; [by right | done].
Qed.

Lemma relocated_keys (d d' : dict gref) :
  Forall2 (fun kl kl' => kl.1 = kl'.1 ∧ memo_get kl.2 memo = Some kl'.2) d d' →
  dict_keys d' = dict_keys d.
Proof.
  induction 1 as [|[k1 l1] [k2 l2] d d' [Hk Hl] _ IH]; simpl in *; [done|].
  by rewrite IH, Hk.
Qed.

End Relocated.

Lemma copy_run (s : Store) t o :
  tunable_groups s !! t = Some o →
  allocated s o →
  ∃ co copies memo,
    copy t s = (mk_store (groups s ++ copies) (tunable_groups s ++ [co]),
                Ok (length (tunable_groups s)))
    ∧ memo_ok (groups s) (groups s ++ copies) memo
    ∧ Forall2 (fun kl kl' => kl.1 = kl'.1 ∧ memo_get kl.2 memo = Some kl'.2)
        (_index o) (_index co)
    ∧ Forall2 (fun kl kl' => kl.1 = kl'.1 ∧ memo_get kl.2 memo = Some kl'.2)
        (_tunable_groups o) (_tunable_groups co).
Proof.
  intros Ht Ha.
  destruct (deepcopy_dict_spec (groups s) (_index o) s [])
    as (s1 & memo1 & idx & Hrun1 & Ht1 & Hm1 & _ & Hidx).
  { split; [exists []; by rewrite app_nil_r | done]. }
  { intros k l Hin. destruct (alloc_index _ _ Ha k l Hin) as (g & Hg & _).
    by eapply lookup_lt_Some. }
  destruct (deepcopy_dict_spec (groups s) (_tunable_groups o) s1 memo1 Hm1)
    as (s2 & memo2 & grp & Hrun2 & Ht2 & Hm2 & Hext & Hgrp).
  { intros k l Hin. destruct (alloc_groups _ _ Ha k l Hin) as (g & Hg & _).
    by eapply lookup_lt_Some. }
  destruct Hm2 as [[copies Hcopies] Hm2].
  exists (mk_tunable_groups idx grp), copies, memo2.
  split; [|split; [|split]].
  - unfold copy. rewrite bind_run, (this_ok _ _ _ Ht), bind_run, Hrun1. cbn [fst snd].
    rewrite bind_run, Hrun2. cbn [fst snd]. unfold new_tunable_groups.
    by rewrite Hcopies, Ht2, Ht1.
  - split; [by exists copies|]. by rewrite <- Hcopies.
  - simpl. eapply Forall2_impl; [exact Hidx|]. intros kl kl' [? ?]. auto.
  - done.
Qed.

Lemma forallb_combine_refl {A} (eqb : A → A → bool) (l : list A) :
  (∀ x, eqb x x = true) → forallb (fun p => eqb p.1 p.2) (combine l l) = true.
Proof. intros H. induction l as [|x l IH]; simpl; [done|]. by rewrite H, IH. Qed.

Lemma domain_eqb_refl d : Tunable.domain_eqb d d = true.
Proof.
  destruct d; simpl.
  - rewrite !Z.eqb_refl, Nat.eqb_refl. simpl. apply forallb_combine_refl, Z.eqb_refl.
  - rewrite !Qeq_bool_refl, Nat.eqb_refl. simpl. apply forallb_combine_refl, Qeq_bool_refl.
  - rewrite Nat.eqb_refl. simpl. apply forallb_combine_refl, String.eqb_refl.
Qed.

Lemma tunable_eqb_refl x : Tunable.eqb x x = true.
Proof.
  unfold Tunable.eqb. by rewrite String.eqb_refl, domain_eqb_refl, !value_eqb_refl.
Qed.

Lemma dict_eqb_refl {V} (veq : V → V → bool) (d : dict V) :
  (∀ v, veq v v = true) → NoDup (dict_keys d) → dict_eqb veq d d = true.
Proof.
  intros Hveq Hnd. unfold dict_eqb. rewrite Nat.eqb_refl. simpl.
  apply forallb_forall. intros [k v] Hin%list_elem_of_In. simpl.
  by rewrite (dict_get_nodup _ _ _ Hnd Hin).
Qed.

Lemma group_eq_refl g :
  NoDup (dict_keys (_tunables g)) → CovariantTunableGroup.__eq__ g g = true.
Proof.
  intros Hnd. unfold CovariantTunableGroup.__eq__.
  rewrite String.eqb_refl, Z.eqb_refl, eqb_reflx. simpl.
  apply dict_eqb_refl; [apply tunable_eqb_refl | done].
Qed.

Lemma eq_run (s : Store) a b oa ob :
  tunable_groups s !! a = Some oa →
  tunable_groups s !! b = Some ob →
  length (_tunable_groups oa) = length (_tunable_groups ob) →
  (∀ k l, (k, l) ∈ _tunable_groups oa →
     ∃ l' g, dict_get k (_tunable_groups ob) = Some l'
             ∧ groups s !! l = Some g ∧ groups s !! l' = Some g
             ∧ NoDup (dict_keys (_tunables g))) →
  TunableGroups.__eq__ a b s = (s, Ok true).
Proof.
  intros Ha Hb Hlen Hall. unfold TunableGroups.__eq__.
  rewrite bind_run, (this_ok _ _ _ Ha), bind_run, (this_ok _ _ _ Hb), Hlen, Nat.eqb_refl.
  simpl. apply all_run. intros [k l] Hin. simpl.
  destruct (Hall k l Hin) as (l' & g & -> & Hg & Hg' & Hnd).
  rewrite bind_run, (group_at_ok _ _ _ Hg), bind_run, (group_at_ok _ _ _ Hg').
  simpl. by rewrite group_eq_refl, orb_true_r.
Qed.

(** ** What a mutation writes *)

#[local] Instance writes_only_preorder fp : PreOrder (writes_only fp).
Proof.
  split.
  - intros s. by repeat split.
  - intros s1 s2 s3 (Ht1 & Hl1 & Hg1) (Ht2 & Hl2 & Hg2). repeat split.
    + congruence.
    + congruence.
    + intros l Hl. rewrite Hg2, Hg1; done.
Qed.

#[local] Instance touches_preorder self o : PreOrder (touches self o).
Proof.
  split.
  - intros s _. reflexivity.
  - intros s1 s2 s3 H1 H2 Hs. specialize (H1 Hs). etrans; [exact H1|].
    apply H2. destruct H1 as [-> _]. done.
Qed.

Lemma group_named_run (s : Store) self o name :
  tunable_groups s !! self = Some o →
  group_named self name s
  = (s, match dict_get name (_tunable_groups o) with
        | Some l => Ok l
        | None => Raise (KeyError name)
        end).
Proof.
  intros Ho. unfold group_named. rewrite bind_run, (this_ok _ _ _ Ho).
  by destruct (dict_get name (_tunable_groups o)).
Qed.

Lemma group_at_run (s : Store) l :
  group_at l s = (s, match groups s !! l with
                     | Some g => Ok g
                     | None => Raise StaleReference
                     end).
Proof. unfold group_at. by destruct (groups s !! l). Qed.

Lemma put_group_writes (s : Store) l g fp :
  l ∈ fp → writes_only fp s (put_group l g s).1.
Proof.
  intros Hl. unfold put_group, writes_only. simpl.
  split; [done|]. split; [by rewrite length_insert|].
  intros l0 Hl0. rewrite list_lookup_insert_ne; [done|]. by intros ->.
Qed.

Lemma index_ref o x l : dict_get x (_index o) = Some l → l ∈ refs o.
Proof. intros H. apply elem_of_app. left. by eapply dict_get_value. Qed.

Lemma group_ref o k l : dict_get k (_tunable_groups o) = Some l → l ∈ refs o.
Proof. intros H. apply elem_of_app. right. by eapply dict_get_value. Qed.

Lemma setitem_touches self o x v : preserves (touches self o) (__setitem__ self x v).
Proof.
  intros s Hs. unfold __setitem__. rewrite bind_run, (this_ok _ _ _ Hs).
  destruct (dict_get x (_index o)) as [l|] eqn:Hl; [|reflexivity].
  rewrite bind_run, group_at_run.
  destruct (groups s !! l) as [g|]; [|reflexivity].
  rewrite bind_run. unfold lift_result at 1.
  destruct (CovariantTunableGroup.__setitem__ x v g) as [g'|e]; [|reflexivity].
  rewrite bind_run.
  pose proof (put_group_writes s l g' (refs o) (index_ref _ _ _ Hl)) as Hw.
  destruct (put_group l g' s) as [s1 [[]|e]] eqn:Hput; [|done]. simpl in Hw.
  assert (tunable_groups s1 !! self = Some o) as Hs1.
  { destruct Hw as [-> _]. done. }
  by rewrite (getitem_run s1 self o x Hs1).
Qed.

Lemma names_touches self o : preserves (touches self o) (get_covariant_group_names self).
Proof.
  apply preserves_bind; [apply _ | apply preserves_this; apply _ |].
  intros a. apply preserves_ret. apply _.
Qed.

Lemma update_loop_touches self o f names :
  preserves (touches self o)
    (for_ names (fun name =>
       let* group := group_named self name in
       let* g := group_at group in
       put_group group (f g))).
Proof.
  apply preserves_for; [apply _|]. intros name _ s Hs.
  rewrite bind_run, (group_named_run _ _ _ _ Hs).
  destruct (dict_get name (_tunable_groups o)) as [l|] eqn:Hl; [|reflexivity].
  rewrite bind_run, group_at_run. destruct (groups s !! l) as [g|]; [|reflexivity].
  apply put_group_writes. by eapply group_ref.
Qed.

Lemma restore_defaults_touches self o names :
  preserves (touches self o) (TunableGroups.restore_defaults self names).
Proof.
  apply preserves_bind; [apply _ | apply names_touches |]. intros all_names.
  apply preserves_bind; [apply _ | apply update_loop_touches |].
  intros _. apply preserves_ret. apply _.
Qed.

Lemma reset_touches self o names : preserves (touches self o) (reset self names).
Proof.
  apply preserves_bind; [apply _ | apply names_touches |]. intros all_names.
  apply preserves_bind; [apply _ | apply update_loop_touches |].
  intros _. apply preserves_ret. apply _.
Qed.

Lemma assign_touches self o param_values :
  preserves (touches self o) (assign self param_values).
Proof.
  destruct param_values as [|kv rest]; [apply restore_defaults_touches|].
  unfold assign. apply preserves_bind; [apply _ | | intros _; apply preserves_ret; apply _].
  apply preserves_for; [apply _|]. intros kv' _.
  apply preserves_bind; [apply _ | apply setitem_touches |].
  intros _. apply preserves_ret. apply _.
Qed.

Lemma mutate_touches self o m : preserves (touches self o) (mutate self m).
Proof.
  destruct m; simpl; (apply preserves_bind; [apply _ | | intros _; apply preserves_ret; apply _]).
  - apply setitem_touches.
  - apply assign_touches.
  - apply restore_defaults_touches.
  - apply reset_touches.
Qed.

Lemma mutations_write_own_groups (s : Store) self o ms :
  tunable_groups s !! self = Some o →
  writes_only (refs o) s (for_ ms (mutate self) s).1.
Proof.
  intros Hs. revert s Hs. change (preserves (touches self o) (for_ ms (mutate self))).
  apply preserves_for; [apply _|]. intros m _. apply mutate_touches.
Qed.

(** ** What the reading methods depend on *)

Section Agree.
Context (s1 s2 : Store) (self : tgref) (o : TunableGroupsObject).
Hypothesis Hs1 : tunable_groups s1 !! self = Some o.
Hypothesis Hs2 : tunable_groups s2 !! self = Some o.
Hypothesis Hgroups : ∀ l, l ∈ refs o → groups s2 !! l = groups s1 !! l.

Lemma collect_values_agree : ∀ names into,
  (collect_values self names into s2).2 = (collect_values self names into s1).2.
Proof.
  induction names as [|n names IH]; intros into; simpl; [done|].
  rewrite !bind_run, (group_named_run _ _ _ _ Hs1), (group_named_run _ _ _ _ Hs2).
  destruct (dict_get n (_tunable_groups o)) as [l|] eqn:Hl; [|done].
  rewrite !bind_run, !group_at_run, (Hgroups l (group_ref _ _ _ Hl)).
  destruct (groups s1 !! l) as [g|]; [|done]. apply IH.
Qed.

Lemma is_updated_agree : ∀ names,
  (any_ names (fun name =>
     let* group := group_named self name in
     let* g := group_at group in
     ret (CovariantTunableGroup.is_updated g)) s2).2
  = (any_ names (fun name =>
       let* group := group_named self name in
       let* g := group_at group in
       ret (CovariantTunableGroup.is_updated g)) s1).2.
Proof.
  induction names as [|n names IH]; simpl; [done|].
  rewrite !bind_run, (group_named_run _ _ _ _ Hs1), (group_named_run _ _ _ _ Hs2).
  destruct (dict_get n (_tunable_groups o)) as [l|] eqn:Hl; [|done].
  rewrite !bind_run, !group_at_run, (Hgroups l (group_ref _ _ _ Hl)).
  destruct (groups s1 !! l) as [g|]; [|done]. simpl.
  destruct (CovariantTunableGroup.is_updated g); [done | apply IH].
Qed.

Lemma is_defaults_agree : ∀ ls,
  (∀ l, l ∈ ls → l ∈ refs o) →
  (all_ ls (fun group =>
     let* g := group_at group in ret (CovariantTunableGroup.is_defaults g)) s2).2
  = (all_ ls (fun group =>
       let* g := group_at group in ret (CovariantTunableGroup.is_defaults g)) s1).2.
Proof.
  induction ls as [|l ls IH]; intros Hls; simpl; [done|].
  rewrite !bind_run, !group_at_run, (Hgroups l) by (apply Hls; left).
  destruct (groups s1 !! l) as [g|]; [|done]. simpl.
  destruct (CovariantTunableGroup.is_defaults g); [|done].
  apply IH. intros l' Hl'. apply Hls. by right.
Qed.

Lemma observations_agree : same_observations self s1 s2.
Proof.
  split; [|split; [|split]].
  - unfold get_param_values, get_covariant_group_names.
    rewrite !bind_run, (this_ok _ _ _ Hs1), (this_ok _ _ _ Hs2). simpl.
    apply collect_values_agree.
  - unfold TunableGroups.is_updated, get_covariant_group_names.
    rewrite !bind_run, (this_ok _ _ _ Hs1), (this_ok _ _ _ Hs2). simpl.
    apply is_updated_agree.
  - unfold is_defaults. rewrite !bind_run, (this_ok _ _ _ Hs1), (this_ok _ _ _ Hs2).
    apply is_defaults_agree. intros l Hl. apply elem_of_app. by right.
  - intros x. rewrite (getitem_run _ _ _ x Hs1), (getitem_run _ _ _ x Hs2). simpl.
    destruct (dict_get x (_index o)) as [l|] eqn:Hl; [|done].
    by rewrite (Hgroups l (index_ref _ _ _ Hl)).
Qed.

End Agree.

(** Mutations through one collection are not seen through another that
    shares no group with it. *)
Lemma disjoint_collections_detached (s : Store) a b oa ob ms :
  tunable_groups s !! a = Some oa →
  tunable_groups s !! b = Some ob →
  (∀ l, l ∈ refs oa → l ∉ refs ob) →
  same_observations b s (for_ ms (mutate a) s).1.
Proof.
  intros Ha Hb Hdis.
  destruct (mutations_write_own_groups s a oa ms Ha) as (Ht & _ & Hg).
  apply (observations_agree _ _ b ob); [done | by rewrite Ht |].
  intros l Hl. apply Hg. intros Hl'. by apply (Hdis l).
Qed.

(** A [merge] into one collection is not seen through another. *)
Lemma merge_detached (s : Store) a x b ob :
  tunable_groups s !! b = Some ob → a ≠ b →
  same_observations b s (merge a x s).1.
Proof.
  intros Hb Hne.
  destruct (tunable_groups s !! x) as [ox|] eqn:Hx.
  - destruct (merge_grows a x s ox Hx) as (Hg & _ & Hothers & _).
    apply (observations_agree _ _ b ob); [done | by rewrite Hothers |].
    intros l _. by rewrite Hg.
  - unfold merge. rewrite bind_run, (this_stale _ _ Hx). simpl.
    by apply (observations_agree _ _ b ob).
Qed.

(** C7. [t.copy()] returns a new collection that compares equal to [t],
    in both directions, and shares no group object with it: whatever
    sequence of assignments, restorations and resets is made through the
    copy, and whatever is merged into it, every reading method returns
    through [t] what it returned before, and the same holds with the
    roles exchanged. *)
Theorem copy_is_equal_and_detached (s : Store) (t : tgref) (o : TunableGroupsObject) :
  tunable_groups s !! t = Some o →
  allocated s o →
  ∃ co copies,
    copy t s = (mk_store (groups s ++ copies) (tunable_groups s ++ [co]),
                Ok (length (tunable_groups s)))
    ∧ dict_keys (_tunable_groups co) = dict_keys (_tunable_groups o)
    ∧ dict_keys (_index co) = dict_keys (_index o)
    ∧ TunableGroups.__eq__ (length (tunable_groups s)) t (copy t s).1
      = ((copy t s).1, Ok true)
    ∧ TunableGroups.__eq__ t (length (tunable_groups s)) (copy t s).1
      = ((copy t s).1, Ok true)
    ∧ (∀ l, l ∈ refs co → l ∉ refs o)
    ∧ (∀ ms, same_observations t (copy t s).1
               (for_ ms (mutate (length (tunable_groups s))) (copy t s).1).1)
    ∧ (∀ ms, same_observations (length (tunable_groups s)) (copy t s).1
               (for_ ms (mutate t) (copy t s).1).1)
    ∧ (∀ x, same_observations t (copy t s).1
              (merge (length (tunable_groups s)) x (copy t s).1).1)
    ∧ (∀ x, same_observations (length (tunable_groups s)) (copy t s).1
              (merge t x (copy t s).1).1).
Proof.
  intros Ht Ha.
  destruct (copy_run s t o Ht Ha) as (co & copies & memo & Hrun & [_ Hmemo] & Hidx & Hgrp).
  exists co, copies. rewrite Hrun. cbn [fst].
  set (s' := mk_store (groups s ++ copies) (tunable_groups s ++ [co])).
  assert (tunable_groups s' !! t = Some o) as Ht'.
  { simpl. rewrite lookup_app_l; [done | by eapply lookup_lt_Some]. }
  assert (tunable_groups s' !! length (tunable_groups s) = Some co) as Hc'.
  { simpl. by apply list_lookup_middle. }
  assert (∀ l, l ∈ refs o → l < length (groups s)) as Hold.
  { intros l [[k Hin]%dict_values_elem|[k Hin]%dict_values_elem]%elem_of_app.
    - destruct (alloc_index _ _ Ha k l Hin) as (g & Hg & _). by eapply lookup_lt_Some.
    - destruct (alloc_groups _ _ Ha k l Hin) as (g & Hg & _). by eapply lookup_lt_Some. }
  assert (∀ l, l ∈ refs co → (length (groups s) ≤ l)%nat) as Hnew.
  { intros l [[k Hin]%dict_values_elem|[k Hin]%dict_values_elem]%elem_of_app.
    - destruct (relocated_elem _ _ _ _ _ Hidx Hin) as (l0 & _ & Hm).
      by destruct (Hmemo _ _ Hm).
    - destruct (relocated_elem _ _ _ _ _ Hgrp Hin) as (l0 & _ & Hm).
      by destruct (Hmemo _ _ Hm). }
  assert (∀ l, l ∈ refs co → l ∉ refs o) as Hdis.
  { intros l Hl Hl'. apply Hnew in Hl. apply Hold in Hl'. lia. }
  split; [done|]. split; [by eapply relocated_keys|]. split; [by eapply relocated_keys|].
  assert (t ≠ length (tunable_groups s)) as Hne.
  { apply lookup_lt_Some in Ht. lia. }
  split; [|split; [|split; [|split; [|split; [|split]]]]].
  - apply (eq_run s' _ _ co o Hc' Ht').
    + symmetry. by eapply Forall2_length.
    + intros k l' Hin.
      destruct (relocated_elem _ _ _ _ _ Hgrp Hin) as (l & Hl & Hm).
      destruct (Hmemo _ _ Hm) as (_ & Hlt & Hcopy).
      destruct (alloc_groups _ _ Ha k l Hl) as (g & Hg & Hnd).
      exists l, g. split; [apply dict_get_nodup; [apply Ha | done]|].
      split; [simpl; by rewrite Hcopy|]. split; [|done].
      simpl. by rewrite lookup_app_l.
  - apply (eq_run s' _ _ o co Ht' Hc').
    + by eapply Forall2_length.
    + intros k l Hin.
      destruct (relocated_elem_inv _ _ _ _ _ Hgrp Hin) as (l' & Hl' & Hm).
      destruct (Hmemo _ _ Hm) as (_ & Hlt & Hcopy).
      destruct (alloc_groups _ _ Ha k l Hin) as (g & Hg & Hnd).
      exists l', g. split.
      { rewrite (relocated_get _ _ _ k Hgrp).
        by rewrite (dict_get_nodup _ _ _ (alloc_group_keys _ _ Ha) Hin). }
      split; [simpl; by rewrite lookup_app_l|]. split; [|done].
      simpl. by rewrite Hcopy.
  - done.
  - intros ms. by apply (disjoint_collections_detached s' _ _ co o).
  - intros ms. apply (disjoint_collections_detached s' _ _ o co); [done | done |].
    intros l Hl Hl'. by apply (Hdis l).
  - intros x. by apply (merge_detached s' _ x t o).
  - intros x. by apply (merge_detached s' _ x _ co).
Qed.

Lemma copy_is_equal_and_detached_witness :
  (copy 0 fixture_changed).2 = Ok 1
  ∧ TunableGroups.__eq__ 1 0 (copy 0 fixture_changed).1 = ((copy 0 fixture_changed).1, Ok true)
  ∧ same_observations 0 (copy 0 fixture_changed).1
      (for_ [SetItem "rootfs" (Tunable.VStr "ext2"); Reset None] (mutate 1)
         (copy 0 fixture_changed).1).1.
Proof.
  destruct (copy_is_equal_and_detached fixture_changed 0 fixture_object)
    as (co & copies & Hrun & _ & _ & Heq & _ & _ & Hcopy & _).
  - reflexivity.
  - apply allocatedb_sound. vm_compute. reflexivity.
  - split; [by rewrite Hrun|]. split; [exact Heq|].
    apply (Hcopy [SetItem "rootfs" (Tunable.VStr "ext2"); Reset None]).
Defined.

(** ** The optimizer wrapper *)

Lemma best_observation_ignores_iter {B} `{BaseOptimizer B} (w : MlosCoreOptimizer.World B) i :
  (MlosCoreOptimizer.get_best_observation
     (MlosCoreOptimizer.mk_world (MlosCoreOptimizer.store w)
        (MlosCoreOptimizer.mk (MlosCoreOptimizer._tunables (MlosCoreOptimizer.optimizer w))
           (MlosCoreOptimizer._opt_sign (MlosCoreOptimizer.optimizer w)) i
           (MlosCoreOptimizer._opt (MlosCoreOptimizer.optimizer w)))
        (MlosCoreOptimizer.log_debug w))).2
  = (MlosCoreOptimizer.get_best_observation w).2.
Proof.
  destruct w as [st [tn sign it opt] dbg].
  unfold MlosCoreOptimizer.get_best_observation, bind, MlosCoreOptimizer.self. simpl.
  destruct (opt_get_best_observation opt) as [|[params score] rest]; [reflexivity|].
  unfold MlosCoreOptimizer.in_store, ret. simpl.
  destruct (copy tn st) as [st1 [c|e]]; simpl; [|reflexivity].
  destruct (assign c params st1) as [st2 [a|e]]; reflexivity.
Qed.

(** C8. [register] with a status other than [SUCCEEDED] hands nothing to
    the search backend: whatever the backend is, its state after the call
    is its state before, so that its best observation is the same, and
    the store of tunables is not touched.  The wrapper advances [_iter]
    by one and returns the score with its sign normalized. *)
Theorem failed_trial_is_not_forwarded {B} `{BaseOptimizer B}
    (w : MlosCoreOptimizer.World B) (tunables : tgref) (status : Status.t)
    (score : option Q) :
  status ≠ Status.SUCCEEDED →
  MlosCoreOptimizer.register tunables status score w
  = (MlosCoreOptimizer.mk_world (MlosCoreOptimizer.store w)
       (MlosCoreOptimizer.mk (MlosCoreOptimizer._tunables (MlosCoreOptimizer.optimizer w))
          (MlosCoreOptimizer._opt_sign (MlosCoreOptimizer.optimizer w))
          (MlosCoreOptimizer._iter (MlosCoreOptimizer.optimizer w) + 1)%Z
          (MlosCoreOptimizer._opt (MlosCoreOptimizer.optimizer w)))
       (MlosCoreOptimizer.log_debug w),
     Ok (MlosCoreOptimizer.normalize
           (MlosCoreOptimizer._opt_sign (MlosCoreOptimizer.optimizer w)) score))
  ∧ MlosCoreOptimizer._opt
      (MlosCoreOptimizer.optimizer (MlosCoreOptimizer.register tunables status score w).1)
    = MlosCoreOptimizer._opt (MlosCoreOptimizer.optimizer w)
  ∧ (MlosCoreOptimizer.get_best_observation
       (MlosCoreOptimizer.register tunables status score w).1).2
    = (MlosCoreOptimizer.get_best_observation w).2.
Proof.
  intros Hstatus.
  assert (Status.is_succeeded status = false) as Hfailed.
  { destruct status; try done. }
  assert (MlosCoreOptimizer.register tunables status score w
          = (MlosCoreOptimizer.mk_world (MlosCoreOptimizer.store w)
               (MlosCoreOptimizer.mk
                  (MlosCoreOptimizer._tunables (MlosCoreOptimizer.optimizer w))
                  (MlosCoreOptimizer._opt_sign (MlosCoreOptimizer.optimizer w))
                  (MlosCoreOptimizer._iter (MlosCoreOptimizer.optimizer w) + 1)%Z
                  (MlosCoreOptimizer._opt (MlosCoreOptimizer.optimizer w)))
               (MlosCoreOptimizer.log_debug w),
             Ok (MlosCoreOptimizer.normalize
                   (MlosCoreOptimizer._opt_sign (MlosCoreOptimizer.optimizer w)) score)))
    as Hrun.
  { unfold MlosCoreOptimizer.register, MlosCoreOptimizer.Optimizer_register.
    rewrite Hfailed. reflexivity. }
  rewrite Hrun. split; [done|]. split; [done|]. apply best_observation_ignores_iter.
Qed.

Lemma failed_trial_is_not_forwarded_witness :
  MlosCoreOptimizer.register 0 Status.FAILED (Some (5 # 1)%Q)
    (MlosCoreOptimizer.mk_world fixture_store (MlosCoreOptimizer.mk 0 1%Z 1%Z []) false)
  = (MlosCoreOptimizer.mk_world fixture_store (MlosCoreOptimizer.mk 0 1%Z 2%Z []) false,
     Ok (Some (5 # 1)%Q)).
Proof.
  refine (proj1 (failed_trial_is_not_forwarded
                   (MlosCoreOptimizer.mk_world fixture_store
                      (MlosCoreOptimizer.mk 0 1%Z 1%Z []) false)
                   0 Status.FAILED (Some (5 # 1)%Q) _)).
  discriminate.
Defined.

(** ** [FlamlOptimizer._register] *)

Section FlamlFacts.
Context (config_hash : Row → Z).

Lemma flaml_register_run configurations scores (st : FlamlOptimizer.t) :
  FlamlOptimizer._register config_hash configurations scores None st
  = (FlamlOptimizer.mk
       (registered config_hash (combine configurations scores)
          (FlamlOptimizer.evaluated_configs st))
       (FlamlOptimizer.warnings st
        ++ repeated config_hash (combine configurations scores)
             (FlamlOptimizer.evaluated_configs st)),
     Ok tt).
Proof.
  unfold FlamlOptimizer._register.
  generalize (combine configurations scores) as rows. intros rows. revert st.
  induction rows as [|row rows IH]; intros [ev ws]; simpl.
  - by rewrite app_nil_r.
  - rewrite !bind_run. simpl.
    destruct (ev !! config_hash row.1) as [old|]; simpl; rewrite IH; simpl.
    + by rewrite <- app_assoc.
    + done.
Qed.

Lemma repeated_warns rows : ∀ ev c sc,
  (c, sc) ∈ rows → is_Some (ev !! config_hash c) → c ∈ repeated config_hash rows ev.
Proof.
  induction rows as [|row rows IH]; intros ev c sc Hin Hev; [by apply elem_of_nil in Hin|].
  simpl. apply elem_of_cons in Hin as [<-|Hin].
  - simpl. destruct Hev as [old ->]. left.
  - apply elem_of_app. right. apply (IH _ c sc Hin).
    destruct (decide (config_hash row.1 = config_hash c)) as [->|Hne].
    + rewrite lookup_insert_eq. eauto.
    + by rewrite lookup_insert_ne.
Qed.

Lemma registered_lookup rows : ∀ ev h,
  (∃ row, row ∈ rows ∧ config_hash row.1 = h
          ∧ registered config_hash rows ev !! h = Some (row.1, row.2))
  ∨ ((∀ row, row ∈ rows → config_hash row.1 ≠ h)
     ∧ registered config_hash rows ev !! h = ev !! h).
Proof.
  induction rows as [|row rows IH]; intros ev h; simpl.
  - right. split; [|done]. intros row H. by apply elem_of_nil in H.
  - destruct (IH (<[config_hash row.1 := (row.1, row.2)]> ev) h)
      as [(row' & Hin & Hh & Hget)|[Hnone Hget]].
    + left. exists row'. split; [by right | done].
    + destruct (decide (config_hash row.1 = h)) as [Hh|Hne].
      * left. exists row. split; [left|]. split; [done|].
        by rewrite Hget, <- Hh, lookup_insert_eq.
      * right. split.
        -- intros row' [->|Hin]%elem_of_cons; auto.
        -- by rewrite Hget, lookup_insert_ne.
Qed.

End FlamlFacts.

(** ** Methods that only read *)

#[local] Instance same_store_preorder : PreOrder (fun s s' : Store => s' = s).
Proof. split; [done|]. intros s1 s2 s3 -> ->. done. Qed.

Lemma collect_values_reads self : ∀ names into,
  preserves (fun s s' : Store => s' = s) (collect_values self names into).
Proof.
  induction names as [|n names IH]; intros into; simpl.
  - apply preserves_ret. apply _.
  - apply preserves_bind; [apply _ | |].
    + apply preserves_bind; [apply _ | apply preserves_this; apply _ |].
      intros o. destruct (dict_get n (_tunable_groups o));
        [apply preserves_ret | apply preserves_raise]; apply _.
    + intros l. apply preserves_bind; [apply _ | apply preserves_group_at; apply _ |].
      intros g. apply IH.
Qed.

Lemma get_param_values_reads self names into (s : Store) :
  get_param_values self names into s = (s, (get_param_values self names into s).2).
Proof.
  assert (preserves (fun s s' : Store => s' = s) (get_param_values self names into)) as H.
  { apply preserves_bind; [apply _ | |].
    - apply preserves_bind; [apply _ | apply preserves_this; apply _ |].
      intros o. apply preserves_ret. apply _.
    - intros all_names. apply collect_values_reads. }
  specialize (H s). destruct (get_param_values self names into s) as [s' r]. simpl in *.
  by subst.
Qed.

Lemma iter_index_reads : ∀ index,
  preserves (fun s s' : Store => s' = s) (TunableGroups.iter_index index).
Proof.
  induction index as [|[n l] index IH]; simpl.
  - apply preserves_ret. apply _.
  - apply preserves_bind; [apply _ | apply preserves_group_at; apply _ |]. intros g.
    apply preserves_bind; [apply _ | apply preserves_lift_result; apply _ |]. intros x.
    apply preserves_bind; [apply _ | apply IH |]. intros rest.
    apply preserves_ret. apply _.
Qed.

Lemma iter_reads tunables (s : Store) :
  TunableGroups.__iter__ tunables s
  = (s, (TunableGroups.__iter__ tunables s).2).
Proof.
  assert (preserves (fun s s' : Store => s' = s)
            (TunableGroups.__iter__ tunables)) as H.
  { apply preserves_bind; [apply _ | apply preserves_this; apply _ |].
    intros o. apply iter_index_reads. }
  specialize (H s). destruct (TunableGroups.__iter__ tunables s) as [s' r].
  simpl in *. by subst.
Qed.

Section BulkRegister.
Context {B : Type} `{BaseOptimizer B}.
Context (base : list Row → list (option Q) → option (list Status.t) → bool).
Context (astype : Tunable.t → TunableValue → result TunableValue).

Lemma bulk_register_run (w : MlosCoreOptimizer.World B) configs scores status
    params df pairs batch :
  base configs scores status = true →
  MlosCoreOptimizer.log_debug w = false →
  (get_param_values (MlosCoreOptimizer._tunables (MlosCoreOptimizer.optimizer w))
     None None (MlosCoreOptimizer.store w)).2 = Ok params →
  select_columns (sorted (dict_keys params)) configs = Ok df →
  (TunableGroups.__iter__
     (MlosCoreOptimizer._tunables (MlosCoreOptimizer.optimizer w))
     (MlosCoreOptimizer.store w)).2 = Ok pairs →
  MlosCoreOptimizer.cast_columns astype pairs (kept status df) = Ok batch →
  MlosCoreOptimizer.bulk_register base astype configs scores status w
  = (MlosCoreOptimizer.mk_world (MlosCoreOptimizer.store w)
       (MlosCoreOptimizer.mk
          (MlosCoreOptimizer._tunables (MlosCoreOptimizer.optimizer w))
          (MlosCoreOptimizer._opt_sign (MlosCoreOptimizer.optimizer w))
          (MlosCoreOptimizer._iter (MlosCoreOptimizer.optimizer w))
          (opt_register batch
             (kept status
                (map (MlosCoreOptimizer.normalize
                        (MlosCoreOptimizer._opt_sign (MlosCoreOptimizer.optimizer w))) scores))
             (MlosCoreOptimizer._opt (MlosCoreOptimizer.optimizer w))).1)
       false,
     match (opt_register batch
              (kept status
                 (map (MlosCoreOptimizer.normalize
                         (MlosCoreOptimizer._opt_sign (MlosCoreOptimizer.optimizer w))) scores))
              (MlosCoreOptimizer._opt (MlosCoreOptimizer.optimizer w))).2 with
     | Ok _ => Ok true
     | Raise e => Raise e
     end).
Proof.
  destruct w as [st [tn sign it opt] dbg]. simpl.
  intros Hbase -> Hparams Hdf Hpairs Hbatch.
  unfold MlosCoreOptimizer.bulk_register. rewrite Hbase. simpl.
  unfold bind, MlosCoreOptimizer.self, MlosCoreOptimizer.in_store, lift_result. simpl.
  rewrite get_param_values_reads, Hparams. simpl. rewrite Hdf. simpl.
  rewrite iter_reads, Hpairs. simpl.
  unfold kept in Hbatch. rewrite Hbatch. unfold MlosCoreOptimizer.in_backend. simpl.
  unfold kept.
  destruct (opt_register batch _ opt) as [b' [[]|e]]; reflexivity.
Qed.

End BulkRegister.

Section DuplicateRegistration.
Context (config_hash : Row → Z) (best : FlamlOptimizer.t → list (Row * Q)).
Context (base : list Row → list (option Q) → option (list Status.t) → bool).
Context (astype : Tunable.t → TunableValue → result TunableValue).

(** C9. Take a call of [bulk_register] on a wrapper over the FLAML
    backend, outside DEBUG logging, for which the base class reports data
    and whose rows have the columns and the types of the tunables, so
    that a batch reaches the backend.  If a row of that batch has a
    configuration that is already in [evaluated_configs], the backend
    issues a warning that names it and goes on: [_register] never raises,
    the entry under the hash of that configuration is overwritten with a
    row of the batch (the last one with that hash, hence the same pair
    when the batch only repeats it), and [bulk_register] returns [True]. *)
Theorem duplicate_registration_warns (w : MlosCoreOptimizer.World FlamlOptimizer.t)
    configs scores status params df pairs batch c sc :
  base configs scores status = true →
  MlosCoreOptimizer.log_debug w = false →
  (get_param_values (MlosCoreOptimizer._tunables (MlosCoreOptimizer.optimizer w))
     None None (MlosCoreOptimizer.store w)).2 = Ok params →
  select_columns (sorted (dict_keys params)) configs = Ok df →
  (TunableGroups.__iter__
     (MlosCoreOptimizer._tunables (MlosCoreOptimizer.optimizer w))
     (MlosCoreOptimizer.store w)).2 = Ok pairs →
  MlosCoreOptimizer.cast_columns astype pairs (kept status df) = Ok batch →
  (c, sc) ∈ combine batch
              (kept status
                 (map (MlosCoreOptimizer.normalize
                         (MlosCoreOptimizer._opt_sign (MlosCoreOptimizer.optimizer w))) scores)) →
  is_Some (FlamlOptimizer.evaluated_configs
             (MlosCoreOptimizer._opt (MlosCoreOptimizer.optimizer w)) !! config_hash c) →
  (@MlosCoreOptimizer.bulk_register _
     (FlamlOptimizer.Flaml_BaseOptimizer config_hash best) base astype
     configs scores status w).2 = Ok true
  ∧ (∀ st configurations scores',
       (FlamlOptimizer._register config_hash configurations scores' None st).2 = Ok tt)
  ∧ (∃ earlier later,
       FlamlOptimizer.warnings
         (MlosCoreOptimizer._opt
            (MlosCoreOptimizer.optimizer
               (@MlosCoreOptimizer.bulk_register _
                  (FlamlOptimizer.Flaml_BaseOptimizer config_hash best) base astype
                  configs scores status w).1))
       = FlamlOptimizer.warnings (MlosCoreOptimizer._opt (MlosCoreOptimizer.optimizer w))
         ++ earlier ++ c :: later)
  ∧ (∃ row,
       row ∈ combine batch
               (kept status
                  (map (MlosCoreOptimizer.normalize
                          (MlosCoreOptimizer._opt_sign (MlosCoreOptimizer.optimizer w)))
                     scores))
       ∧ config_hash row.1 = config_hash c
       ∧ FlamlOptimizer.evaluated_configs
           (MlosCoreOptimizer._opt
              (MlosCoreOptimizer.optimizer
                 (@MlosCoreOptimizer.bulk_register _
                    (FlamlOptimizer.Flaml_BaseOptimizer config_hash best) base astype
                    configs scores status w).1))
         !! config_hash c = Some (row.1, row.2)).
Proof.
  intros Hbase Hdebug Hparams Hdf Hpairs Hbatch Hin Hdup.
  rewrite (@bulk_register_run _ (FlamlOptimizer.Flaml_BaseOptimizer config_hash best)
             base astype w configs scores status params df pairs batch
             Hbase Hdebug Hparams Hdf Hpairs Hbatch).
  cbn [fst snd opt_register FlamlOptimizer.Flaml_BaseOptimizer FlamlOptimizer.register
       MlosCoreOptimizer.optimizer MlosCoreOptimizer._opt].
  unfold FlamlOptimizer.register. rewrite !flaml_register_run.
  cbn [fst snd FlamlOptimizer.warnings FlamlOptimizer.evaluated_configs].
  split; [done|]. split; [intros st cfgs scs; by rewrite flaml_register_run|]. split.
  - pose proof (repeated_warns config_hash _ _ c sc Hin Hdup) as Hwarned.
    apply list_elem_of_split in Hwarned as (earlier & later & ->). eauto.
  - destruct (registered_lookup config_hash
                (combine batch
                   (kept status
                      (map (MlosCoreOptimizer.normalize
                              (MlosCoreOptimizer._opt_sign (MlosCoreOptimizer.optimizer w)))
                         scores)))
                (FlamlOptimizer.evaluated_configs
                   (MlosCoreOptimizer._opt (MlosCoreOptimizer.optimizer w)))
                (config_hash c)) as [(row & Hrow & Hh & Hget)|[Hnone _]].
    + by exists row.
    + exfalso. by apply (Hnone (c, sc) Hin).
Qed.

End DuplicateRegistration.

Lemma duplicate_registration_warns_witness :
  (@MlosCoreOptimizer.bulk_register _
     (FlamlOptimizer.Flaml_BaseOptimizer length_hash (fun _ => []))
     has_data (fun _ v => Ok v)
     [fixture_row] [Some (1 # 1)%Q] (Some [Status.SUCCEEDED]) warm_world).2 = Ok true.
Proof.
  refine (proj1 (duplicate_registration_warns length_hash (fun _ => []) has_data
                   (fun _ v => Ok v) warm_world
                   [fixture_row] [Some (1 # 1)%Q] (Some [Status.SUCCEEDED])
                   _ _ _ _ fixture_row (Some (1 # 1)%Q) _ _ _ _ _ _ _ _)).
  - reflexivity.
  - reflexivity.
  - vm_compute. reflexivity.
  - vm_compute. reflexivity.
  - vm_compute. reflexivity.
  - vm_compute. reflexivity.
  - vm_compute. left.
  - eexists. vm_compute. reflexivity.
Defined.

(** * Further properties of the code *)

(** ** Methods that read *)

Lemma reads_run {A} (m : M A) (s : Store) :
  preserves (fun s s' : Store => s' = s) m → m s = (s, (m s).2).
Proof. intros H. specialize (H s). destruct (m s) as [s' r]. simpl in *. by subst. Qed.

Lemma names_reads self :
  preserves (fun s s' : Store => s' = s) (get_covariant_group_names self).
Proof.
  apply preserves_bind; [apply _ | apply preserves_this; apply _ |].
  intros o. apply preserves_ret. apply _.
Qed.

Lemma group_named_reads self name :
  preserves (fun s s' : Store => s' = s) (group_named self name).
Proof.
  apply preserves_bind; [apply _ | apply preserves_this; apply _ |].
  intros o. destruct (dict_get name (_tunable_groups o));
    [apply preserves_ret | apply preserves_raise]; apply _.
Qed.

Lemma getitem_reads self x : preserves (fun s s' : Store => s' = s) (__getitem__ self x).
Proof.
  apply preserves_bind; [apply _ | apply preserves_this; apply _ |].
  intros o. destruct (dict_get x (_index o)); [|apply preserves_raise; apply _].
  apply preserves_bind; [apply _ | apply preserves_group_at; apply _ |].
  intros g. apply preserves_lift_result. apply _.
Qed.

Lemma get_tunable_reads self x : preserves (fun s s' : Store => s' = s) (get_tunable self x).
Proof.
  apply preserves_bind; [apply _ | apply preserves_this; apply _ |].
  intros o. destruct (dict_get x (_index o)); [|apply preserves_raise; apply _].
  apply preserves_bind; [apply _ | apply preserves_group_at; apply _ |]. intros g.
  apply preserves_bind; [apply _ | apply preserves_lift_result; apply _ |]. intros t.
  apply preserves_ret. apply _.
Qed.

Lemma is_updated_reads self names :
  preserves (fun s s' : Store => s' = s) (TunableGroups.is_updated self names).
Proof.
  apply preserves_bind; [apply _ | apply names_reads |]. intros all_names.
  apply preserves_any; [apply _|]. intros name _.
  apply preserves_bind; [apply _ | apply group_named_reads |]. intros l.
  apply preserves_bind; [apply _ | apply preserves_group_at; apply _ |]. intros g.
  apply preserves_ret. apply _.
Qed.

Lemma is_defaults_reads self : preserves (fun s s' : Store => s' = s) (is_defaults self).
Proof.
  apply preserves_bind; [apply _ | apply preserves_this; apply _ |]. intros o.
  apply preserves_all; [apply _|]. intros l _.
  apply preserves_bind; [apply _ | apply preserves_group_at; apply _ |]. intros g.
  apply preserves_ret. apply _.
Qed.

Lemma eq_reads self other :
  preserves (fun s s' : Store => s' = s) (TunableGroups.__eq__ self other).
Proof.
  apply preserves_bind; [apply _ | apply preserves_this; apply _ |]. intros a.
  apply preserves_bind; [apply _ | apply preserves_this; apply _ |]. intros b.
  destruct (negb _); [apply preserves_ret; apply _|].
  apply preserves_all; [apply _|]. intros kv _.
  destruct (dict_get kv.1 (_tunable_groups b)); [|apply preserves_ret; apply _].
  apply preserves_bind; [apply _ | apply preserves_group_at; apply _ |]. intros g.
  apply preserves_bind; [apply _ | apply preserves_group_at; apply _ |]. intros g'.
  apply preserves_ret. apply _.
Qed.

(** X1. The methods that read a collection never write the store:
    whether they return or raise, the store after the call is the store
    before it. *)
Theorem reading_methods_keep_store (s : Store) (self other : tgref) (x : string)
    (names : option (list string)) (into : option (dict TunableValue)) :
  (__getitem__ self x s).1 = s
  ∧ (get_tunable self x s).1 = s
  ∧ (__contains__ self x s).1 = s
  ∧ (__len__ self s).1 = s
  ∧ (__bool__ self s).1 = s
  ∧ (TunableGroups.__iter__ self s).1 = s
  ∧ (get_covariant_group_names self s).1 = s
  ∧ (get_param_values self names into s).1 = s
  ∧ (TunableGroups.is_updated self names s).1 = s
  ∧ (is_defaults self s).1 = s
  ∧ (TunableGroups.__eq__ self other s).1 = s.
Proof.
  assert (∀ A (f : TunableGroupsObject → A),
            preserves (fun s s' : Store => s' = s) (let* o := this self in ret (f o))) as Hattr.
  { intros A f. apply preserves_bind; [apply _ | apply preserves_this; apply _ |].
    intros o. apply preserves_ret. apply _. }
  repeat split.
  - apply getitem_reads.
  - apply get_tunable_reads.
  - apply (Hattr _ (fun o => dict_contains x (_index o))).
  - apply (Hattr _ (fun o => length (_index o))).
  - apply (Hattr _ (fun o => negb (Nat.eqb (length (_index o)) 0))).
  - by rewrite iter_reads.
  - apply names_reads.
  - by rewrite get_param_values_reads.
  - apply is_updated_reads.
  - apply is_defaults_reads.
  - apply eq_reads.
Qed.

(** ** Names that are not in the index *)

Lemma contains_run (s : Store) self o x :
  tunable_groups s !! self = Some o →
  __contains__ self x s = (s, Ok (dict_contains x (_index o))).
Proof. intros Ho. unfold __contains__. by rewrite bind_run, (this_ok _ _ _ Ho). Qed.

Lemma get_tunable_run (s : Store) self o x :
  tunable_groups s !! self = Some o →
  get_tunable self x s =
    (s, match dict_get x (_index o) with
        | None => Raise (KeyError x)
        | Some l => match groups s !! l with
                    | None => Raise StaleReference
                    | Some g => match CovariantTunableGroup.get_tunable x g with
                                | Ok t => Ok (t, l)
                                | Raise e => Raise e
                                end
                    end
        end).
Proof.
  intros Ho. unfold get_tunable. rewrite bind_run, (this_ok _ _ _ Ho).
  destruct (dict_get x (_index o)) as [l|]; [|done].
  rewrite bind_run, group_at_run. destruct (groups s !! l) as [g|]; [|done].
  rewrite bind_run. unfold lift_result.
  by destruct (CovariantTunableGroup.get_tunable x g).
Qed.

Lemma setitem_unknown (s : Store) self o x v :
  tunable_groups s !! self = Some o → dict_get x (_index o) = None →
  __setitem__ self x v s = (s, Raise (KeyError x)).
Proof. intros Ho Hx. unfold __setitem__. by rewrite bind_run, (this_ok _ _ _ Ho), Hx. Qed.

(** X2. A name that is not in the index is reported as absent by
    [__contains__], and reading it with [__getitem__] or [get_tunable],
    writing it with [__setitem__], or assigning a mapping that starts
    with it, raises [KeyError] for that name and leaves the store as it
    was. *)
Theorem unknown_tunable_raises_key_error (s : Store) (self : tgref)
    (o : TunableGroupsObject) (x : string) (v : TunableValue) (rest : dict TunableValue) :
  tunable_groups s !! self = Some o →
  x ∉ dict_keys (_index o) →
  __contains__ self x s = (s, Ok false)
  ∧ __getitem__ self x s = (s, Raise (KeyError x))
  ∧ get_tunable self x s = (s, Raise (KeyError x))
  ∧ __setitem__ self x v s = (s, Raise (KeyError x))
  ∧ assign self ((x, v) :: rest) s = (s, Raise (KeyError x)).
Proof.
  intros Ho Hx. apply dict_get_None in Hx.
  split; [|split; [|split; [|split]]].
  - rewrite (contains_run _ _ _ _ Ho). unfold dict_contains. by rewrite Hx.
  - by rewrite (getitem_run _ _ _ _ Ho), Hx.
  - by rewrite (get_tunable_run _ _ _ _ Ho), Hx.
  - by apply (setitem_unknown _ _ o).
  - unfold assign. simpl. rewrite !bind_run.
    by rewrite (setitem_unknown _ _ o x v Ho Hx).
Qed.

Lemma unknown_tunable_raises_key_error_witness :
  __setitem__ 0 "swappiness" (Tunable.VInt 60) fixture_store
  = (fixture_store, Raise (KeyError "swappiness")).
Proof.
  refine (proj1 (proj2 (proj2 (proj2
            (unknown_tunable_raises_key_error fixture_store 0 fixture_object "swappiness"
               (Tunable.VInt 60) [] _ _))))).
  - reflexivity.
  - apply (bool_decide_unpack _). vm_compute. reflexivity.
Defined.

(** ** [__setitem__] *)

Lemma group_setitem_other x y v g g' :
  CovariantTunableGroup.__setitem__ x v g = Ok g' → y ≠ x →
  CovariantTunableGroup.__getitem__ y g' = CovariantTunableGroup.__getitem__ y g.
Proof.
  unfold CovariantTunableGroup.__setitem__, CovariantTunableGroup.__getitem__.
  destruct (dict_get x (_tunables g)) as [tn|]; [|done].
  unfold Tunable.set. destruct (Tunable.in_domain _ _); [|done].
  intros [= <-] Hne. simpl. by rewrite dict_get_set_ne.
Qed.

Lemma group_setitem_flag x v g g' :
  CovariantTunableGroup.__setitem__ x v g = Ok g' → CovariantTunableGroup.is_updated g' = true.
Proof.
  unfold CovariantTunableGroup.__setitem__.
  destruct (dict_get x (_tunables g)) as [tn|]; [|done].
  destruct (Tunable.set v tn); [|done]. by intros [= <-].
Qed.

Lemma setitem_other (s : Store) self o x y v l g g' :
  tunable_groups s !! self = Some o →
  groups s !! l = Some g →
  CovariantTunableGroup.__setitem__ x v g = Ok g' → y ≠ x →
  (__getitem__ self y (mk_store (<[l := g']> (groups s)) (tunable_groups s))).2
  = (__getitem__ self y s).2.
Proof.
  intros Ho Hg Hset Hne.
  rewrite (getitem_run (mk_store _ _) self o y Ho), (getitem_run s self o y Ho). simpl.
  destruct (dict_get y (_index o)) as [l2|]; [|done].
  destruct (decide (l2 = l)) as [->|Hl].
  - rewrite list_lookup_insert_eq by (by eapply lookup_lt_Some). rewrite Hg.
    by apply (group_setitem_other x y v).
  - by rewrite list_lookup_insert_ne.
Qed.

Lemma is_updated_all_run (s : Store) self o :
  tunable_groups s !! self = Some o →
  (∀ k l, (k, l) ∈ _tunable_groups o →
     dict_get k (_tunable_groups o) = Some l ∧ l < length (groups s)) →
  TunableGroups.is_updated self None s
  = (s, Ok (existsb (fun kl => dirty s kl.2) (_tunable_groups o))).
Proof.
  intros Ho Hd. unfold TunableGroups.is_updated, get_covariant_group_names.
  rewrite !bind_run, (this_ok _ _ _ Ho). simpl.
  by apply (is_updated_loop_run self o (_tunable_groups o) s).
Qed.

Lemma consistent_entries s o k l :
  consistent s o → (k, l) ∈ _tunable_groups o →
  dict_get k (_tunable_groups o) = Some l ∧ l < length (groups s).
Proof.
  intros Hc Hin. split.
  - apply dict_get_nodup; [apply Hc | done].
  - destruct (groups_named _ _ Hc k l Hin) as (g & Hg & _). by eapply lookup_lt_Some.
Qed.

(** X3. When [tunables[x] = v] returns, it returns [v]; reading [x]
    back gives [v]; every other tunable reads as before; no collection
    and no group other than the one that holds [x] was written; and that
    group is marked as updated, so that [is_updated()] is true. *)
Theorem setitem_sets_one_value (s s' : Store) (self : tgref) (o : TunableGroupsObject)
    (x : string) (v r : TunableValue) :
  tunable_groups s !! self = Some o →
  consistent s o →
  __setitem__ self x v s = (s', Ok r) →
  r = v
  ∧ __getitem__ self x s' = (s', Ok v)
  ∧ (∀ y, y ≠ x → (__getitem__ self y s').2 = (__getitem__ self y s).2)
  ∧ tunable_groups s' = tunable_groups s
  ∧ (∃ l, dict_get x (_index o) = Some l
          ∧ dirty s' l = true
          ∧ ∀ l', l' ≠ l → groups s' !! l' = groups s !! l')
  ∧ TunableGroups.is_updated self None s' = (s', Ok true).
Proof.
  intros Ho Hc Hrun.
  destruct (setitem_inv _ _ _ _ _ _ _ Ho Hrun) as (l & g & g' & Hl & Hg & Hset & -> & ->).
  assert (l < length (groups s)) as Hlt by (by eapply lookup_lt_Some).
  assert (dirty (mk_store (<[l := g']> (groups s)) (tunable_groups s)) l = true) as Hdirty.
  { unfold dirty. simpl. rewrite list_lookup_insert_eq by done.
    by apply (group_setitem_flag x v g). }
  split; [done|]. split.
  { rewrite (getitem_run (mk_store _ _) self o x Ho), Hl. simpl.
    rewrite list_lookup_insert_eq by done. by rewrite (group_setitem_getitem _ _ _ _ Hset). }
  split; [intros y Hy; by apply (setitem_other s self o x y v l g g')|].
  split; [done|]. split.
  { exists l. split; [done|]. split; [done|]. intros l' Hl'. simpl.
    by rewrite list_lookup_insert_ne. }
  rewrite (is_updated_all_run (mk_store _ _) self o Ho).
  - f_equal. f_equal. apply existsb_exists.
    destruct (index_sound _ _ Hc x l (dict_get_elem _ _ _ Hl)) as (k & g0 & Hin & _).
    exists (k, l). split; [by apply list_elem_of_In | done].
  - intros k l0 Hin. simpl. rewrite length_insert. by apply consistent_entries.
Qed.

Lemma setitem_sets_one_value_witness :
  __getitem__ 0 "rootfs" fixture_changed = (fixture_changed, Ok (Tunable.VStr "ext4"))
  ∧ TunableGroups.is_updated 0 None fixture_changed = (fixture_changed, Ok true).
Proof.
  pose proof (setitem_sets_one_value fixture_store fixture_changed 0 fixture_object "rootfs"
                (Tunable.VStr "ext4") (Tunable.VStr "ext4")) as H.
  refine ((fun H' => conj (proj1 (proj2 H')) (proj2 (proj2 (proj2 (proj2 (proj2 H'))))))
            (H _ _ _)).
  - reflexivity.
  - apply consistentb_sound. vm_compute. reflexivity.
  - vm_compute. reflexivity.
Defined.

(** ** [assign] *)

Lemma for_cons_run {S A} (x : A) l (body : A → St S unit) (s : S) :
  for_ (x :: l) body s = match body x s with
                         | (s1, Ok _) => for_ l body s1
                         | (s1, Raise e) => (s1, Raise e)
                         end.
Proof. simpl. by rewrite bind_run. Qed.

Lemma for_app_run {S A} (body : A → St S unit) (l1 l2 : list A) (s : S) :
  for_ (l1 ++ l2) body s = match for_ l1 body s with
                           | (s1, Ok _) => for_ l2 body s1
                           | (s1, Raise e) => (s1, Raise e)
                           end.
Proof.
  revert s. induction l1 as [|x l1 IH]; intros s; [done|].
  rewrite <- app_comm_cons, !for_cons_run. destruct (body x s) as [s1 [[]|e]]; [apply IH | done].
Qed.

Lemma assign_loop_values self o : ∀ (pv : dict TunableValue) (s s' : Store),
  tunable_groups s !! self = Some o →
  NoDup (dict_keys pv) →
  for_ pv (fun kv => let* _ := __setitem__ self kv.1 kv.2 in ret tt) s = (s', Ok tt) →
  tunable_groups s' = tunable_groups s
  ∧ ∀ x, (__getitem__ self x s').2 = match dict_get x pv with
                                     | Some v => Ok v
                                     | None => (__getitem__ self x s).2
                                     end.
Proof.
  induction pv as [|[k v] pv IH]; intros s s' Ho Hnd Hrun.
  - simpl in Hrun. injection Hrun as <-. done.
  - rewrite for_cons_run, bind_run in Hrun. simpl in Hrun.
    destruct (__setitem__ self k v s) as [s1 [r|e]] eqn:Hset; [|done]. simpl in Hrun.
    destruct (setitem_inv _ _ _ _ _ _ _ Ho Hset) as (l & g & g' & Hl & Hg & Hgset & -> & ->).
    assert ((k ∉ dict_keys pv) ∧ NoDup (dict_keys pv)) as [Hk Hnd'].
    { by apply NoDup_cons in Hnd. }
    destruct (IH (mk_store (<[l := g']> (groups s)) (tunable_groups s)) s' Ho Hnd' Hrun)
      as [Htg Hget]. split; [done|].
    intros x. rewrite Hget. simpl.
    destruct (String.eqb_spec x k) as [->|Hne].
    + apply dict_get_None in Hk. rewrite Hk.
      rewrite (getitem_run (mk_store _ _) self o k Ho), Hl. simpl.
      rewrite list_lookup_insert_eq by (by eapply lookup_lt_Some).
      by rewrite (group_setitem_getitem _ _ _ _ Hgset).
    + destruct (dict_get x pv); [done|]. by apply (setitem_other s self o k x v l g g').
Qed.

(** X4. When [assign] of a mapping that is not empty returns, it returns
    [self]; every tunable that the mapping names then reads as the value
    given for it, and every other tunable reads as before. *)
Theorem assign_sets_listed_values (s s' : Store) (self r : tgref) (o : TunableGroupsObject)
    (param_values : dict TunableValue) :
  tunable_groups s !! self = Some o →
  param_values ≠ [] →
  NoDup (dict_keys param_values) →
  assign self param_values s = (s', Ok r) →
  r = self
  ∧ tunable_groups s' = tunable_groups s
  ∧ ∀ x, (__getitem__ self x s').2 = match dict_get x param_values with
                                     | Some v => Ok v
                                     | None => (__getitem__ self x s).2
                                     end.
Proof.
  intros Ho Hne Hnd Hrun. destruct param_values as [|kv pv]; [done|].
  unfold assign in Hrun. rewrite bind_run in Hrun.
  destruct (for_ (kv :: pv) _ s) as [s1 [[]|e]] eqn:Hloop; [|done].
  injection Hrun as <- <-. split; [done|]. by apply (assign_loop_values self o (kv :: pv)).
Qed.

Lemma assign_sets_listed_values_witness :
  (__getitem__ 0 "rootfs"
     (assign 0 [("rootfs", Tunable.VStr "ext4"); ("vmSize", Tunable.VStr "Standard_B2s")]
        fixture_store).1).2
  = match dict_get "rootfs" [("rootfs", Tunable.VStr "ext4");
                             ("vmSize", Tunable.VStr "Standard_B2s")] with
    | Some v => Ok v
    | None => (__getitem__ 0 "rootfs" fixture_store).2
    end.
Proof.
  refine (proj2 (proj2 (assign_sets_listed_values fixture_store _ 0 0 fixture_object
                          [("rootfs", Tunable.VStr "ext4");
                           ("vmSize", Tunable.VStr "Standard_B2s")] _ _ _ _)) "rootfs").
  - reflexivity.
  - discriminate.
  - apply (bool_decide_unpack _). vm_compute. reflexivity.
  - vm_compute. reflexivity.
Defined.

(** X5. [assign] stops at the first name that is not in the index: it
    raises [KeyError] for that name, and the values it assigned before
    reaching it stay assigned. *)
Theorem assign_stops_at_unknown_name (s s1 : Store) (self r : tgref)
    (o : TunableGroupsObject) (pre post : dict TunableValue) (x : string) (v : TunableValue) :
  tunable_groups s !! self = Some o →
  pre ≠ [] →
  NoDup (dict_keys pre) →
  assign self pre s = (s1, Ok r) →
  x ∉ dict_keys (_index o) →
  assign self (pre ++ (x, v) :: post) s = (s1, Raise (KeyError x))
  ∧ ∀ y w, dict_get y pre = Some w → __getitem__ self y s1 = (s1, Ok w).
Proof.
  intros Ho Hne Hnd Hrun Hx. destruct pre as [|kv pre]; [done|].
  unfold assign in Hrun. rewrite bind_run in Hrun.
  destruct (for_ (kv :: pre) _ s) as [s2 [[]|e]] eqn:Hloop; [|done].
  injection Hrun as <- <-.
  destruct (assign_loop_values self o (kv :: pre) _ _ Ho Hnd Hloop) as [Htg Hget].
  assert (tunable_groups s2 !! self = Some o) as Ho2 by (by rewrite Htg).
  split.
  - unfold assign. rewrite <- app_comm_cons, bind_run, app_comm_cons, for_app_run, Hloop.
    rewrite for_cons_run, bind_run. cbn [fst snd].
    by rewrite (setitem_unknown _ _ o x v Ho2 (proj2 (dict_get_None _ _) Hx)).
  - intros y w Hy. specialize (Hget y). rewrite Hy in Hget.
    rewrite (getitem_run _ _ _ _ Ho2) in Hget |- *. simpl in Hget. by rewrite Hget.
Qed.

Lemma assign_stops_at_unknown_name_witness :
  assign 0 [("rootfs", Tunable.VStr "ext4"); ("swappiness", Tunable.VInt 60);
            ("vmSize", Tunable.VStr "Standard_B2s")] fixture_store
  = (fixture_changed, Raise (KeyError "swappiness"))
  ∧ ∀ y w, dict_get y [("rootfs", Tunable.VStr "ext4")] = Some w →
           __getitem__ 0 y fixture_changed = (fixture_changed, Ok w).
Proof.
  refine (assign_stops_at_unknown_name fixture_store fixture_changed 0 0 fixture_object
            [("rootfs", Tunable.VStr "ext4")] [("vmSize", Tunable.VStr "Standard_B2s")]
            "swappiness" (Tunable.VInt 60) _ _ _ _ _).
  - reflexivity.
  - discriminate.
  - apply (bool_decide_unpack _). vm_compute. reflexivity.
  - vm_compute. reflexivity.
  - apply (bool_decide_unpack _). vm_compute. reflexivity.
Defined.

(** ** Selections of groups by name *)

Lemma py_or_nonempty (pre post : list string) n b : py_or (Some (pre ++ n :: post)) b = pre ++ n :: post.
Proof. by destruct pre. Qed.

Lemma any_app_clean {S A} (test : A → St S bool) (s : S) l1 l2 :
  (∀ x, x ∈ l1 → test x s = (s, Ok false)) →
  any_ (l1 ++ l2) test s = any_ l2 test s.
Proof.
  induction l1 as [|x l1 IH]; intros H; [done|].
  rewrite <- app_comm_cons. simpl. rewrite bind_run, (H x) by left.
  apply IH. intros y Hy. apply H. by right.
Qed.

Lemma flag_run (s : Store) self o n :
  tunable_groups s !! self = Some o →
  (let* group := group_named self n in
   let* g := group_at group in
   ret (CovariantTunableGroup.is_updated g)) s
  = (s, match dict_get n (_tunable_groups o) with
        | None => Raise (KeyError n)
        | Some l => match groups s !! l with
                    | None => Raise StaleReference
                    | Some g => Ok (CovariantTunableGroup.is_updated g)
                    end
        end).
Proof.
  intros Ho. rewrite bind_run, (group_named_run _ _ _ _ Ho).
  destruct (dict_get n (_tunable_groups o)) as [l|]; [|done].
  rewrite bind_run, group_at_run. by destruct (groups s !! l).
Qed.

(** X6. [is_updated] looks at the groups in the order of the names it is
    given and stops at the first one that is marked as updated: once
    such a group is found the answer is [True] whatever names follow it,
    known or not; a name that is not a group of the collection, reached
    before any updated group, raises [KeyError] for that name.  In both
    cases the store is as it was. *)
Theorem is_updated_stops_at_first_updated_group (s : Store) (self : tgref)
    (o : TunableGroupsObject) (pre post : list string) :
  tunable_groups s !! self = Some o →
  (∀ m, m ∈ pre → ∃ l g, dict_get m (_tunable_groups o) = Some l
                         ∧ groups s !! l = Some g
                         ∧ CovariantTunableGroup.is_updated g = false) →
  (∀ n l g, dict_get n (_tunable_groups o) = Some l → groups s !! l = Some g →
      CovariantTunableGroup.is_updated g = true →
      TunableGroups.is_updated self (Some (pre ++ n :: post)) s = (s, Ok true))
  ∧ (∀ n, n ∉ dict_keys (_tunable_groups o) →
      TunableGroups.is_updated self (Some (pre ++ n :: post)) s = (s, Raise (KeyError n)))
  ∧ (pre ≠ [] → TunableGroups.is_updated self (Some pre) s = (s, Ok false)).
Proof.
  intros Ho Hpre.
  assert (∀ m, m ∈ pre →
            (let* group := group_named self m in
             let* g := group_at group in
             ret (CovariantTunableGroup.is_updated g)) s = (s, Ok false)) as Hclean.
  { intros m Hm. destruct (Hpre m Hm) as (l & g & Hl & Hg & Hflag).
    by rewrite (flag_run _ _ _ _ Ho), Hl, Hg, Hflag. }
  split; [|split].
  - intros n l g Hl Hg Hflag. unfold TunableGroups.is_updated, get_covariant_group_names.
    rewrite !bind_run, (this_ok _ _ _ Ho). cbn [ret]. rewrite py_or_nonempty.
    rewrite (any_app_clean _ s pre (n :: post) Hclean). cbn [any_].
    by rewrite bind_run, (flag_run _ _ _ _ Ho), Hl, Hg, Hflag.
  - intros n Hn%dict_get_None. unfold TunableGroups.is_updated, get_covariant_group_names.
    rewrite !bind_run, (this_ok _ _ _ Ho). cbn [ret]. rewrite py_or_nonempty.
    rewrite (any_app_clean _ s pre (n :: post) Hclean). cbn [any_].
    by rewrite bind_run, (flag_run _ _ _ _ Ho), Hn.
  - intros Hne. unfold TunableGroups.is_updated, get_covariant_group_names.
    rewrite !bind_run, (this_ok _ _ _ Ho). cbn [ret].
    replace (py_or (Some pre) (dict_keys (_tunable_groups o))) with pre
      by (by destruct pre).
    pose proof (any_app_clean
                  (fun m => let* group := group_named self m in
                            let* g := group_at group in
                            ret (CovariantTunableGroup.is_updated g)) s pre [] Hclean) as Hall.
    rewrite app_nil_r in Hall.
    by rewrite Hall.
Qed.

Lemma is_updated_stops_at_first_updated_group_witness :
  TunableGroups.is_updated 0 (Some ["kernel"; "boot"; "disk"])
    (reset 0 (Some ["kernel"]) fixture_changed).1
  = ((reset 0 (Some ["kernel"]) fixture_changed).1, Ok true)
  ∧ TunableGroups.is_updated 0 (Some ["kernel"; "disk"; "boot"])
      (reset 0 (Some ["kernel"]) fixture_changed).1
    = ((reset 0 (Some ["kernel"]) fixture_changed).1, Raise (KeyError "disk")).
Proof.
  pose proof (is_updated_stops_at_first_updated_group
                (reset 0 (Some ["kernel"]) fixture_changed).1 0 fixture_object ["kernel"])
    as H.
  split.
  - refine (proj1 (H ["disk"] _ _) "boot" 1 _ _ _ _).
    + reflexivity.
    + intros m ->%list_elem_of_singleton. eexists 2, _. vm_compute. done.
    + reflexivity.
    + vm_compute. reflexivity.
    + reflexivity.
  - refine (proj1 (proj2 (H ["boot"] _ _)) "disk" _).
    + reflexivity.
    + intros m ->%list_elem_of_singleton. eexists 2, _. vm_compute. done.
    + apply (bool_decide_unpack _). vm_compute. reflexivity.
Defined.

Lemma update_names_run f self o : ∀ (names : list string) (s : Store),
  tunable_groups s !! self = Some o →
  (∀ m, m ∈ names → ∃ l, dict_get m (_tunable_groups o) = Some l ∧ l < length (groups s)) →
  for_ names (fun name =>
      let* group := group_named self name in
      let* g := group_at group in
      put_group group (f g)) s
  = (mk_store (update_all f (omap (fun m => dict_get m (_tunable_groups o)) names) (groups s))
       (tunable_groups s), Ok tt).
Proof.
  induction names as [|m names IH]; intros s Ho Hnames.
  - simpl. unfold ret. by rewrite store_eta.
  - destruct (Hnames m) as (l & Hl & Hlt); [left|].
    destruct (lookup_lt_is_Some_2 _ _ Hlt) as [g Hg].
    rewrite for_cons_run, !bind_run, (group_named_ok _ _ _ _ _ Ho Hl).
    rewrite bind_run, (group_at_ok _ _ _ Hg), (put_group_alter _ _ _ f Hg).
    rewrite IH; [|done|].
    + cbn [omap list_omap]. rewrite Hl. done.
    + intros m' Hm'. destruct (Hnames m') as (l' & Hl' & Hlt'); [by right|].
      exists l'. split; [done|]. simpl. by rewrite length_alter.
Qed.

Lemma known_group_allocated s o m :
  allocated s o → m ∈ dict_keys (_tunable_groups o) →
  ∃ l, dict_get m (_tunable_groups o) = Some l ∧ l < length (groups s).
Proof.
  intros Ha Hm. destruct (dict_get m (_tunable_groups o)) as [l|] eqn:Hl.
  - exists l. split; [done|]. by apply (allocated_entries s o m l Ha), dict_get_elem.
  - by apply dict_get_None in Hl.
Qed.

Lemma update_stops_at_unknown f self o (s : Store) pre n post :
  tunable_groups s !! self = Some o → allocated s o →
  (∀ m, m ∈ pre → m ∈ dict_keys (_tunable_groups o)) →
  n ∉ dict_keys (_tunable_groups o) →
  for_ (pre ++ n :: post) (fun name =>
      let* group := group_named self name in
      let* g := group_at group in
      put_group group (f g)) s
  = (mk_store (update_all f (omap (fun m => dict_get m (_tunable_groups o)) pre) (groups s))
       (tunable_groups s), Raise (KeyError n)).
Proof.
  intros Ho Ha Hpre Hn%dict_get_None.
  rewrite for_app_run, (update_names_run f self o pre s Ho).
  - rewrite for_cons_run, !bind_run.
    by rewrite (group_named_run (mk_store _ _) self o n Ho), Hn.
  - intros m Hm. by apply known_group_allocated, Hpre.
Qed.

(** X7. [restore_defaults] and [reset] work through the names they are
    given in order and stop at the first one that is not a group of the
    collection: they raise [KeyError] for that name, and the groups
    named before it have by then been restored, or reset, and stay so;
    no other group is written. *)
Theorem selection_stops_at_unknown_group (s : Store) (self : tgref)
    (o : TunableGroupsObject) (pre post : list string) (n : string) :
  tunable_groups s !! self = Some o →
  allocated s o →
  (∀ m, m ∈ pre → m ∈ dict_keys (_tunable_groups o)) →
  n ∉ dict_keys (_tunable_groups o) →
  (TunableGroups.restore_defaults self (Some (pre ++ n :: post)) s).2 = Raise (KeyError n)
  ∧ (reset self (Some (pre ++ n :: post)) s).2 = Raise (KeyError n)
  ∧ tunable_groups (TunableGroups.restore_defaults self (Some (pre ++ n :: post)) s).1
    = tunable_groups s
  ∧ tunable_groups (reset self (Some (pre ++ n :: post)) s).1 = tunable_groups s
  ∧ ∀ l, groups (TunableGroups.restore_defaults self (Some (pre ++ n :: post)) s).1 !! l
         = (if decide (l ∈ omap (fun m => dict_get m (_tunable_groups o)) pre)
            then CovariantTunableGroup.restore_defaults <$> groups s !! l
            else groups s !! l)
         ∧ groups (reset self (Some (pre ++ n :: post)) s).1 !! l
           = (if decide (l ∈ omap (fun m => dict_get m (_tunable_groups o)) pre)
              then reset_is_updated <$> groups s !! l
              else groups s !! l).
Proof.
  intros Ho Ha Hpre Hn.
  assert (TunableGroups.restore_defaults self (Some (pre ++ n :: post)) s
          = (mk_store (update_all CovariantTunableGroup.restore_defaults
                         (omap (fun m => dict_get m (_tunable_groups o)) pre) (groups s))
               (tunable_groups s), Raise (KeyError n))) as ->.
  { unfold TunableGroups.restore_defaults, get_covariant_group_names.
    rewrite !bind_run, (this_ok _ _ _ Ho). cbn [ret]. rewrite py_or_nonempty, bind_run.
    by rewrite (update_stops_at_unknown CovariantTunableGroup.restore_defaults self o s pre n post Ho Ha Hpre Hn). }
  assert (reset self (Some (pre ++ n :: post)) s
          = (mk_store (update_all reset_is_updated
                         (omap (fun m => dict_get m (_tunable_groups o)) pre) (groups s))
               (tunable_groups s), Raise (KeyError n))) as ->.
  { unfold reset, get_covariant_group_names.
    rewrite !bind_run, (this_ok _ _ _ Ho). cbn [ret]. rewrite py_or_nonempty, bind_run.
    by rewrite (update_stops_at_unknown reset_is_updated self o s pre n post Ho Ha Hpre Hn). }
  cbn [fst snd groups tunable_groups]. repeat (split; [done|]).
  intros l. split; apply update_all_lookup.
  - apply restore_defaults_twice.
  - apply reset_is_updated_twice.
Qed.

Lemma selection_stops_at_unknown_group_witness :
  (TunableGroups.restore_defaults 0 (Some ["boot"; "disk"; "kernel"]) fixture_changed).2
  = Raise (KeyError "disk")
  ∧ __getitem__ 0 "rootfs"
      (TunableGroups.restore_defaults 0 (Some ["boot"; "disk"; "kernel"]) fixture_changed).1
    = ((TunableGroups.restore_defaults 0 (Some ["boot"; "disk"; "kernel"]) fixture_changed).1,
       Ok (Tunable.VStr "xfs")).
Proof.
  split.
  - refine (proj1 (selection_stops_at_unknown_group fixture_changed 0 fixture_object
                     ["boot"] ["kernel"] "disk" _ _ _ _)).
    + reflexivity.
    + apply allocatedb_sound. vm_compute. reflexivity.
    + intros m ->%list_elem_of_singleton. apply (bool_decide_unpack _). vm_compute. reflexivity.
    + apply (bool_decide_unpack _). vm_compute. reflexivity.
  - vm_compute. reflexivity.
Defined.

(** ** [reset] *)

Section SameValues.
Context (s1 s2 : Store) (self : tgref) (o : TunableGroupsObject).
Hypothesis Hs1 : tunable_groups s1 !! self = Some o.
Hypothesis Hs2 : tunable_groups s2 !! self = Some o.
Hypothesis Hvalues : ∀ l, _tunables <$> groups s2 !! l = _tunables <$> groups s1 !! l.

Lemma same_values_cases l :
  (groups s2 !! l = None ∧ groups s1 !! l = None)
  ∨ ∃ g2 g1, groups s2 !! l = Some g2 ∧ groups s1 !! l = Some g1
             ∧ _tunables g2 = _tunables g1.
Proof.
  specialize (Hvalues l).
  destruct (groups s2 !! l) as [g2|], (groups s1 !! l) as [g1|]; simpl in Hvalues;
    try done; [|by left].
  right. exists g2, g1. by injection Hvalues as ->.
Qed.

Lemma collect_values_same : ∀ names into,
  (collect_values self names into s2).2 = (collect_values self names into s1).2.
Proof.
  induction names as [|n names IH]; intros into; simpl; [done|].
  rewrite !bind_run, (group_named_run _ _ _ _ Hs1), (group_named_run _ _ _ _ Hs2).
  destruct (dict_get n (_tunable_groups o)) as [l|] eqn:Hl; [|done].
  rewrite !bind_run, !group_at_run.
  destruct (same_values_cases l) as [[-> ->]|(g2 & g1 & -> & -> & Heq)]; [done|].
  unfold get_tunable_values_dict. rewrite Heq. apply IH.
Qed.

Lemma getitem_same x : (__getitem__ self x s2).2 = (__getitem__ self x s1).2.
Proof.
  rewrite (getitem_run _ _ _ x Hs1), (getitem_run _ _ _ x Hs2). simpl.
  destruct (dict_get x (_index o)) as [l|]; [|done].
  destruct (same_values_cases l) as [[-> ->]|(g2 & g1 & -> & -> & Heq)]; [done|].
  unfold CovariantTunableGroup.__getitem__. by rewrite Heq.
Qed.

Lemma is_defaults_same : (is_defaults self s2).2 = (is_defaults self s1).2.
Proof.
  unfold is_defaults. rewrite !bind_run, (this_ok _ _ _ Hs1), (this_ok _ _ _ Hs2).
  induction (dict_values (_tunable_groups o)) as [|l ls IH]; simpl; [done|].
  rewrite !bind_run, !group_at_run.
  destruct (same_values_cases l) as [[-> ->]|(g2 & g1 & -> & -> & Heq)]; [done|]. simpl.
  unfold CovariantTunableGroup.is_defaults, get_tunables. rewrite Heq.
  destruct (forallb _ _); [apply IH | done].
Qed.

End SameValues.

(** X8. [reset()] returns [self] and clears the update flag of every
    group: [is_updated()] is false right after it.  It writes nothing
    else: all tunables read as before, [get_param_values()] and
    [is_defaults()] give what they gave, and no collection changes. *)
Theorem reset_clears_flags_keeps_values (s : Store) (self : tgref) (o : TunableGroupsObject) :
  tunable_groups s !! self = Some o →
  allocated s o →
  (reset self None s).2 = Ok self
  ∧ tunable_groups (reset self None s).1 = tunable_groups s
  ∧ TunableGroups.is_updated self None (reset self None s).1
    = ((reset self None s).1, Ok false)
  ∧ (∀ x, (__getitem__ self x (reset self None s).1).2 = (__getitem__ self x s).2)
  ∧ (∀ names into,
       (get_param_values self names into (reset self None s).1).2
       = (get_param_values self names into s).2)
  ∧ (is_defaults self (reset self None s).1).2 = (is_defaults self s).2.
Proof.
  intros Ho Ha.
  assert (reset self None s
          = (mk_store (update_all reset_is_updated (dict_values (_tunable_groups o)) (groups s))
               (tunable_groups s), Ok self)) as ->.
  { unfold reset, get_covariant_group_names.
    rewrite !bind_run, (this_ok _ _ _ Ho). cbn [ret py_or]. rewrite bind_run.
    by rewrite (update_groups_run reset_is_updated s self o Ho Ha). }
  cbn [fst snd].
  set (s' := mk_store _ _).
  assert (tunable_groups s' !! self = Some o) as Ho' by done.
  assert (∀ l, groups s' !! l
               = if decide (l ∈ dict_values (_tunable_groups o))
                 then reset_is_updated <$> groups s !! l else groups s !! l) as Hlook.
  { intros l. apply update_all_lookup, reset_is_updated_twice. }
  assert (∀ l, _tunables <$> groups s' !! l = _tunables <$> groups s !! l) as Hvalues.
  { intros l. rewrite Hlook. destruct (decide _); [|done]. by destruct (groups s !! l). }
  split; [done|]. split; [done|]. split; [|split; [|split]].
  - rewrite (is_updated_all_run s' self o Ho').
    + f_equal. f_equal. apply not_true_is_false. intros (kl & Hin & Hd)%existsb_exists.
      apply list_elem_of_In in Hin. unfold dirty in Hd. rewrite Hlook in Hd.
      destruct (decide _) as [_|Hno].
      * by destruct (groups s !! kl.2).
      * apply Hno. destruct kl as [k l]. by apply (dict_get_value k), dict_get_nodup; [apply Ha|].
    + intros k l Hin. unfold s'. simpl. rewrite length_update_all.
      by apply allocated_entries.
  - intros x. by apply (getitem_same s s' self o).
  - intros names into. unfold get_param_values, get_covariant_group_names.
    rewrite !bind_run, (this_ok _ _ _ Ho), (this_ok _ _ _ Ho'). cbn [ret].
    by apply (collect_values_same s s' self o).
  - by apply (is_defaults_same s s' self o).
Qed.

Lemma reset_clears_flags_keeps_values_witness :
  TunableGroups.is_updated 0 None fixture_changed = (fixture_changed, Ok true)
  ∧ TunableGroups.is_updated 0 None (reset 0 None fixture_changed).1
    = ((reset 0 None fixture_changed).1, Ok false)
  ∧ (__getitem__ 0 "rootfs" (reset 0 None fixture_changed).1).2 = Ok (Tunable.VStr "ext4").
Proof.
  pose proof (reset_clears_flags_keeps_values fixture_changed 0 fixture_object) as H.
  refine ((fun H' => conj _ (conj (proj1 (proj2 (proj2 H'))) _)) (H _ _)).
  - vm_compute. reflexivity.
  - rewrite (proj1 (proj2 (proj2 (proj2 H'))) "rootfs"). vm_compute. reflexivity.
  - reflexivity.
  - apply allocatedb_sound. vm_compute. reflexivity.
Defined.

(** ** The index and the groups *)

Lemma keyed_group_names g :
  keyed_group g = true → dict_keys (_tunables g) = tunable_names g.
Proof.
  unfold keyed_group, tunable_names, get_tunables, dict_keys, dict_values.
  induction (_tunables g) as [|[k t] d IH]; simpl; [done|].
  intros [Hk Hd]%andb_prop. apply String.eqb_eq in Hk. subst k. by rewrite IH.
Qed.

Lemma keyed_group_name g x t :
  keyed_group g = true → dict_get x (_tunables g) = Some t → Tunable.name t = x.
Proof.
  intros Hk Hx%dict_get_elem. unfold keyed_group in Hk.
  pose proof (forallb_elem _ _ _ Hk Hx) as H. simpl in H. by apply String.eqb_eq in H.
Qed.

Lemma dict_get_known {V} k (d : dict V) : k ∈ dict_keys d → ∃ v, dict_get k d = Some v.
Proof.
  intros Hk. destruct (dict_get k d) as [v|] eqn:Hv; [by exists v|].
  by apply dict_get_None in Hv.
Qed.

Section Indexed.
Context (s : Store) (self : tgref) (o : TunableGroupsObject).
Hypothesis Ho : tunable_groups s !! self = Some o.
Hypothesis Hc : consistent s o.
Hypothesis Hk : keyed s o = true.

Lemma keyed_entry k l g :
  (k, l) ∈ _tunable_groups o → groups s !! l = Some g → keyed_group g = true.
Proof.
  intros Hin Hg. pose proof (forallb_elem _ _ _ Hk Hin) as H. simpl in H. by rewrite Hg in H.
Qed.

Lemma indexed_lookup x l :
  dict_get x (_index o) = Some l →
  ∃ g t, groups s !! l = Some g ∧ dict_get x (_tunables g) = Some t ∧ Tunable.name t = x.
Proof.
  intros Hl. destruct (index_sound _ _ Hc x l (dict_get_elem _ _ _ Hl)) as (k & g & Hin & Hg & Hx).
  pose proof (keyed_entry k l g Hin Hg) as Hkg.
  rewrite <- (keyed_group_names g Hkg) in Hx.
  destruct (dict_get_known _ _ Hx) as [t Ht].
  exists g, t. split; [done|]. split; [done|]. by apply (keyed_group_name g).
Qed.

Lemma member_indexed k l g x t :
  (k, l) ∈ _tunable_groups o → groups s !! l = Some g → dict_get x (_tunables g) = Some t →
  dict_get x (_index o) = Some l.
Proof.
  intros Hin Hg Ht. apply dict_get_nodup; [apply Hc|]. apply (index_complete _ _ Hc).
  exists k, g. split; [done|]. split; [done|].
  rewrite <- (keyed_group_names g (keyed_entry k l g Hin Hg)).
  by apply (dict_keys_elem x t), dict_get_elem.
Qed.

End Indexed.

(** X9. In a collection that satisfies the class invariant, every name
    of the index is found: [__contains__] is true, [get_tunable] returns
    the tunable of that name with its group, and [__getitem__] returns
    the current value of that very tunable.  None of them raises. *)
Theorem indexed_tunables_are_found (s : Store) (self : tgref) (o : TunableGroupsObject)
    (x : string) :
  tunable_groups s !! self = Some o →
  consistent s o →
  keyed s o = true →
  x ∈ dict_keys (_index o) →
  ∃ l t,
    __contains__ self x s = (s, Ok true)
    ∧ get_tunable self x s = (s, Ok (t, l))
    ∧ Tunable.name t = x
    ∧ __getitem__ self x s = (s, Ok (Tunable.value t))
    ∧ ∃ k, (k, l) ∈ _tunable_groups o.
Proof.
  intros Ho Hc Hk Hx. destruct (dict_get_known _ _ Hx) as [l Hl].
  destruct (indexed_lookup s o Hc Hk x l Hl) as (g & t & Hg & Ht & Hname).
  exists l, t. split; [|split; [|split; [|split]]].
  - rewrite (contains_run _ _ _ _ Ho). unfold dict_contains. by rewrite Hl.
  - rewrite (get_tunable_run _ _ _ _ Ho), Hl, Hg.
    unfold CovariantTunableGroup.get_tunable. by rewrite Ht.
  - done.
  - rewrite (getitem_run _ _ _ _ Ho), Hl, Hg.
    unfold CovariantTunableGroup.__getitem__. by rewrite Ht.
  - destruct (index_sound _ _ Hc x l (dict_get_elem _ _ _ Hl)) as (k & _ & Hin & _).
    by exists k.
Qed.

Lemma indexed_tunables_are_found_witness :
  ∃ l t, __contains__ 0 "rootfs" fixture_changed = (fixture_changed, Ok true)
         ∧ get_tunable 0 "rootfs" fixture_changed = (fixture_changed, Ok (t, l))
         ∧ Tunable.name t = "rootfs"
         ∧ __getitem__ 0 "rootfs" fixture_changed = (fixture_changed, Ok (Tunable.value t))
         ∧ ∃ k, (k, l) ∈ _tunable_groups fixture_object.
Proof.
  refine (indexed_tunables_are_found fixture_changed 0 fixture_object "rootfs" _ _ _ _).
  - reflexivity.
  - apply consistentb_sound. vm_compute. reflexivity.
  - vm_compute. reflexivity.
  - apply (bool_decide_unpack _). vm_compute. reflexivity.
Defined.

Lemma iter_index_run (s : Store) : ∀ (d : dict gref),
  (∀ n l, (n, l) ∈ d →
     ∃ g t, groups s !! l = Some g ∧ dict_get n (_tunables g) = Some t ∧ Tunable.name t = n) →
  ∃ pairs,
    iter_index d s = (s, Ok pairs)
    ∧ map (fun p => (Tunable.name p.1, p.2)) pairs = d
    ∧ ∀ t l, (t, l) ∈ pairs →
        ∃ g, groups s !! l = Some g ∧ dict_get (Tunable.name t) (_tunables g) = Some t.
Proof.
  induction d as [|[n l] d IH]; intros Hd.
  - exists []. split; [done|]. split; [done|]. intros t l H. by apply elem_of_nil in H.
  - destruct (Hd n l) as (g & t & Hg & Ht & Hname); [left|].
    destruct IH as (pairs & Hrun & Hmap & Hpairs); [intros n' l' H; apply Hd; by right|].
    exists ((t, l) :: pairs). split; [|split].
    + simpl. rewrite bind_run, (group_at_ok _ _ _ Hg), bind_run.
      unfold lift_result, CovariantTunableGroup.get_tunable. rewrite Ht.
      by rewrite bind_run, Hrun.
    + simpl. by rewrite Hmap, Hname.
    + intros t' l' [[= -> ->]|Hin]%elem_of_cons; [|by apply Hpairs].
      exists g. by rewrite Hname.
Qed.

(** X10. Iterating over a collection that satisfies the class invariant
    never fails and leaves the store alone: it yields one pair per entry
    of the index, in the order of the index, each made of the tunable of
    that name and the group that the index gives for it; as many pairs
    as [len] counts; and each pair is what [get_tunable] returns for the
    name of its tunable. *)
Theorem iteration_yields_every_tunable (s : Store) (self : tgref) (o : TunableGroupsObject) :
  tunable_groups s !! self = Some o →
  consistent s o →
  keyed s o = true →
  ∃ pairs,
    TunableGroups.__iter__ self s = (s, Ok pairs)
    ∧ map (fun p => (Tunable.name p.1, p.2)) pairs = _index o
    ∧ __len__ self s = (s, Ok (length pairs))
    ∧ ∀ p, p ∈ pairs → get_tunable self (Tunable.name p.1) s = (s, Ok p).
Proof.
  intros Ho Hc Hk.
  destruct (iter_index_run s (_index o)) as (pairs & Hrun & Hmap & Hpairs).
  { intros n l Hin. apply (indexed_lookup s o Hc Hk).
    apply dict_get_nodup; [apply Hc | done]. }
  exists pairs. split; [|split; [|split]].
  - unfold TunableGroups.__iter__. by rewrite bind_run, (this_ok _ _ _ Ho).
  - done.
  - unfold __len__. rewrite bind_run, (this_ok _ _ _ Ho). cbn [ret].
    by rewrite <- Hmap, length_map.
  - intros [t l] Hin. destruct (Hpairs t l Hin) as (g & Hg & Ht).
    assert (dict_get (Tunable.name t) (_index o) = Some l) as Hl.
    { apply dict_get_nodup; [apply Hc|]. rewrite <- Hmap, map_fmap.
      by apply (list_elem_of_fmap_2 (fun p => (Tunable.name p.1, p.2)) _ (t, l)). }
    rewrite (get_tunable_run _ _ _ _ Ho). cbn [fst]. rewrite Hl, Hg.
    unfold CovariantTunableGroup.get_tunable. by rewrite Ht.
Qed.

Lemma iteration_yields_every_tunable_witness :
  ∃ pairs,
    TunableGroups.__iter__ 0 fixture_changed = (fixture_changed, Ok pairs)
    ∧ map (fun p => (Tunable.name p.1, p.2)) pairs = _index fixture_object
    ∧ __len__ 0 fixture_changed = (fixture_changed, Ok (length pairs))
    ∧ ∀ p, p ∈ pairs → get_tunable 0 (Tunable.name p.1) fixture_changed = (fixture_changed, Ok p).
Proof.
  refine (iteration_yields_every_tunable fixture_changed 0 fixture_object _ _ _).
  - reflexivity.
  - apply consistentb_sound. vm_compute. reflexivity.
  - vm_compute. reflexivity.
Defined.

(** ** [get_param_values] *)

Lemma fold_set_get {V} (vs : dict V) : ∀ (acc : dict V) x,
  NoDup (dict_keys vs) →
  dict_get x (fold_left (fun d kv => dict_set kv.1 kv.2 d) vs acc)
  = match dict_get x vs with Some v => Some v | None => dict_get x acc end.
Proof.
  induction vs as [|[k v] vs IH]; intros acc x Hnd; [done|].
  assert ((k ∉ dict_keys vs) ∧ NoDup (dict_keys vs)) as [Hk Hnd'].
  { by apply NoDup_cons in Hnd. }
  cbn [fold_left fst snd]. rewrite IH by done. simpl.
  destruct (String.eqb_spec x k) as [->|Hne].
  - apply dict_get_None in Hk. by rewrite Hk, dict_get_set_eq.
  - destruct (dict_get x vs); [done|]. by rewrite dict_get_set_ne.
Qed.

Lemma dict_set_keys {V} k (v : V) d :
  dict_keys (dict_set k v d) = if dict_contains k d then dict_keys d else dict_keys d ++ [k].
Proof.
  unfold dict_contains. induction d as [|[k' v'] d IH]; simpl; [done|].
  destruct (String.eqb_spec k k') as [->|Hne]; [done|]. simpl. rewrite IH.
  by destruct (dict_get k d).
Qed.

Lemma dict_set_nodup {V} k (v : V) d : NoDup (dict_keys d) → NoDup (dict_keys (dict_set k v d)).
Proof.
  intros Hnd. rewrite dict_set_keys. destruct (dict_contains k d) eqn:Hk; [done|].
  apply NoDup_app. split; [done|]. split; [|apply NoDup_singleton].
  intros x Hx ->%list_elem_of_singleton.
  apply dict_contains_false, dict_get_None in Hk. done.
Qed.

Lemma fold_set_nodup {V} (vs : dict V) : ∀ acc,
  NoDup (dict_keys acc) →
  NoDup (dict_keys (fold_left (fun d kv => dict_set kv.1 kv.2 d) vs acc)).
Proof.
  induction vs as [|[k v] vs IH]; intros acc Hnd; [done|]. simpl. by apply IH, dict_set_nodup.
Qed.

Lemma values_dict_get x g :
  dict_get x (get_tunable_values_dict g) = Tunable.value <$> dict_get x (_tunables g).
Proof.
  unfold get_tunable_values_dict. induction (_tunables g) as [|[k t] d IH]; simpl; [done|].
  by destruct (String.eqb x k).
Qed.

Lemma values_dict_keys g : dict_keys (get_tunable_values_dict g) = dict_keys (_tunables g).
Proof. unfold get_tunable_values_dict, dict_keys. rewrite map_map. done. Qed.

Lemma collect_values_app self : ∀ (n1 n2 : list string) acc (s : Store),
  collect_values self (n1 ++ n2) acc s
  = match collect_values self n1 acc s with
    | (s1, Ok p) => collect_values self n2 p s1
    | (s1, Raise e) => (s1, Raise e)
    end.
Proof.
  induction n1 as [|n n1 IH]; intros n2 acc s; [done|].
  rewrite <- app_comm_cons. cbn [collect_values]. rewrite !bind_run.
  destruct (group_named self n s) as [s1 [l|e]]; [|done]. rewrite !bind_run.
  destruct (group_at l s1) as [s2 [g|e]]; [|done]. apply IH.
Qed.

Lemma collect_values_nodup self : ∀ (names : list string) acc (s s' : Store) params,
  NoDup (dict_keys acc) →
  collect_values self names acc s = (s', Ok params) → NoDup (dict_keys params).
Proof.
  induction names as [|n names IH]; intros acc s s' params Hnd.
  - simpl. by intros [= _ <-].
  - cbn [collect_values]. rewrite !bind_run.
    destruct (group_named self n s) as [s1 [l|e]]; [|done]. rewrite !bind_run.
    destruct (group_at l s1) as [s2 [g|e]]; [|done]. apply IH. by apply fold_set_nodup.
Qed.

Section ParamValues.
Context (s : Store) (self : tgref) (o : TunableGroupsObject).
Hypothesis Ho : tunable_groups s !! self = Some o.
Hypothesis Hc : consistent s o.
Hypothesis Hk : keyed s o = true.

Lemma collect_values_spec : ∀ (d rest : dict gref),
  _tunable_groups o = d ++ rest →
  ∃ params,
    collect_values self (dict_keys d) [] s = (s, Ok params)
    ∧ ∀ x v, dict_get x params = Some v
             ↔ ∃ k l g t, (k, l) ∈ d ∧ groups s !! l = Some g
                          ∧ dict_get x (_tunables g) = Some t ∧ v = Tunable.value t.
Proof.
  induction d as [|[k l] d IH] using rev_ind; intros rest Hsplit.
  - exists []. split; [done|]. intros x v. split; [done|].
    intros (k & l & g & t & Hin & _). by apply elem_of_nil in Hin.
  - rewrite <- app_assoc in Hsplit. destruct (IH _ Hsplit) as (params' & Hrun & Hspec).
    assert ((k, l) ∈ _tunable_groups o) as Hin.
    { rewrite Hsplit. apply elem_of_app. right. left. }
    assert (∀ k' l', (k', l') ∈ d → (k', l') ∈ _tunable_groups o) as Hsub.
    { intros k' l' H. rewrite Hsplit. apply elem_of_app. by left. }
    destruct (groups_named _ _ Hc k l Hin) as (g & Hg & Hname & Hnd).
    pose proof (keyed_entry s o Hk k l g Hin Hg) as Hkg.
    rewrite <- (keyed_group_names g Hkg), <- values_dict_keys in Hnd.
    eexists. split.
    + rewrite dict_keys_app, collect_values_app, Hrun. cbn [dict_keys map collect_values fst].
      rewrite bind_run, (group_named_ok _ _ _ _ _ Ho (proj1 (consistent_entries _ _ _ _ Hc Hin))).
      rewrite bind_run, (group_at_ok _ _ _ Hg). reflexivity.
    + intros x v. rewrite (fold_set_get _ _ _ Hnd), values_dict_get. split.
      * destruct (dict_get x (_tunables g)) as [t|] eqn:Ht; simpl.
        -- intros [= <-]. exists k, l, g, t. split; [|done]. apply elem_of_app. right. left.
        -- intros (k' & l' & g' & t' & Hin' & Hrest)%Hspec.
           exists k', l', g', t'. split; [|done]. apply elem_of_app. by left.
      * intros (k' & l' & g' & t' & Hin' & Hg' & Ht' & ->).
        assert ((k', l') ∈ _tunable_groups o) as Hin''.
        { apply elem_of_app in Hin' as [H|[= -> ->]%list_elem_of_singleton]; [by apply Hsub | done]. }
        destruct (dict_get x (_tunables g)) as [t|] eqn:Ht; simpl.
        -- pose proof (member_indexed s o Hc Hk k l g x t Hin Hg Ht) as H1.
           pose proof (member_indexed s o Hc Hk k' l' g' x t' Hin'' Hg' Ht') as H2.
           rewrite H1 in H2. injection H2 as <-. rewrite Hg in Hg'. injection Hg' as <-.
           rewrite Ht in Ht'. by injection Ht' as <-.
        -- apply Hspec. exists k', l', g', t'. split; [|done].
           apply elem_of_app in Hin' as [H|[= -> ->]%list_elem_of_singleton]; [done|].
           rewrite Hg in Hg'. injection Hg' as <-. by rewrite Ht in Ht'.
Qed.

End ParamValues.

(** X11. On a collection that satisfies the class invariant,
    [get_param_values()] returns, without writing anything, a dictionary
    that binds exactly the names of the index, each once, and binds each
    to the value that [__getitem__] returns for it. *)
Theorem param_values_are_current_values (s : Store) (self : tgref)
    (o : TunableGroupsObject) :
  tunable_groups s !! self = Some o →
  consistent s o →
  keyed s o = true →
  ∃ params,
    get_param_values self None None s = (s, Ok params)
    ∧ (∀ x v, dict_get x params = Some v ↔ __getitem__ self x s = (s, Ok v))
    ∧ dict_keys params ≡ₚ dict_keys (_index o).
Proof.
  intros Ho Hc Hk.
  destruct (collect_values_spec s self o Ho Hc Hk (_tunable_groups o) [])
    as (params & Hrun & Hspec); [by rewrite app_nil_r|].
  assert (get_param_values self None None s = (s, Ok params)) as Hget.
  { unfold get_param_values, get_covariant_group_names.
    by rewrite !bind_run, (this_ok _ _ _ Ho). }
  assert (∀ x v, dict_get x params = Some v ↔ __getitem__ self x s = (s, Ok v)) as Hvalues.
  { intros x v. rewrite Hspec, (getitem_run _ _ _ _ Ho). split.
    - intros (k & l & g & t & Hin & Hg & Ht & ->).
      rewrite (member_indexed s o Hc Hk k l g x t Hin Hg Ht), Hg.
      unfold CovariantTunableGroup.__getitem__. by rewrite Ht.
    - destruct (dict_get x (_index o)) as [l|] eqn:Hl; [|done].
      destruct (index_sound _ _ Hc x l (dict_get_elem _ _ _ Hl)) as (k & g & Hin & Hg & _).
      rewrite Hg. unfold CovariantTunableGroup.__getitem__.
      destruct (dict_get x (_tunables g)) as [t|] eqn:Ht; [|done].
      intros [= <-]. by exists k, l, g, t. }
  exists params. split; [done|]. split; [done|].
  apply NoDup_Permutation.
  - by apply (collect_values_nodup self (dict_keys (_tunable_groups o)) [] s s params);
      [apply NoDup_nil|].
  - apply Hc.
  - intros x. split.
    + intros [v Hv]%dict_get_known. apply Hvalues in Hv.
      rewrite (getitem_run _ _ _ _ Ho) in Hv.
      destruct (dict_get x (_index o)) as [l|] eqn:Hl; [|done].
      by apply (dict_keys_elem x l), dict_get_elem.
    + intros [l Hl]%dict_get_known.
      destruct (indexed_lookup s o Hc Hk x l Hl) as (g & t & Hg & Ht & _).
      apply (dict_keys_elem x (Tunable.value t)), dict_get_elem, Hvalues.
      rewrite (getitem_run _ _ _ _ Ho), Hl, Hg.
      unfold CovariantTunableGroup.__getitem__. by rewrite Ht.
Qed.

Lemma param_values_are_current_values_witness :
  ∃ params,
    get_param_values 0 None None fixture_changed = (fixture_changed, Ok params)
    ∧ (∀ x v, dict_get x params = Some v ↔ __getitem__ 0 x fixture_changed = (fixture_changed, Ok v))
    ∧ dict_keys params ≡ₚ dict_keys (_index fixture_object).
Proof.
  refine (param_values_are_current_values fixture_changed 0 fixture_object _ _ _).
  - reflexivity.
  - apply consistentb_sound. vm_compute. reflexivity.
  - vm_compute. reflexivity.
Defined.

(** ** [__len__] and [__bool__] *)

Section Sizes.
Context (s : Store) (o : TunableGroupsObject).
Hypothesis Hc : consistent s o.

Lemma owned_once k1 k2 l1 l2 g1 g2 x :
  (k1, l1) ∈ _tunable_groups o → (k2, l2) ∈ _tunable_groups o →
  groups s !! l1 = Some g1 → groups s !! l2 = Some g2 →
  x ∈ tunable_names g1 → x ∈ tunable_names g2 → k1 = k2.
Proof.
  intros H1 H2 Hg1 Hg2 Hx1 Hx2.
  assert (dict_get x (_index o) = Some l1) as Hl1.
  { apply dict_get_nodup; [apply Hc|]. apply (index_complete _ _ Hc). by exists k1, g1. }
  assert (dict_get x (_index o) = Some l2) as Hl2.
  { apply dict_get_nodup; [apply Hc|]. apply (index_complete _ _ Hc). by exists k2, g2. }
  rewrite Hl1 in Hl2. injection Hl2 as <-.
  destruct (groups_named _ _ Hc k1 l1 H1) as (g & Hg & <- & _).
  destruct (groups_named _ _ Hc k2 l1 H2) as (g' & Hg' & <- & _).
  rewrite Hg in Hg'. by injection Hg' as <-.
Qed.

Lemma names_of_groups : ∀ (d : dict gref),
  NoDup (dict_keys d) →
  (∀ k l, (k, l) ∈ d → (k, l) ∈ _tunable_groups o) →
  ∃ names,
    NoDup names
    ∧ length names = sum_list (map (fun kl => group_size s kl.2) d)
    ∧ ∀ x, x ∈ names ↔ ∃ k l g, (k, l) ∈ d ∧ groups s !! l = Some g ∧ x ∈ tunable_names g.
Proof.
  induction d as [|[k l] d IH]; intros Hnd Hsub.
  - exists []. split; [apply NoDup_nil_2|]. split; [done|]. intros x. split.
    + intros H. by apply elem_of_nil in H.
    + intros (k & l & g & H & _). by apply elem_of_nil in H.
  - assert ((k ∉ dict_keys d) ∧ NoDup (dict_keys d)) as [Hk Hnd'].
    { by apply NoDup_cons in Hnd. }
    destruct IH as (names & Hnames & Hlen & Hmem); [done | intros k' l' H; apply Hsub; by right|].
    destruct (groups_named _ _ Hc k l) as (g & Hg & Hname & Hgnd); [apply Hsub; left|].
    exists (tunable_names g ++ names). split; [|split].
    + apply NoDup_app. split; [done|]. split; [|done].
      intros x Hx (k' & l' & g' & Hin' & Hg' & Hx')%Hmem.
      apply Hk. rewrite (owned_once k k' l l' g g' x); try done.
      * by apply (dict_keys_elem k' l').
      * apply Hsub. left.
      * apply Hsub. by right.
    + rewrite length_app, Hlen. cbn [map sum_list snd]. unfold group_size at 2. rewrite Hg.
      unfold tunable_names. by rewrite length_map.
    + intros x. rewrite elem_of_app, Hmem. split.
      * intros [Hx|(k' & l' & g' & Hin' & Hrest)].
        -- exists k, l, g. split; [left | done].
        -- exists k', l', g'. split; [by right | done].
      * intros (k' & l' & g' & [[= -> ->]|Hin']%elem_of_cons & Hg' & Hx').
        -- left. rewrite Hg in Hg'. by injection Hg' as <-.
        -- right. by exists k', l', g'.
Qed.

Lemma index_size :
  length (_index o) = sum_list (map (fun kl => group_size s kl.2) (_tunable_groups o)).
Proof.
  destruct (names_of_groups (_tunable_groups o)) as (names & Hnd & Hlen & Hmem);
    [apply Hc | done |].
  rewrite <- Hlen, <- (length_map fst (_index o)).
  apply Permutation_length, NoDup_Permutation; [apply Hc | done |].
  intros x. rewrite Hmem. split.
  - intros [l Hl]%dict_get_known.
    destruct (index_sound _ _ Hc x l (dict_get_elem _ _ _ Hl)) as (k & g & Hin & Hg & Hx).
    by exists k, l, g.
  - intros (k & l & g & Hin & Hg & Hx).
    apply (dict_keys_elem x l), (index_complete _ _ Hc). by exists k, g.
Qed.

End Sizes.

Lemma sum_positive {A} (f : A → nat) (l : list A) :
  negb (Nat.eqb (sum_list (map f l)) 0) = existsb (fun x => negb (Nat.eqb (f x) 0)) l.
Proof.
  induction l as [|x l IH]; [done|]. cbn [map sum_list existsb]. rewrite <- IH.
  by destruct (f x).
Qed.

(** X12. On a collection that satisfies the class invariant, [len] is
    the number of tunables of all its groups together, and the
    collection is true exactly when some group has a tunable: a
    collection of groups that are all empty is false although it has
    groups. *)
Theorem len_counts_the_tunables_of_the_groups (s : Store) (self : tgref)
    (o : TunableGroupsObject) :
  tunable_groups s !! self = Some o →
  consistent s o →
  __len__ self s
  = (s, Ok (sum_list (map (fun kl => group_size s kl.2) (_tunable_groups o))))
  ∧ __bool__ self s
    = (s, Ok (existsb (fun kl => negb (Nat.eqb (group_size s kl.2) 0)) (_tunable_groups o))).
Proof.
  intros Ho Hc. unfold __len__, __bool__. rewrite !bind_run, (this_ok _ _ _ Ho). cbn [ret].
  rewrite (index_size s o Hc). split; [done|]. unfold ret. do 2 f_equal.
  apply (sum_positive (fun kl => group_size s kl.2)).
Qed.

Lemma len_counts_the_tunables_of_the_groups_witness :
  __len__ 0 fixture_store = (fixture_store, Ok 4)
  ∧ __bool__ 0 fixture_store = (fixture_store, Ok true).
Proof.
  refine (len_counts_the_tunables_of_the_groups fixture_store 0 fixture_object _ _).
  - reflexivity.
  - apply consistentb_sound. vm_compute. reflexivity.
Defined.

(** ** [__init__] *)

Lemma built_groups_keys config : ∀ base, dict_keys (built_groups base config) = map fst config.
Proof. induction config as [|item rest IH]; intros base; simpl; [done|]. by rewrite IH. Qed.

Lemma built_index_keys config : ∀ base,
  dict_keys (built_index base config) = config_tunable_names config.
Proof.
  induction config as [|item rest IH]; intros base; [done|].
  cbn [built_index]. rewrite dict_keys_app, IH. unfold config_tunable_names. cbn [map concat].
  f_equal. unfold dict_keys. by rewrite map_map.
Qed.





(** ** [merge] *)

Lemma dict_contains_app_other {V} k k' (v : V) d :
  k' ≠ k → dict_contains k' (d ++ [(k, v)]) = dict_contains k' d.
Proof.
  intros Hne. unfold dict_contains. rewrite dict_get_app. simpl.
  destruct (dict_get k' d); [done|]. by destruct (String.eqb_spec k' k).
Qed.

Lemma merge_loop_run (r : tgref) (ro : TunableGroupsObject) :
  ∀ (d : dict gref) (s s' : Store) cur,
    tunable_groups s !! r = Some cur →
    (∀ k l, (k, l) ∈ d → ∃ g, groups s !! l = Some g ∧ name g = k) →
    NoDup (dict_keys d) →
    (∀ k, k ∈ dict_keys d →
       dict_contains k (_tunable_groups cur) = dict_contains k (_tunable_groups ro)) →
    for_ (dict_values d) (fun group =>
        let* g := group_at group in
        let* o := this r in
        match dict_get (name g) (_tunable_groups o) with
        | None => _add_group r group
        | Some mine =>
            let* m := group_at mine in
            if equals_defaults m g then ret tt
            else raise (ValueError (OverlappingGroup (name g)))
        end) s = (s', Ok tt) →
    s' = mk_store (groups s)
           (<[r := mk_tunable_groups
                     (_index cur ++ concat (map (fun kl => group_entries s kl.2) (new_to ro d)))
                     (_tunable_groups cur ++ new_to ro d)]> (tunable_groups s)).
Proof.
  induction d as [|[k l] d IH]; intros s s' [idx G] Hcur Hd Hnd Hsame Hrun.
  - simpl in Hrun. injection Hrun as <-. cbn [new_to List.filter map concat].
    rewrite !app_nil_r, list_insert_id by done. by rewrite store_eta.
  - assert ((k ∉ dict_keys d) ∧ NoDup (dict_keys d)) as [Hk Hnd'].
    { by apply NoDup_cons in Hnd. }
    destruct (Hd k l) as (g & Hg & Hname); [left|].
    change (dict_values ((k, l) :: d)) with (l :: dict_values d) in Hrun.
    rewrite for_cons_run, bind_run, (group_at_ok _ _ _ Hg), bind_run, (this_ok _ _ _ Hcur)
      in Hrun.
    rewrite Hname in Hrun. cbn [_tunable_groups] in Hrun.
    pose proof (Hsame k) as Hsk. cbn [_tunable_groups] in Hsk. unfold dict_contains in Hsk.
    unfold new_to. cbn [List.filter fst]. fold (new_to ro d).
    destruct (dict_get k G) as [mine|] eqn:Hmine.
    + rewrite bind_run, group_at_run in Hrun.
      destruct (groups s !! mine) as [m|]; [|done].
      destruct (equals_defaults m g); [|done]. cbn [ret] in Hrun.
      unfold dict_contains. rewrite <- Hsk by left. cbn [negb].
      apply (IH s s' (mk_tunable_groups idx G)); try done.
      * intros k' l' Hin. apply Hd. by right.
      * intros k' Hin. apply Hsame. by right.
    + destruct (_add_group r l s) as [s1 [[]|e]] eqn:Hadd; [|done].
      destruct (add_group_ok_run s s1 r l g (mk_tunable_groups idx G) Hg Hcur Hadd)
        as (_ & _ & _ & ->).
      cbn [_index _tunable_groups] in *. rewrite Hname in *.
      unfold dict_contains. rewrite <- Hsk by left. cbn [negb map concat snd].
      set (cur1 := mk_tunable_groups
                     (idx ++ map (fun x => (Tunable.name x, l)) (get_tunables g))
                     (G ++ [(k, l)])) in *.
      set (s1 := mk_store (groups s) (<[r := cur1]> (tunable_groups s))) in *.
      assert (tunable_groups s1 !! r = Some cur1) as Hcur1.
      { apply list_lookup_insert_eq. by eapply lookup_lt_Some. }
      assert (∀ k' l', (k', l') ∈ d → ∃ g', groups s1 !! l' = Some g' ∧ name g' = k') as Hd1.
      { intros k' l' Hin. apply Hd. by right. }
      assert (∀ k', k' ∈ dict_keys d →
                dict_contains k' (_tunable_groups cur1)
                = dict_contains k' (_tunable_groups ro)) as Hsame1.
      { intros k' Hin. cbn [_tunable_groups cur1].
        rewrite dict_contains_app_other by (by intros ->). apply Hsame. by right. }
      rewrite (IH s1 s' cur1 Hcur1 Hd1 Hnd' Hsame1 Hrun).
      unfold s1, cur1. cbn [groups tunable_groups _index _tunable_groups].
      rewrite list_insert_insert_eq. unfold group_entries at 2. rewrite Hg.
      by rewrite <- !app_assoc.
Qed.

(** X14. When [merge] returns, it returns the receiver, and the receiver
    has kept its groups and its index and gained, after them, the groups
    of the argument that are under names it had not, in the order of the
    argument, with their tunables: the very group objects of the
    argument, not copies.  No group object and no other collection is
    written. *)
Theorem merge_adds_the_new_groups (s s' : Store) (r o a : tgref)
    (ro oo : TunableGroupsObject) :
  tunable_groups s !! r = Some ro →
  tunable_groups s !! o = Some oo →
  consistent s oo →
  merge r o s = (s', Ok a) →
  a = r
  ∧ s' = mk_store (groups s)
           (<[r := mk_tunable_groups
                     (_index ro
                      ++ concat (map (fun kl => group_entries s kl.2)
                                     (new_to ro (_tunable_groups oo))))
                     (_tunable_groups ro ++ new_to ro (_tunable_groups oo))]>
              (tunable_groups s)).
Proof.
  intros Hr Ho Hc Hrun. unfold merge in Hrun.
  rewrite bind_run, (this_ok _ _ _ Ho), bind_run in Hrun.
  destruct (for_ (dict_values (_tunable_groups oo)) _ s) as [s1 [[]|e]] eqn:Hloop; [|done].
  injection Hrun as <- <-. split; [done|].
  apply (merge_loop_run r ro (_tunable_groups oo) s s1 ro Hr); try done.
  - intros k l Hin. destruct (groups_named _ _ Hc k l Hin) as (g & Hg & Hname & _). eauto.
  - apply Hc.
Qed.

Lemma merge_adds_the_new_groups_witness :
  merge 0 1 two_collections
  = (mk_store (groups two_collections)
       [mk_tunable_groups
          [("vmSize", 0); ("rootfs", 1); ("kernel_sched_migration_cost_ns", 2);
           ("kernel_sched_latency_ns", 2); ("tcp_window", 4)]
          [("provision", 0); ("boot", 1); ("kernel", 2); ("net", 4)];
        mk_tunable_groups [("rootfs", 3); ("tcp_window", 4)] [("boot", 3); ("net", 4)]],
     Ok 0).
Proof.
  pose proof (merge_adds_the_new_groups two_collections (merge 0 1 two_collections).1 0 1 0
                fixture_object
                (mk_tunable_groups [("rootfs", 3); ("tcp_window", 4)] [("boot", 3); ("net", 4)]))
    as H.
  refine ((fun H' => _) (H _ _ _ _)).
  - rewrite (surjective_pairing (merge 0 1 two_collections)).
    rewrite (proj2 H') at 1. vm_compute. reflexivity.
  - reflexivity.
  - reflexivity.
  - apply consistentb_sound. vm_compute. reflexivity.
  - vm_compute. reflexivity.
Defined.

(** ** [__eq__] and [subgroup] *)

Lemma eq_shared_run (s : Store) a b oa ob :
  tunable_groups s !! a = Some oa →
  tunable_groups s !! b = Some ob →
  length (_tunable_groups oa) = length (_tunable_groups ob) →
  (∀ k l, (k, l) ∈ _tunable_groups oa →
     dict_get k (_tunable_groups ob) = Some l ∧ is_Some (groups s !! l)) →
  TunableGroups.__eq__ a b s = (s, Ok true).
Proof.
  intros Ha Hb Hlen Hall. unfold TunableGroups.__eq__.
  rewrite bind_run, (this_ok _ _ _ Ha), bind_run, (this_ok _ _ _ Hb), Hlen, Nat.eqb_refl.
  simpl. apply all_run. intros [k l] Hin. simpl.
  destruct (Hall k l Hin) as (-> & g & Hg).
  rewrite bind_run, (group_at_ok _ _ _ Hg), bind_run, (group_at_ok _ _ _ Hg).
  simpl. by rewrite Nat.eqb_refl.
Qed.

Lemma subgroup_run (s : Store) t o names :
  tunable_groups s !! t = Some o →
  consistent s o →
  NoDup names →
  (∀ n, n ∈ names → n ∈ dict_keys (_tunable_groups o)) →
  ∃ so,
    subgroup t names s
    = (mk_store (groups s) (tunable_groups s ++ [so]), Ok (length (tunable_groups s)))
    ∧ consistent s so
    ∧ (∀ k l, (k, l) ∈ _tunable_groups so → (k, l) ∈ _tunable_groups o)
    ∧ dict_keys (_tunable_groups so) = names.
Proof.
  intros Ht Hc Hnd Hknown.
  set (sub := length (tunable_groups s)).
  set (s0 := mk_store (groups s) (tunable_groups s ++ [mk_tunable_groups [] []])).
  assert (t ≠ sub) as Hne.
  { apply lookup_lt_Some in Ht. unfold sub. lia. }
  assert (tunable_groups s0 !! t = Some o) as Ht0.
  { unfold s0. simpl. rewrite lookup_app_l; [done | by eapply lookup_lt_Some]. }
  assert (tunable_groups s0 !! sub = Some (mk_tunable_groups [] [])) as Hsub0.
  { unfold s0, sub. simpl. by apply list_lookup_middle. }
  assert (consistent s0 o) as Hc0 by (by apply (consistent_same_groups s)).
  destruct (subgroup_loop_run t sub o names s0 (mk_tunable_groups [] []))
    as (so & Hrun & Hcso & Hincl & Hkeys); try done.
  { apply consistent_empty. }
  { intros k l H. by apply elem_of_nil in H. }
  exists so. split; [|split; [|split]]; try done.
  - assert (subgroup t names s =
            bind (for_ names (fun name =>
                          let* o := this t in
                          match dict_get name (_tunable_groups o) with
                          | None => raise (KeyError name)
                          | Some group => _add_group sub group
                          end)) (fun _ => ret sub) s0) as Hunfold.
    { unfold subgroup, __init__. simpl. rewrite !bind_run. unfold new_tunable_groups at 1.
      fold s0 sub. rewrite !bind_run. simpl. reflexivity. }
    rewrite Hunfold, bind_run, Hrun. unfold s0, sub. simpl. by rewrite insert_at_end.
  - by apply (consistent_same_groups s0).
Qed.

Lemma same_keys_same_entries (d d' : dict gref) :
  dict_keys d = dict_keys d' → NoDup (dict_keys d') →
  (∀ k l, (k, l) ∈ d → (k, l) ∈ d') → d = d'.
Proof.
  revert d'. induction d as [|[k l] d IH]; intros [|[k' l'] d'] Hkeys Hnd Hsub; try done.
  injection Hkeys as <- Hkeys.
  assert ((k ∉ dict_keys d') ∧ NoDup (dict_keys d')) as [Hk Hnd'].
  { by apply NoDup_cons in Hnd. }
  assert (l = l') as <-.
  { assert ((k, l) ∈ (k, l') :: d') as [[= ->]|Hin]%elem_of_cons; [apply Hsub; left | done |].
    exfalso. by apply Hk, (dict_keys_elem k l). }
  f_equal. apply IH; [done | done |].
  intros k0 l0 Hin.
  assert ((k0, l0) ∈ (k, l) :: d') as [[= -> ->]|Hin']%elem_of_cons;
    [apply Hsub; by right | | done].
  exfalso. apply Hk. rewrite <- Hkeys. by apply (dict_keys_elem k l).
Qed.

(** X15. A collection that satisfies the class invariant is equal to
    itself, whatever the values of its tunables.  Its subgroup of all
    its group names is a new collection with the same dictionary of
    groups, the same group objects, which is equal to it in both
    directions and reads every tunable as it does. *)
Theorem full_subgroup_equals_its_parent (s : Store) (t : tgref) (o : TunableGroupsObject) :
  tunable_groups s !! t = Some o →
  consistent s o →
  TunableGroups.__eq__ t t s = (s, Ok true)
  ∧ ∃ so,
      subgroup t (dict_keys (_tunable_groups o)) s
      = (mk_store (groups s) (tunable_groups s ++ [so]), Ok (length (tunable_groups s)))
      ∧ _tunable_groups so = _tunable_groups o
      ∧ TunableGroups.__eq__ (length (tunable_groups s)) t
          (mk_store (groups s) (tunable_groups s ++ [so]))
        = (mk_store (groups s) (tunable_groups s ++ [so]), Ok true)
      ∧ TunableGroups.__eq__ t (length (tunable_groups s))
          (mk_store (groups s) (tunable_groups s ++ [so]))
        = (mk_store (groups s) (tunable_groups s ++ [so]), Ok true)
      ∧ ∀ x, (__getitem__ (length (tunable_groups s)) x
                (mk_store (groups s) (tunable_groups s ++ [so]))).2
             = (__getitem__ t x s).2.
Proof.
  intros Ht Hc.
  assert (∀ k l, (k, l) ∈ _tunable_groups o →
            dict_get k (_tunable_groups o) = Some l ∧ is_Some (groups s !! l)) as Hentries.
  { intros k l Hin. split; [by apply dict_get_nodup; [apply Hc|]|].
    destruct (groups_named _ _ Hc k l Hin) as (g & Hg & _). eauto. }
  split; [by apply (eq_shared_run s t t o o)|].
  destruct (subgroup_run s t o (dict_keys (_tunable_groups o)) Ht Hc)
    as (so & Hrun & Hcso & Hincl & Hkeys); [apply Hc | done |].
  assert (_tunable_groups so = _tunable_groups o) as Hsame.
  { apply same_keys_same_entries; [done | apply Hc | done]. }
  set (s' := mk_store (groups s) (tunable_groups s ++ [so])).
  assert (tunable_groups s' !! t = Some o) as Ht'.
  { unfold s'. simpl. rewrite lookup_app_l; [done | by eapply lookup_lt_Some]. }
  assert (tunable_groups s' !! length (tunable_groups s) = Some so) as Hsub'.
  { unfold s'. simpl. by apply list_lookup_middle. }
  exists so. fold s'. split; [done|]. split; [done|]. split; [|split].
  - apply (eq_shared_run s' _ _ so o Hsub' Ht'); rewrite Hsame; [done | apply Hentries].
  - apply (eq_shared_run s' _ _ o so Ht' Hsub'); rewrite Hsame; [done | apply Hentries].
  - intros x. rewrite (getitem_run s' _ so x Hsub'), (getitem_run s t o x Ht). simpl.
    assert (dict_get x (_index so) = dict_get x (_index o)) as ->; [|done].
    destruct (dict_get x (_index so)) as [l|] eqn:Hl.
    + symmetry. apply (consistent_owner s o x l Hc).
      apply (consistent_owner s so x l Hcso) in Hl as (k & g & Hin & Hg & Hx).
      exists k, g. rewrite <- Hsame. done.
    + destruct (dict_get x (_index o)) as [l|] eqn:Hl'; [|done].
      apply (consistent_owner s o x l Hc) in Hl' as (k & g & Hin & Hg & Hx).
      assert (dict_get x (_index so) = Some l) as Hl''; [|congruence].
      apply (consistent_owner s so x l Hcso). exists k, g. rewrite Hsame. done.
Qed.

Lemma full_subgroup_equals_its_parent_witness :
  TunableGroups.__eq__ 0 0 fixture_changed = (fixture_changed, Ok true)
  ∧ ∃ so,
      subgroup 0 ["provision"; "boot"; "kernel"] fixture_changed
      = (mk_store (groups fixture_changed) (tunable_groups fixture_changed ++ [so]), Ok 1)
      ∧ _tunable_groups so = _tunable_groups fixture_object
      ∧ TunableGroups.__eq__ 1 0
          (mk_store (groups fixture_changed) (tunable_groups fixture_changed ++ [so]))
        = (mk_store (groups fixture_changed) (tunable_groups fixture_changed ++ [so]), Ok true)
      ∧ TunableGroups.__eq__ 0 1
          (mk_store (groups fixture_changed) (tunable_groups fixture_changed ++ [so]))
        = (mk_store (groups fixture_changed) (tunable_groups fixture_changed ++ [so]), Ok true)
      ∧ ∀ x, (__getitem__ 1 x
                (mk_store (groups fixture_changed) (tunable_groups fixture_changed ++ [so]))).2
             = (__getitem__ 0 x fixture_changed).2.
Proof.
  refine (full_subgroup_equals_its_parent fixture_changed 0 fixture_object _ _).
  - reflexivity.
  - apply consistentb_sound. vm_compute. reflexivity.
Defined.

(** ** [copy] *)

Section CopyReads.
Context (s s' : Store) (memo : list (gref * gref)) (t c : tgref) (o co : TunableGroupsObject).
Hypothesis Ht : tunable_groups s !! t = Some o.
Hypothesis Hco : tunable_groups s' !! c = Some co.
Hypothesis Hmemo : ∀ old new, memo_get old memo = Some new → groups s' !! new = groups s !! old.
Hypothesis Hidx :
  Forall2 (fun kl kl' => kl.1 = kl'.1 ∧ memo_get kl.2 memo = Some kl'.2) (_index o) (_index co).
Hypothesis Hgroups :
  Forall2 (fun kl kl' => kl.1 = kl'.1 ∧ memo_get kl.2 memo = Some kl'.2)
    (_tunable_groups o) (_tunable_groups co).

Lemma relocated_lookup (d d' : dict gref) k :
  Forall2 (fun kl kl' => kl.1 = kl'.1 ∧ memo_get kl.2 memo = Some kl'.2) d d' →
  (dict_get k d = None ∧ dict_get k d' = None)
  ∨ ∃ l l', dict_get k d = Some l ∧ dict_get k d' = Some l'
            ∧ groups s' !! l' = groups s !! l.
Proof.
  intros Hrel. rewrite (relocated_get memo d d' k Hrel).
  destruct (dict_get k d) as [l|] eqn:Hl; [|by left]. right.
  destruct (relocated_elem_inv memo d d' k l Hrel (dict_get_elem _ _ _ Hl)) as (l' & _ & Hl').
  exists l, l'. split; [done|]. split; [done|]. by apply Hmemo.
Qed.

Lemma copy_getitem x : (__getitem__ c x s').2 = (__getitem__ t x s).2.
Proof.
  rewrite (getitem_run _ _ _ x Ht), (getitem_run _ _ _ x Hco). simpl.
  destruct (relocated_lookup _ _ x Hidx) as [[-> ->]|(l & l' & -> & -> & ->)]; done.
Qed.

Lemma copy_collect_values : ∀ names into,
  (collect_values c names into s').2 = (collect_values t names into s).2.
Proof.
  induction names as [|n names IH]; intros into; simpl; [done|].
  rewrite !bind_run, (group_named_run _ _ _ _ Ht), (group_named_run _ _ _ _ Hco).
  destruct (relocated_lookup _ _ n Hgroups) as [[-> ->]|(l & l' & -> & -> & Hl)]; [done|].
  rewrite !bind_run, !group_at_run, Hl. destruct (groups s !! l) as [g|]; [|done]. apply IH.
Qed.

Lemma copy_any_updated : ∀ names,
  (any_ names (fun name =>
     let* group := group_named c name in
     let* g := group_at group in
     ret (CovariantTunableGroup.is_updated g)) s').2
  = (any_ names (fun name =>
       let* group := group_named t name in
       let* g := group_at group in
       ret (CovariantTunableGroup.is_updated g)) s).2.
Proof.
  induction names as [|n names IH]; simpl; [done|].
  rewrite bind_run, (flag_run _ _ _ _ Hco), bind_run, (flag_run _ _ _ _ Ht).
  destruct (relocated_lookup _ _ n Hgroups) as [[-> ->]|(l & l' & -> & -> & ->)]; [done|].
  destruct (groups s !! l) as [g|]; [|done].
  destruct (CovariantTunableGroup.is_updated g); [done | apply IH].
Qed.

Lemma copy_all_defaults (d d' : dict gref) :
  Forall2 (fun kl kl' => kl.1 = kl'.1 ∧ memo_get kl.2 memo = Some kl'.2) d d' →
  (all_ (dict_values d') (fun group =>
     let* g := group_at group in ret (CovariantTunableGroup.is_defaults g)) s').2
  = (all_ (dict_values d) (fun group =>
       let* g := group_at group in ret (CovariantTunableGroup.is_defaults g)) s).2.
Proof.
  induction 1 as [|[k l] [k' l'] d d' [_ Hl] Hrel IH]; simpl; [done|].
  rewrite !bind_run, !group_at_run, (Hmemo l l' Hl).
  destruct (groups s !! l) as [g|]; [|done]. simpl.
  destruct (CovariantTunableGroup.is_defaults g); [apply IH | done].
Qed.

End CopyReads.

(** X16. A copy reads as its original does at the time of the copy:
    [copy] returns a new collection for which [__getitem__],
    [__contains__], [len], [get_covariant_group_names],
    [get_param_values], [is_updated] and [is_defaults] give, in the store
    it leaves, what they give for the original in the store before;
    values and update flags are copied as they are. *)
Theorem copy_reads_as_its_original (s : Store) (t : tgref) (o : TunableGroupsObject) :
  tunable_groups s !! t = Some o →
  allocated s o →
  (copy t s).2 = Ok (length (tunable_groups s))
  ∧ (∀ x, (__getitem__ (length (tunable_groups s)) x (copy t s).1).2 = (__getitem__ t x s).2)
  ∧ (∀ x, (__contains__ (length (tunable_groups s)) x (copy t s).1).2
          = (__contains__ t x s).2)
  ∧ (__len__ (length (tunable_groups s)) (copy t s).1).2 = (__len__ t s).2
  ∧ (get_covariant_group_names (length (tunable_groups s)) (copy t s).1).2
    = (get_covariant_group_names t s).2
  ∧ (∀ names into,
       (get_param_values (length (tunable_groups s)) names into (copy t s).1).2
       = (get_param_values t names into s).2)
  ∧ (∀ names,
       (TunableGroups.is_updated (length (tunable_groups s)) names (copy t s).1).2
       = (TunableGroups.is_updated t names s).2)
  ∧ (is_defaults (length (tunable_groups s)) (copy t s).1).2 = (is_defaults t s).2.
Proof.
  intros Ht Ha.
  destruct (copy_run s t o Ht Ha) as (co & copies & memo & -> & Hmemo & Hidx & Hgroups).
  cbn [fst snd]. set (c := length (tunable_groups s)).
  set (s' := mk_store (groups s ++ copies) (tunable_groups s ++ [co])).
  assert (tunable_groups s' !! c = Some co) as Hco by (by apply list_lookup_middle).
  assert (∀ old new, memo_get old memo = Some new → groups s' !! new = groups s !! old)
    as Hlook.
  { intros old new H. by apply Hmemo. }
  pose proof (relocated_keys memo _ _ Hidx) as Hikeys.
  pose proof (relocated_keys memo _ _ Hgroups) as Hgkeys.
  split; [done|]. split; [|split; [|split; [|split; [|split; [|split]]]]].
  - intros x. by apply (copy_getitem s s' memo t c o co).
  - intros x. rewrite (contains_run _ _ _ _ Ht), (contains_run _ _ _ _ Hco). cbn [snd].
    f_equal. unfold dict_contains. rewrite (relocated_get memo _ _ x Hidx).
    destruct (dict_get x (_index o)) as [l|] eqn:Hl; [|done].
    by destruct (relocated_elem_inv memo _ _ x l Hidx (dict_get_elem _ _ _ Hl))
      as (l' & _ & ->).
  - unfold __len__. rewrite !bind_run, (this_ok _ _ _ Ht), (this_ok _ _ _ Hco). cbn [ret snd].
    f_equal. apply (f_equal length) in Hikeys. unfold dict_keys in Hikeys.
    by rewrite !length_map in Hikeys.
  - unfold get_covariant_group_names.
    rewrite !bind_run, (this_ok _ _ _ Ht), (this_ok _ _ _ Hco). cbn [ret snd]. by rewrite Hgkeys.
  - intros names into. unfold get_param_values, get_covariant_group_names.
    rewrite !bind_run, (this_ok _ _ _ Ht), (this_ok _ _ _ Hco). cbn [ret]. rewrite Hgkeys.
    by apply (copy_collect_values s s' memo t c o co).
  - intros names. unfold TunableGroups.is_updated, get_covariant_group_names.
    rewrite !bind_run, (this_ok _ _ _ Ht), (this_ok _ _ _ Hco). cbn [ret]. rewrite Hgkeys.
    by apply (copy_any_updated s s' memo t c o co).
  - unfold is_defaults. rewrite !bind_run, (this_ok _ _ _ Ht), (this_ok _ _ _ Hco).
    by apply (copy_all_defaults s s' memo).
Qed.

Lemma copy_reads_as_its_original_witness :
  (copy 0 fixture_changed).2 = Ok 1
  ∧ (∀ x, (__getitem__ 1 x (copy 0 fixture_changed).1).2 = (__getitem__ 0 x fixture_changed).2).
Proof.
  pose proof (copy_reads_as_its_original fixture_changed 0 fixture_object) as H.
  refine ((fun H' => conj (proj1 H') (proj1 (proj2 H'))) (H _ _)).
  - reflexivity.
  - apply allocatedb_sound. vm_compute. reflexivity.
Defined.

(** ** [FlamlOptimizer] *)

Lemma combine_app_same {A B} (l1 l2 : list A) (k1 k2 : list B) :
  length l1 = length k1 → combine (l1 ++ l2) (k1 ++ k2) = combine l1 k1 ++ combine l2 k2.
Proof.
  revert k1. induction l1 as [|x l1 IH]; intros [|y k1] Hlen; try done.
  simpl. f_equal. apply IH. by injection Hlen.
Qed.

Lemma combine_take {A B} (l : list A) (k : list B) :
  combine l k = combine (take (length k) l) (take (length l) k).
Proof.
  revert k. induction l as [|x l IH]; intros [|y k]; simpl; try done. by rewrite <- IH.
Qed.

Section FlamlMore.
Context (config_hash : Row → Z).

Lemma registered_app rows1 : ∀ rows2 ev,
  registered config_hash (rows1 ++ rows2) ev
  = registered config_hash rows2 (registered config_hash rows1 ev).
Proof. induction rows1 as [|row rows1 IH]; intros rows2 ev; [done|]. simpl. apply IH. Qed.

Lemma repeated_app rows1 : ∀ rows2 ev,
  repeated config_hash (rows1 ++ rows2) ev
  = repeated config_hash rows1 ev
    ++ repeated config_hash rows2 (registered config_hash rows1 ev).
Proof.
  induction rows1 as [|row rows1 IH]; intros rows2 ev; [done|].
  simpl. by rewrite IH, app_assoc.
Qed.

Lemma registered_others rows ev h :
  (∀ row, row ∈ rows → config_hash row.1 ≠ h) →
  registered config_hash rows ev !! h = ev !! h.
Proof.
  intros Hnone.
  destruct (registered_lookup config_hash rows ev h) as [(row & Hin & Hh & _)|[_ H]]; [|done].
  exfalso. by apply (Hnone row).
Qed.

Lemma registered_last pre row post ev :
  (∀ r, r ∈ post → config_hash r.1 ≠ config_hash row.1) →
  registered config_hash (pre ++ row :: post) ev !! config_hash row.1 = Some (row.1, row.2).
Proof.
  intros Hpost. rewrite registered_app. simpl.
  rewrite (registered_others post _ _ Hpost). by rewrite lookup_insert_eq.
Qed.

Lemma repeated_only rows : ∀ ev c,
  c ∈ repeated config_hash rows ev →
  ∃ pre sc post,
    rows = pre ++ (c, sc) :: post
    ∧ (is_Some (ev !! config_hash c) ∨ ∃ r, r ∈ pre ∧ config_hash r.1 = config_hash c).
Proof.
  induction rows as [|[c0 sc0] rows IH]; intros ev c; simpl.
  - intros H. by apply elem_of_nil in H.
  - intros [Hhere|Hlater]%elem_of_app.
    + destruct (ev !! config_hash c0) as [old|] eqn:Hold.
      * apply list_elem_of_singleton in Hhere as ->.
        exists [], sc0, rows. split; [done|]. left. by rewrite Hold.
      * by apply elem_of_nil in Hhere.
    + destruct (IH _ _ Hlater) as (pre & sc & post & -> & Hwhy).
      exists ((c0, sc0) :: pre), sc, post. split; [done|].
      destruct Hwhy as [Hknown|(r & Hr & Hh)].
      * destruct (decide (config_hash c0 = config_hash c)) as [Heq|Hne].
        -- right. exists (c0, sc0). split; [left | done].
        -- left. by rewrite lookup_insert_ne in Hknown.
      * right. exists r. split; [by right | done].
Qed.

Lemma repeated_none rows : ∀ ev,
  NoDup (map (fun r => config_hash r.1) rows) →
  (∀ r, r ∈ rows → ev !! config_hash r.1 = None) →
  repeated config_hash rows ev = [].
Proof.
  intros ev Hnd Hfresh.
  destruct (repeated config_hash rows ev) as [|c cs] eqn:Hrep; [done|]. exfalso.
  destruct (repeated_only rows ev c) as (pre & sc & post & -> & [Hknown|(r & Hr & Hh)]).
  - rewrite Hrep. left.
  - assert (ev !! config_hash c = None) as Hnew.
    { apply (Hfresh (c, sc)). apply elem_of_app. right. left. }
    rewrite Hnew in Hknown. by destruct Hknown.
  - rewrite map_app in Hnd. apply NoDup_app in Hnd as (_ & Hdis & _).
    apply (Hdis (config_hash r.1)).
    + rewrite map_fmap. by apply (list_elem_of_fmap_2 (fun r => config_hash r.1)).
    + simpl. rewrite Hh. left.
Qed.

(** X17. A configuration that was registered is never proposed again:
    after [_register], [_target_function] answers, for a configuration
    whose hash is that of a row of the batch, with the score of the last
    such row, and for a configuration that was known before and is not
    in the batch, with the score it had; in both cases
    [_suggested_config] stays as it was.  A configuration that is
    neither is stored as the suggestion and the answer is [None]. *)
Theorem target_function_knows_registered_configs (st : FlamlOptimizer.searching)
    (configurations : DataFrame) (scores : Series) (c : Row) :
  (FlamlOptimizer.register_searching config_hash configurations scores st).2 = Ok tt
  ∧ FlamlOptimizer._suggested_config
      (FlamlOptimizer.register_searching config_hash configurations scores st).1
    = FlamlOptimizer._suggested_config st
  ∧ (∀ pre row post,
       combine configurations scores = pre ++ row :: post →
       config_hash row.1 = config_hash c →
       (∀ r, r ∈ post → config_hash r.1 ≠ config_hash c) →
       FlamlOptimizer._target_function config_hash c
         (FlamlOptimizer.register_searching config_hash configurations scores st).1
       = ((FlamlOptimizer.register_searching config_hash configurations scores st).1,
          Ok (Some row.2)))
  ∧ ((∀ r, r ∈ combine configurations scores → config_hash r.1 ≠ config_hash c) →
     FlamlOptimizer._target_function config_hash c
       (FlamlOptimizer.register_searching config_hash configurations scores st).1
     = match FlamlOptimizer.evaluated_configs (FlamlOptimizer.registrations st)
             !! config_hash c with
       | Some entry =>
           ((FlamlOptimizer.register_searching config_hash configurations scores st).1,
            Ok (Some entry.2))
       | None =>
           (FlamlOptimizer.mk_searching
              (FlamlOptimizer.registrations
                 (FlamlOptimizer.register_searching config_hash configurations scores st).1)
              (Some c), Ok None)
       end).
Proof.
  unfold FlamlOptimizer.register_searching. rewrite flaml_register_run. cbn [fst snd].
  split; [done|]. split; [done|]. split.
  - intros pre row post Hsplit Hh Hpost. unfold FlamlOptimizer._target_function.
    cbn [FlamlOptimizer.registrations FlamlOptimizer.evaluated_configs].
    rewrite Hsplit, <- Hh, registered_last; [done|]. intros r Hr. rewrite Hh. by apply Hpost.
  - intros Hnone. unfold FlamlOptimizer._target_function.
    cbn [FlamlOptimizer.registrations FlamlOptimizer.evaluated_configs].
    rewrite (registered_others _ _ _ Hnone).
    by destruct (FlamlOptimizer.evaluated_configs (FlamlOptimizer.registrations st)
                 !! config_hash c).
Qed.

(** X18. [_register] never raises without a context, and it warns about
    repeats only: every configuration it warns about is a row of the
    batch whose hash was already in [evaluated_configs] or is the hash
    of an earlier row of the batch.  A batch of rows with pairwise
    different hashes that are all new is registered without a warning,
    and each of its rows is then found under its hash. *)
Theorem register_warns_about_repeats_only (st : FlamlOptimizer.t)
    (configurations : DataFrame) (scores : Series) :
  (FlamlOptimizer._register config_hash configurations scores None st).2 = Ok tt
  ∧ (∃ new,
       FlamlOptimizer.warnings
         (FlamlOptimizer._register config_hash configurations scores None st).1
       = FlamlOptimizer.warnings st ++ new
       ∧ ∀ c, c ∈ new →
           ∃ pre sc post,
             combine configurations scores = pre ++ (c, sc) :: post
             ∧ (is_Some (FlamlOptimizer.evaluated_configs st !! config_hash c)
                ∨ ∃ r, r ∈ pre ∧ config_hash r.1 = config_hash c))
  ∧ (NoDup (map (fun r => config_hash r.1) (combine configurations scores)) →
     (∀ r, r ∈ combine configurations scores →
        FlamlOptimizer.evaluated_configs st !! config_hash r.1 = None) →
     FlamlOptimizer.warnings
       (FlamlOptimizer._register config_hash configurations scores None st).1
     = FlamlOptimizer.warnings st
     ∧ ∀ r, r ∈ combine configurations scores →
         FlamlOptimizer.evaluated_configs
           (FlamlOptimizer._register config_hash configurations scores None st).1
         !! config_hash r.1 = Some (r.1, r.2)).
Proof.
  rewrite flaml_register_run. cbn [fst snd FlamlOptimizer.warnings FlamlOptimizer.evaluated_configs].
  split; [done|]. split.
  - eexists. split; [done|]. apply repeated_only.
  - intros Hnd Hfresh. rewrite repeated_none, app_nil_r by done. split; [done|].
    intros r Hr. apply list_elem_of_split in Hr as (pre & post & Hsplit).
    rewrite Hsplit. apply registered_last. intros r' Hr' Heq.
    rewrite Hsplit, map_app in Hnd. apply NoDup_app in Hnd as (_ & _ & Hnd).
    simpl in Hnd. apply NoDup_cons in Hnd as [Hnotin _]. apply Hnotin.
    rewrite <- Heq, map_fmap. by apply (list_elem_of_fmap_2 (fun r => config_hash r.1)).
Qed.

(** X19. Registering a batch is registering its rows one after another:
    a batch cut in two at a position where both columns are cut gives
    the same optimizer as the first part followed by the second, and
    rows without a score, or scores without a row, are left out.  With a
    context, [_register] raises [NotImplementedError] before touching
    anything, as [register_pending] always does. *)
Theorem register_goes_row_by_row (st : FlamlOptimizer.t)
    (c1 c2 : DataFrame) (s1 s2 : Series) (context : DataFrame) :
  (length c1 = length s1 →
   FlamlOptimizer._register config_hash (c1 ++ c2) (s1 ++ s2) None st
   = (let* _ := FlamlOptimizer._register config_hash c1 s1 None in
      FlamlOptimizer._register config_hash c2 s2 None) st)
  ∧ FlamlOptimizer._register config_hash c1 s1 None st
    = FlamlOptimizer._register config_hash
        (take (length s1) c1) (take (length c1) s1) None st
  ∧ FlamlOptimizer._register config_hash c1 s1 (Some context) st
    = (st, Raise NotImplementedError)
  ∧ FlamlOptimizer.register_pending c1 (Some context) st = (st, Raise NotImplementedError)
  ∧ FlamlOptimizer.register_pending c1 None st = (st, Raise NotImplementedError).
Proof.
  split; [|split; [|done]].
  - intros Hlen. rewrite bind_run, !flaml_register_run.
    cbn [FlamlOptimizer.evaluated_configs FlamlOptimizer.warnings].
    rewrite combine_app_same by done.
    by rewrite registered_app, repeated_app, app_assoc.
  - rewrite !flaml_register_run. by rewrite <- combine_take.
Qed.

End FlamlMore.

Lemma target_function_knows_registered_configs_witness :
  FlamlOptimizer._target_function length_hash fixture_row
    (FlamlOptimizer.register_searching length_hash [fixture_row; fixture_row]
       [Some (1 # 1)%Q; Some (2 # 1)%Q]
       (FlamlOptimizer.mk_searching (FlamlOptimizer.mk ∅ []) None)).1
  = ((FlamlOptimizer.register_searching length_hash [fixture_row; fixture_row]
        [Some (1 # 1)%Q; Some (2 # 1)%Q]
        (FlamlOptimizer.mk_searching (FlamlOptimizer.mk ∅ []) None)).1,
     Ok (Some (Some (2 # 1)%Q))).
Proof.
  refine (proj1 (proj2 (proj2 (target_function_knows_registered_configs length_hash
                                 (FlamlOptimizer.mk_searching (FlamlOptimizer.mk ∅ []) None)
                                 [fixture_row; fixture_row] [Some (1 # 1)%Q; Some (2 # 1)%Q]
                                 fixture_row)))
            [(fixture_row, Some (1 # 1)%Q)] (fixture_row, Some (2 # 1)%Q) [] _ _ _).
  - reflexivity.
  - reflexivity.
  - intros r Hr. by apply elem_of_nil in Hr.
Defined.

Lemma register_warns_about_repeats_only_witness :
  FlamlOptimizer.warnings
    (FlamlOptimizer._register length_hash [fixture_row] [Some (1 # 1)%Q] None
       (FlamlOptimizer.mk ∅ [])).1 = [].
Proof.
  refine (proj1 (proj2 (proj2 (register_warns_about_repeats_only length_hash
                                 (FlamlOptimizer.mk ∅ []) [fixture_row] [Some (1 # 1)%Q]))
                   _ _)).
  - apply (bool_decide_unpack _). vm_compute. reflexivity.
  - intros r Hr. apply lookup_empty.
Defined.

Lemma register_goes_row_by_row_witness :
  FlamlOptimizer._register length_hash ([fixture_row] ++ [fixture_row])
    ([Some (1 # 1)%Q] ++ [None]) None (FlamlOptimizer.mk ∅ [])
  = (let* _ := FlamlOptimizer._register length_hash [fixture_row] [Some (1 # 1)%Q] None in
     FlamlOptimizer._register length_hash [fixture_row] [None] None) (FlamlOptimizer.mk ∅ []).
Proof.
  refine (proj1 (register_goes_row_by_row length_hash (FlamlOptimizer.mk ∅ [])
                   [fixture_row] [fixture_row] [Some (1 # 1)%Q] [None] []) _).
  reflexivity.
Defined.

(** ** [MlosCoreOptimizer.register] *)

Lemma insert_sorted_permutation {A} (key : A → string) x (l : list A) :
  insert_sorted key x l ≡ₚ x :: l.
Proof.
  induction l as [|y l IH]; simpl; [done|].
  destruct (String.leb (key x) (key y)); [done|]. rewrite IH. apply Permutation_swap.
Qed.

Lemma sorted_by_permutation {A} (key : A → string) (l : list A) : sorted_by key l ≡ₚ l.
Proof.
  induction l as [|x l IH]; simpl; [done|].
  rewrite insert_sorted_permutation. by rewrite IH.
Qed.

Lemma insert_sorted_ascending {A} (key : A → string) x (l : list A) :
  ascending key l = true → ascending key (insert_sorted key x l) = true.
Proof.
  induction l as [|y l IH]; [done|]. intros Hl.
  cbn [insert_sorted]. destruct (String.leb (key x) (key y)) eqn:Hxy.
  - cbn [ascending]. by rewrite Hxy.
  - assert (String.leb (key y) (key x) = true) as Hyx.
    { destruct (String.leb_total (key x) (key y)); congruence. }
    destruct l as [|z l].
    + cbn [insert_sorted ascending]. by rewrite Hyx.
    + cbn [ascending] in Hl. apply andb_prop in Hl as [Hyz Hl].
      specialize (IH Hl). cbn [insert_sorted] in IH |- *.
      destruct (String.leb (key x) (key z)).
      * cbn [ascending] in IH |- *. by rewrite Hyx.
      * change (ascending key (y :: z :: insert_sorted key x l))
          with (String.leb (key y) (key z) && ascending key (z :: insert_sorted key x l)).
        by rewrite Hyz.
Qed.

Lemma sorted_by_ascending {A} (key : A → string) (l : list A) :
  ascending key (sorted_by key l) = true.
Proof. induction l as [|x l IH]; [done|]. simpl. by apply insert_sorted_ascending. Qed.

Lemma register_succeeded_run {B} `{BaseOptimizer B}
    (w : MlosCoreOptimizer.World B) (tunables : tgref) (score : option Q)
    (params : dict TunableValue) :
  (get_param_values tunables None None (MlosCoreOptimizer.store w)).2 = Ok params →
  MlosCoreOptimizer.register tunables Status.SUCCEEDED score w
  = (let o := MlosCoreOptimizer.optimizer w in
     let sent := opt_register [sorted_by fst params]
                   [MlosCoreOptimizer.normalize (MlosCoreOptimizer._opt_sign o) score]
                   (MlosCoreOptimizer._opt o) in
     match sent.2 with
     | Ok _ =>
         (MlosCoreOptimizer.mk_world (MlosCoreOptimizer.store w)
            (MlosCoreOptimizer.mk (MlosCoreOptimizer._tunables o)
               (MlosCoreOptimizer._opt_sign o) (MlosCoreOptimizer._iter o + 1)%Z sent.1)
            (MlosCoreOptimizer.log_debug w),
          Ok (MlosCoreOptimizer.normalize (MlosCoreOptimizer._opt_sign o) score))
     | Raise e =>
         (MlosCoreOptimizer.mk_world (MlosCoreOptimizer.store w)
            (MlosCoreOptimizer.mk (MlosCoreOptimizer._tunables o)
               (MlosCoreOptimizer._opt_sign o) (MlosCoreOptimizer._iter o) sent.1)
            (MlosCoreOptimizer.log_debug w),
          Raise e)
     end).
Proof.
  intros Hparams. destruct w as [st [tn sign it opt] dbg]. simpl in *.
  unfold MlosCoreOptimizer.register, MlosCoreOptimizer.Optimizer_register.
  unfold bind, MlosCoreOptimizer.self, MlosCoreOptimizer.in_store, ret. simpl.
  rewrite get_param_values_reads, Hparams. simpl.
  unfold MlosCoreOptimizer.in_backend. simpl.
  destruct (opt_register _ _ opt) as [b [[]|e]]; reflexivity.
Qed.

(** X20. [register] of a trial that succeeded hands the backend one
    batch of one row and one score: the row holds the current values of
    the tunables that were passed, each once, in the order of their
    names, and the score is the one it returns, with the sign of the
    direction.  If the backend accepts the batch the iteration count
    goes up by one; if it raises, the count stays.  The store is not
    written. *)
Theorem succeeded_trial_is_forwarded {B} `{BaseOptimizer B}
    (w : MlosCoreOptimizer.World B) (tunables : tgref) (score : option Q)
    (params : dict TunableValue) :
  (get_param_values tunables None None (MlosCoreOptimizer.store w)).2 = Ok params →
  MlosCoreOptimizer.register tunables Status.SUCCEEDED score w
  = (let o := MlosCoreOptimizer.optimizer w in
     let sent := opt_register [sorted_by fst params]
                   [MlosCoreOptimizer.normalize (MlosCoreOptimizer._opt_sign o) score]
                   (MlosCoreOptimizer._opt o) in
     match sent.2 with
     | Ok _ =>
         (MlosCoreOptimizer.mk_world (MlosCoreOptimizer.store w)
            (MlosCoreOptimizer.mk (MlosCoreOptimizer._tunables o)
               (MlosCoreOptimizer._opt_sign o) (MlosCoreOptimizer._iter o + 1)%Z sent.1)
            (MlosCoreOptimizer.log_debug w),
          Ok (MlosCoreOptimizer.normalize (MlosCoreOptimizer._opt_sign o) score))
     | Raise e =>
         (MlosCoreOptimizer.mk_world (MlosCoreOptimizer.store w)
            (MlosCoreOptimizer.mk (MlosCoreOptimizer._tunables o)
               (MlosCoreOptimizer._opt_sign o) (MlosCoreOptimizer._iter o) sent.1)
            (MlosCoreOptimizer.log_debug w),
          Raise e)
     end)
  ∧ sorted_by fst params ≡ₚ params
  ∧ ascending fst (sorted_by fst params) = true.
Proof.
  intros Hparams. split; [|split; [apply sorted_by_permutation | apply sorted_by_ascending]].
  by apply register_succeeded_run.
Qed.

Lemma succeeded_trial_is_forwarded_witness :
  MlosCoreOptimizer.register 0 Status.SUCCEEDED (Some (5 # 1)%Q)
    (MlosCoreOptimizer.mk_world fixture_changed (MlosCoreOptimizer.mk 0 (-1)%Z 1%Z []) false)
  = (MlosCoreOptimizer.mk_world fixture_changed
       (MlosCoreOptimizer.mk 0 (-1)%Z 2%Z
          [([[("kernel_sched_latency_ns", Tunable.VInt 2000000);
              ("kernel_sched_migration_cost_ns", Tunable.VInt (-1));
              ("rootfs", Tunable.VStr "ext4");
              ("vmSize", Tunable.VStr "Standard_B4ms")]],
            [Some ((5 # 1) * inject_Z (-1))%Q])])
       false,
     Ok (Some ((5 # 1) * inject_Z (-1))%Q)).
Proof.
  refine (proj1 (succeeded_trial_is_forwarded
                   (MlosCoreOptimizer.mk_world fixture_changed
                      (MlosCoreOptimizer.mk 0 (-1)%Z 1%Z []) false)
                   0 (Some (5 # 1)%Q)
                   [("vmSize", Tunable.VStr "Standard_B4ms"); ("rootfs", Tunable.VStr "ext4");
                    ("kernel_sched_migration_cost_ns", Tunable.VInt (-1));
                    ("kernel_sched_latency_ns", Tunable.VInt 2000000)] _)).
  vm_compute. reflexivity.
Defined.

(** ** [MlosCoreOptimizer.get_best_observation] and [suggest] *)

Lemma best_observation_run {B} `{BaseOptimizer B} (w : MlosCoreOptimizer.World B)
    params score rest :
  opt_get_best_observation (MlosCoreOptimizer._opt (MlosCoreOptimizer.optimizer w))
  = (params, score) :: rest →
  MlosCoreOptimizer.get_best_observation w
  = match copy (MlosCoreOptimizer._tunables (MlosCoreOptimizer.optimizer w))
            (MlosCoreOptimizer.store w) with
    | (s1, Ok best) =>
        match assign best params s1 with
        | (s2, Ok _) =>
            (MlosCoreOptimizer.mk_world s2 (MlosCoreOptimizer.optimizer w)
               (MlosCoreOptimizer.log_debug w),
             Ok (Some (Qmult score
                         (inject_Z (MlosCoreOptimizer._opt_sign (MlosCoreOptimizer.optimizer w))),
                       best)))
        | (s2, Raise e) =>
            (MlosCoreOptimizer.mk_world s2 (MlosCoreOptimizer.optimizer w)
               (MlosCoreOptimizer.log_debug w), Raise e)
        end
    | (s1, Raise e) =>
        (MlosCoreOptimizer.mk_world s1 (MlosCoreOptimizer.optimizer w)
           (MlosCoreOptimizer.log_debug w), Raise e)
    end.
Proof.
  destruct w as [st [tn sign it opt] dbg]. simpl. intros Hbest.
  unfold MlosCoreOptimizer.get_best_observation.
  unfold bind at 1. unfold MlosCoreOptimizer.self at 1. simpl. rewrite Hbest.
  unfold bind, MlosCoreOptimizer.self, MlosCoreOptimizer.in_store, ret. simpl.
  destruct (copy tn st) as [s1 [best|e]]; simpl; [|done].
  destruct (assign best params s1) as [s2 [r|e]]; done.
Qed.

Lemma best_observation_none {B} `{BaseOptimizer B} (w : MlosCoreOptimizer.World B) :
  opt_get_best_observation (MlosCoreOptimizer._opt (MlosCoreOptimizer.optimizer w)) = [] →
  MlosCoreOptimizer.get_best_observation w = (w, Ok None).
Proof.
  destruct w as [st [tn sign it opt] dbg]. simpl. intros Hbest.
  unfold MlosCoreOptimizer.get_best_observation.
  unfold bind at 1. unfold MlosCoreOptimizer.self at 1. simpl. by rewrite Hbest.
Qed.

Lemma best_observation_keeps_optimizer {B} `{BaseOptimizer B}
    (w : MlosCoreOptimizer.World B) :
  MlosCoreOptimizer.optimizer (MlosCoreOptimizer.get_best_observation w).1
  = MlosCoreOptimizer.optimizer w
  ∧ MlosCoreOptimizer.log_debug (MlosCoreOptimizer.get_best_observation w).1
    = MlosCoreOptimizer.log_debug w.
Proof.
  destruct (opt_get_best_observation (MlosCoreOptimizer._opt (MlosCoreOptimizer.optimizer w)))
    as [|[params score] rest] eqn:Hbest.
  - by rewrite (best_observation_none w Hbest).
  - rewrite (best_observation_run w params score rest Hbest).
    destruct (copy _ _) as [s1 [best|e]]; [|done].
    by destruct (assign best params s1) as [s2 [r|e]].
Qed.

Lemma same_observations_trans t s1 s2 s3 :
  same_observations t s1 s2 → same_observations t s2 s3 → same_observations t s1 s3.
Proof.
  intros (H1 & H2 & H3 & H4) (H1' & H2' & H3' & H4').
  split; [|split; [|split]]; [congruence | congruence | congruence |].
  intros x. by rewrite H4', H4.
Qed.

Lemma assign_as_mutation c params (s : Store) :
  (for_ [Assign params] (mutate c) s).1 = (assign c params s).1.
Proof.
  simpl. rewrite !bind_run. destruct (assign c params s) as [s1 [r|e]]; done.
Qed.

Lemma copy_then_assign (s : Store) (t : tgref) (o : TunableGroupsObject)
    (params : dict TunableValue) :
  tunable_groups s !! t = Some o →
  allocated s o →
  ∃ s1, copy t s = (s1, Ok (length (tunable_groups s)))
    ∧ tunable_groups (assign (length (tunable_groups s)) params s1).1 !! t = Some o
    ∧ same_observations t s (assign (length (tunable_groups s)) params s1).1
    ∧ (∀ r, (assign (length (tunable_groups s)) params s1).2 = Ok r →
         r = length (tunable_groups s))
    ∧ (params ≠ [] → NoDup (dict_keys params) →
       ∀ r, (assign (length (tunable_groups s)) params s1).2 = Ok r →
         ∀ x, (__getitem__ (length (tunable_groups s)) x
                 (assign (length (tunable_groups s)) params s1).1).2
              = match dict_get x params with
                | Some v => Ok v
                | None => (__getitem__ t x s).2
                end).
Proof.
  intros Ht Ha.
  destruct (copy_run s t o Ht Ha) as (co & copies & memo & Hrun & [_ Hmemo] & Hidx & Hgrp).
  set (c := length (tunable_groups s)) in *.
  set (s1 := mk_store (groups s ++ copies) (tunable_groups s ++ [co])) in *.
  exists s1. split; [done|].
  assert (tunable_groups s1 !! t = Some o) as Ht1.
  { simpl. rewrite lookup_app_l; [done | by eapply lookup_lt_Some]. }
  assert (tunable_groups s1 !! c = Some co) as Hc1.
  { simpl. by apply list_lookup_middle. }
  assert (∀ l, l ∈ refs o → l < length (groups s)) as Hold.
  { intros l [[k Hin]%dict_values_elem|[k Hin]%dict_values_elem]%elem_of_app.
    - destruct (alloc_index _ _ Ha k l Hin) as (g & Hg & _). by eapply lookup_lt_Some.
    - destruct (alloc_groups _ _ Ha k l Hin) as (g & Hg & _). by eapply lookup_lt_Some. }
  assert (∀ l, l ∈ refs co → l ∉ refs o) as Hdis.
  { intros l Hl Hl'. apply Hold in Hl'.
    assert (length (groups s) ≤ l)%nat; [|lia].
    apply elem_of_app in Hl as [[k Hin]%dict_values_elem|[k Hin]%dict_values_elem].
    - destruct (relocated_elem _ _ _ _ _ Hidx Hin) as (l0 & _ & Hm).
      by destruct (Hmemo _ _ Hm).
    - destruct (relocated_elem _ _ _ _ _ Hgrp Hin) as (l0 & _ & Hm).
      by destruct (Hmemo _ _ Hm). }
  assert (same_observations t s s1) as Hcopy.
  { apply (observations_agree s s1 t o Ht Ht1). intros l Hl. simpl.
    apply lookup_app_l. by apply Hold. }
  pose proof (disjoint_collections_detached s1 c t co o [Assign params] Hc1 Ht1 Hdis)
    as Hassign.
  rewrite assign_as_mutation in Hassign.
  pose proof (assign_touches c co params s1 Hc1) as (Htg & _).
  split; [by rewrite Htg|]. split; [by apply (same_observations_trans t s s1)|].
  assert (∀ s2 r, assign c params s1 = (s2, Ok r) → r = c) as Hself.
  { intros s2 r. unfold assign. destruct params as [|kv pv].
    - unfold TunableGroups.restore_defaults. rewrite !bind_run.
      destruct (get_covariant_group_names c s1) as [sa [names|e]]; [|done].
      rewrite bind_run. destruct (for_ _ _ sa) as [sb [[]|e]]; [|done]. by intros [= _ <-].
    - rewrite bind_run. destruct (for_ _ _ s1) as [sb [[]|e]]; [|done]. by intros [= _ <-]. }
  split.
  { intros r Hr. apply (Hself (assign c params s1).1). rewrite <- Hr.
    by destruct (assign c params s1). }
  intros Hne Hnd r Hr x.
  destruct (assign c params s1) as [s2 r'] eqn:Hrun2. simpl in Hr. subst r'. simpl.
  destruct (assign_loop_values c co params s1 s2 Hc1 Hnd) as [_ Hvalues].
  { destruct params as [|kv pv]; [done|]. unfold assign in Hrun2. rewrite bind_run in Hrun2.
    destruct (for_ (kv :: pv) _ s1) as [sb [[]|e]]; [|done]. by injection Hrun2 as ->. }
  rewrite Hvalues. destruct (dict_get x params); [done|].
  apply (copy_getitem s s1 memo t c o co Ht Hc1); [|done].
  intros old new Hm. by destruct (Hmemo _ _ Hm) as (_ & _ & ?).
Qed.

(** X21. When the backend has no observation, [get_best_observation]
    returns [(None, None)] and changes nothing.  When it has one, the
    method works on a new copy of the tunables: the wrapper's own
    collection, the values and flags read through it, the backend and
    the iteration count stay as they were; the score it returns is the
    backend's score times the direction; and the collection it returns
    is the new one, which reads the observed value for every tunable of
    the observation and the wrapper's current value for any other. *)
Theorem best_observation_is_a_fresh_copy {B} `{BaseOptimizer B}
    (w : MlosCoreOptimizer.World B) (o : TunableGroupsObject) :
  tunable_groups (MlosCoreOptimizer.store w)
    !! MlosCoreOptimizer._tunables (MlosCoreOptimizer.optimizer w) = Some o →
  allocated (MlosCoreOptimizer.store w) o →
  (opt_get_best_observation (MlosCoreOptimizer._opt (MlosCoreOptimizer.optimizer w)) = [] →
   MlosCoreOptimizer.get_best_observation w = (w, Ok None))
  ∧ (∀ params score rest,
       opt_get_best_observation (MlosCoreOptimizer._opt (MlosCoreOptimizer.optimizer w))
       = (params, score) :: rest →
       MlosCoreOptimizer.optimizer (MlosCoreOptimizer.get_best_observation w).1
       = MlosCoreOptimizer.optimizer w
       ∧ tunable_groups (MlosCoreOptimizer.store (MlosCoreOptimizer.get_best_observation w).1)
           !! MlosCoreOptimizer._tunables (MlosCoreOptimizer.optimizer w) = Some o
       ∧ same_observations (MlosCoreOptimizer._tunables (MlosCoreOptimizer.optimizer w))
           (MlosCoreOptimizer.store w)
           (MlosCoreOptimizer.store (MlosCoreOptimizer.get_best_observation w).1)
       ∧ ∀ r, (MlosCoreOptimizer.get_best_observation w).2 = Ok r →
           r = Some (Qmult score
                       (inject_Z (MlosCoreOptimizer._opt_sign (MlosCoreOptimizer.optimizer w))),
                     length (tunable_groups (MlosCoreOptimizer.store w)))
           ∧ (params ≠ [] → NoDup (dict_keys params) →
              ∀ x, (__getitem__ (length (tunable_groups (MlosCoreOptimizer.store w))) x
                      (MlosCoreOptimizer.store (MlosCoreOptimizer.get_best_observation w).1)).2
                   = match dict_get x params with
                     | Some v => Ok v
                     | None =>
                         (__getitem__
                            (MlosCoreOptimizer._tunables (MlosCoreOptimizer.optimizer w)) x
                            (MlosCoreOptimizer.store w)).2
                     end)).
Proof.
  intros Ho Ha. split; [apply best_observation_none|].
  intros params score rest Hbest.
  destruct (copy_then_assign _ _ o params Ho Ha) as (s1 & Hcopy & Hkept & Hsame & Hself & Hvalues).
  rewrite (best_observation_run w params score rest Hbest), Hcopy.
  destruct (assign _ params s1) as [s2 [r0|e]] eqn:Hassign; cbn [fst snd] in *.
  - split; [done|]. split; [done|]. split; [done|]. intros r [= <-].
    split; [done|]. intros Hne Hnd. by apply (Hvalues Hne Hnd r0).
  - done.
Qed.

Lemma best_observation_is_a_fresh_copy_witness :
  same_observations 0 fixture_store
    (MlosCoreOptimizer.store
       (@MlosCoreOptimizer.get_best_observation _
          (FlamlOptimizer.Flaml_BaseOptimizer length_hash
             (fun _ => [([("rootfs", Tunable.VStr "ext4")], (3 # 1)%Q)]))
          warm_world).1).
Proof.
  refine (proj1 (proj2 (proj2
            (proj2 (@best_observation_is_a_fresh_copy _
                      (FlamlOptimizer.Flaml_BaseOptimizer length_hash
                         (fun _ => [([("rootfs", Tunable.VStr "ext4")], (3 # 1)%Q)]))
                      warm_world fixture_object _ _)
               [("rootfs", Tunable.VStr "ext4")] (3 # 1)%Q [] _)))).
  - reflexivity.
  - apply allocatedb_sound. vm_compute. reflexivity.
  - reflexivity.
Defined.

Section SuggestFacts.
Context {B : Type} `{BaseOptimizer B}.
Context (opt_suggest : bool → St B DataFrame) (use_defaults : bool).

Lemma suggest_run (w : MlosCoreOptimizer.World B) :
  MlosCoreOptimizer.suggest opt_suggest use_defaults w
  = (let o := MlosCoreOptimizer.optimizer w in
     let asked := opt_suggest (use_defaults && Z.eqb (MlosCoreOptimizer._iter o) 1)
                    (MlosCoreOptimizer._opt o) in
     let o' := MlosCoreOptimizer.mk (MlosCoreOptimizer._tunables o)
                 (MlosCoreOptimizer._opt_sign o) (MlosCoreOptimizer._iter o) asked.1 in
     match asked.2 with
     | Raise e => (MlosCoreOptimizer.mk_world (MlosCoreOptimizer.store w) o'
                     (MlosCoreOptimizer.log_debug w), Raise e)
     | Ok df_config =>
         match copy (MlosCoreOptimizer._tunables o) (MlosCoreOptimizer.store w) with
         | (s1, Raise e) => (MlosCoreOptimizer.mk_world s1 o' (MlosCoreOptimizer.log_debug w),
                             Raise e)
         | (s1, Ok fresh) =>
             match df_config with
             | [] => (MlosCoreOptimizer.mk_world s1 o' (MlosCoreOptimizer.log_debug w),
                      Raise (KeyError "0"))
             | row :: _ =>
                 (MlosCoreOptimizer.mk_world (assign fresh row s1).1 o'
                    (MlosCoreOptimizer.log_debug w),
                  (assign fresh row s1).2)
             end
         end
     end).
Proof.
  destruct w as [st [tn sign it opt] dbg].
  unfold MlosCoreOptimizer.suggest.
  unfold bind, MlosCoreOptimizer.self, MlosCoreOptimizer.in_backend,
    MlosCoreOptimizer.in_store, raise. simpl.
  destruct (opt_suggest _ opt) as [b [df|e]]; simpl; [|done].
  destruct (copy tn st) as [s1 [fresh|e]]; simpl; [|done].
  destruct df as [|row df]; [done|]. simpl. by destruct (assign fresh row s1).
Qed.

(** X22. [suggest] asks the backend for the default configuration only
    when defaults are in use and the iteration count is 1, and never
    changes the count.  The first row that the backend suggests is
    assigned to a new copy of the tunables, which is what is returned:
    the wrapper's own collection, and every value and flag read through
    it, stay as they were, and the new collection reads the suggested
    value for every tunable of the row and the wrapper's current value
    for any other.  A suggestion without rows is a [KeyError], raised
    after the copy was made. *)
Theorem suggest_returns_a_fresh_copy (w : MlosCoreOptimizer.World B)
    (o : TunableGroupsObject) :
  tunable_groups (MlosCoreOptimizer.store w)
    !! MlosCoreOptimizer._tunables (MlosCoreOptimizer.optimizer w) = Some o →
  allocated (MlosCoreOptimizer.store w) o →
  same_wrapper w (MlosCoreOptimizer.suggest opt_suggest use_defaults w).1
  ∧ MlosCoreOptimizer._opt
      (MlosCoreOptimizer.optimizer (MlosCoreOptimizer.suggest opt_suggest use_defaults w).1)
    = (opt_suggest
         (use_defaults && Z.eqb (MlosCoreOptimizer._iter (MlosCoreOptimizer.optimizer w)) 1)
         (MlosCoreOptimizer._opt (MlosCoreOptimizer.optimizer w))).1
  ∧ same_observations (MlosCoreOptimizer._tunables (MlosCoreOptimizer.optimizer w))
      (MlosCoreOptimizer.store w)
      (MlosCoreOptimizer.store (MlosCoreOptimizer.suggest opt_suggest use_defaults w).1)
  ∧ (∀ row rest,
       (opt_suggest
          (use_defaults && Z.eqb (MlosCoreOptimizer._iter (MlosCoreOptimizer.optimizer w)) 1)
          (MlosCoreOptimizer._opt (MlosCoreOptimizer.optimizer w))).2 = Ok (row :: rest) →
       ∀ r, (MlosCoreOptimizer.suggest opt_suggest use_defaults w).2 = Ok r →
         r = length (tunable_groups (MlosCoreOptimizer.store w))
         ∧ (row ≠ [] → NoDup (dict_keys row) →
            ∀ x, (__getitem__ r x
                    (MlosCoreOptimizer.store
                       (MlosCoreOptimizer.suggest opt_suggest use_defaults w).1)).2
                 = match dict_get x row with
                   | Some v => Ok v
                   | None =>
                       (__getitem__
                          (MlosCoreOptimizer._tunables (MlosCoreOptimizer.optimizer w)) x
                          (MlosCoreOptimizer.store w)).2
                   end))
  ∧ ((opt_suggest
        (use_defaults && Z.eqb (MlosCoreOptimizer._iter (MlosCoreOptimizer.optimizer w)) 1)
        (MlosCoreOptimizer._opt (MlosCoreOptimizer.optimizer w))).2 = Ok [] →
     (MlosCoreOptimizer.suggest opt_suggest use_defaults w).2 = Raise (KeyError "0")
     ∧ length (tunable_groups
                 (MlosCoreOptimizer.store
                    (MlosCoreOptimizer.suggest opt_suggest use_defaults w).1))
       = S (length (tunable_groups (MlosCoreOptimizer.store w)))).
Proof.
  intros Ho Ha. rewrite suggest_run. cbn zeta.
  destruct (opt_suggest _ _) as [b [df|e]] eqn:Hasked; cbn [fst snd].
  - destruct df as [|row df].
    + destruct (copy_then_assign _ _ o [] Ho Ha) as (s1 & Hcopy & _).
      destruct (copy_run _ _ o Ho Ha) as (co & copies & memo & Hrun & _).
      rewrite Hrun. cbn [fst snd MlosCoreOptimizer.store MlosCoreOptimizer.optimizer].
      split; [done|]. split; [done|]. split.
      { apply (observations_agree _ _ _ o Ho).
        - simpl. rewrite lookup_app_l; [done | by eapply lookup_lt_Some].
        - intros l Hl. simpl. apply lookup_app_l.
          apply elem_of_app in Hl as [[k Hin]%dict_values_elem|[k Hin]%dict_values_elem].
          + destruct (alloc_index _ _ Ha k l Hin) as (g & Hg & _). by eapply lookup_lt_Some.
          + destruct (alloc_groups _ _ Ha k l Hin) as (g & Hg & _). by eapply lookup_lt_Some. }
      split; [done|]. intros _. split; [done|]. simpl. rewrite length_app. simpl. lia.
    + destruct (copy_then_assign _ _ o row Ho Ha)
        as (s1 & Hcopy & Hkept & Hsame & Hself & Hvalues).
      rewrite Hcopy. cbn [fst snd MlosCoreOptimizer.store MlosCoreOptimizer.optimizer].
      split; [done|]. split; [done|]. split; [done|]. split; [|done].
      intros row' rest [= <- <-] r Hr. rewrite (Hself r Hr). split; [done|].
      intros Hne Hnd. by apply (Hvalues Hne Hnd r).
  - cbn [MlosCoreOptimizer.store MlosCoreOptimizer.optimizer].
    split; [done|]. split; [done|]. split; [|done].
    by apply (observations_agree _ _ _ o Ho).
Qed.

End SuggestFacts.

Lemma suggest_returns_a_fresh_copy_witness :
  same_wrapper
    (MlosCoreOptimizer.mk_world fixture_store (MlosCoreOptimizer.mk 0 1%Z 1%Z []) false)
    (MlosCoreOptimizer.suggest
       (fun (defaults : bool) (calls : list (DataFrame * Series)) =>
          (calls, Ok [if defaults then [("rootfs", Tunable.VStr "xfs")]
                      else [("rootfs", Tunable.VStr "ext4")]]))
       true
       (MlosCoreOptimizer.mk_world fixture_store (MlosCoreOptimizer.mk 0 1%Z 1%Z []) false)).1
  ∧ (MlosCoreOptimizer.suggest
       (fun (defaults : bool) (calls : list (DataFrame * Series)) =>
          (calls, Ok [if defaults then [("rootfs", Tunable.VStr "xfs")]
                      else [("rootfs", Tunable.VStr "ext4")]]))
       true
       (MlosCoreOptimizer.mk_world fixture_store (MlosCoreOptimizer.mk 0 1%Z 1%Z []) false)).2
    = Ok 1.
Proof.
  split.
  - refine (proj1 (suggest_returns_a_fresh_copy
                     (fun (defaults : bool) (calls : list (DataFrame * Series)) =>
                        (calls, Ok [if defaults then [("rootfs", Tunable.VStr "xfs")]
                                    else [("rootfs", Tunable.VStr "ext4")]]))
                     true
                     (MlosCoreOptimizer.mk_world fixture_store
                        (MlosCoreOptimizer.mk 0 1%Z 1%Z []) false)
                     fixture_object _ _)).
    + reflexivity.
    + apply allocatedb_sound. vm_compute. reflexivity.
  - vm_compute. reflexivity.
Defined.

(** ** [MlosCoreOptimizer.bulk_register] *)

Section BulkRegisterFacts.
Context {B : Type} `{BaseOptimizer B}.
Context (base : list Row → list (option Q) → option (list Status.t) → bool).
Context (astype : Tunable.t → TunableValue → result TunableValue).

(** X23. Whatever it is given and however it ends, [bulk_register]
    leaves the tunables, the direction, the iteration count and the
    logger of the wrapper as they were, and, unless the logger is at
    DEBUG level, the whole store too; only the backend can change.  When
    the base class reports that there is nothing to register, the
    answer is [False] and nothing at all has changed. *)
Theorem bulk_register_keeps_the_wrapper (w : MlosCoreOptimizer.World B)
    (configs : list Row) (scores : list (option Q)) (status : option (list Status.t)) :
  same_wrapper_and_store w
    (MlosCoreOptimizer.bulk_register base astype configs scores status w).1
  ∧ (base configs scores status = false →
     MlosCoreOptimizer.bulk_register base astype configs scores status w = (w, Ok false)).
Proof.
  split.
  - assert (∀ w' r,
              MlosCoreOptimizer.bulk_register base astype configs scores status w = (w', r) →
              same_wrapper_and_store w w') as Hgen;
      [|by apply (Hgen _ (MlosCoreOptimizer.bulk_register base astype configs scores status w).2),
               surjective_pairing].
    destruct w as [st [tn sign it opt] dbg]. intros w' r.
    unfold MlosCoreOptimizer.bulk_register, same_wrapper_and_store, same_wrapper.
    destruct (base configs scores status); cbn [negb]; [|by intros [= <- _]].
    unfold bind at 1. unfold MlosCoreOptimizer.self at 1. cbn [MlosCoreOptimizer.optimizer].
    unfold bind at 1. unfold MlosCoreOptimizer.self at 1. cbn [MlosCoreOptimizer.optimizer].
    unfold bind at 1. unfold MlosCoreOptimizer.in_store at 1. cbn [MlosCoreOptimizer.store].
    rewrite get_param_values_reads.
    destruct (get_param_values _ None None st).2 as [params|e]; [|by intros [= <- _]].
    unfold bind at 1. unfold lift_result at 1.
    destruct (select_columns _ configs) as [df|e]; [|by intros [= <- _]].
    unfold bind at 1. unfold MlosCoreOptimizer.in_store at 1. cbn [MlosCoreOptimizer.store].
    rewrite iter_reads. destruct (TunableGroups.__iter__ _ st).2 as [pairs|e];
      [|by intros [= <- _]].
    unfold bind at 1. unfold lift_result at 1.
    destruct (MlosCoreOptimizer.cast_columns astype pairs _) as [batch|e];
      [|by intros [= <- _]].
    unfold bind at 1. unfold MlosCoreOptimizer.in_backend at 1.
    cbn [MlosCoreOptimizer.optimizer MlosCoreOptimizer._opt MlosCoreOptimizer._tunables
         MlosCoreOptimizer._opt_sign MlosCoreOptimizer._iter MlosCoreOptimizer.store
         MlosCoreOptimizer.log_debug].
    destruct (opt_register batch _ opt) as [b [[]|e]]; [|by intros [= <- _]].
    unfold bind at 1. cbn [MlosCoreOptimizer.log_debug].
    destruct dbg; [|by intros [= <- _]].
    unfold bind at 1. unfold bind at 1.
    pose proof (best_observation_keeps_optimizer
                  (MlosCoreOptimizer.mk_world st (MlosCoreOptimizer.mk tn sign it b) true))
      as [Hopt Hdbg].
    destruct (MlosCoreOptimizer.get_best_observation _) as [w1 [r1|e]];
      cbn [fst snd ret] in *; intros [= <- _]; rewrite Hopt, Hdbg; done.
  - intros Hbase. unfold MlosCoreOptimizer.bulk_register. by rewrite Hbase.
Qed.





End BulkRegisterFacts.

Lemma bulk_register_keeps_the_wrapper_witness :
  @MlosCoreOptimizer.bulk_register _
    (FlamlOptimizer.Flaml_BaseOptimizer length_hash (fun _ => []))
    has_data (fun _ v => Ok v) [] [] None warm_world = (warm_world, Ok false).
Proof.
  refine (proj2 (@bulk_register_keeps_the_wrapper _
                   (FlamlOptimizer.Flaml_BaseOptimizer length_hash (fun _ => []))
                   has_data (fun _ v => Ok v) warm_world [] [] None) _).
  reflexivity.
Defined.


(** ** The direction of the optimization *)




(** ** [merge], again *)

Lemma merge_loop_compatible (r : tgref) :
  ∀ (d : dict gref) (s s' : Store) cur,
    tunable_groups s !! r = Some cur →
    (∀ k l, (k, l) ∈ d → ∃ g, groups s !! l = Some g ∧ name g = k) →
    for_ (dict_values d) (fun group =>
        let* g := group_at group in
        let* o := this r in
        match dict_get (name g) (_tunable_groups o) with
        | None => _add_group r group
        | Some mine =>
            let* m := group_at mine in
            if equals_defaults m g then ret tt
            else raise (ValueError (OverlappingGroup (name g)))
        end) s = (s', Ok tt) →
    ∀ k l mine, (k, l) ∈ d → dict_get k (_tunable_groups cur) = Some mine →
      ∃ m g, groups s !! mine = Some m ∧ groups s !! l = Some g
             ∧ equals_defaults m g = true.
Proof.
  induction d as [|[k l] d IH]; intros s s' cur Hcur Hd Hrun k0 l0 mine Hin Hmine.
  - by apply elem_of_nil in Hin.
  - destruct (Hd k l) as (g & Hg & Hname); [left|].
    change (dict_values ((k, l) :: d)) with (l :: dict_values d) in Hrun.
    rewrite for_cons_run, bind_run, (group_at_ok _ _ _ Hg), bind_run, (this_ok _ _ _ Hcur)
      in Hrun.
    rewrite Hname in Hrun.
    destruct (dict_get k (_tunable_groups cur)) as [mine'|] eqn:Hmine'.
    + rewrite bind_run, group_at_run in Hrun.
      destruct (groups s !! mine') as [m|] eqn:Hm; [|done].
      destruct (equals_defaults m g) eqn:Heq; [|done]. cbn [ret] in Hrun.
      apply elem_of_cons in Hin as [[= -> ->]|Hin].
      * rewrite Hmine' in Hmine. injection Hmine as <-. by exists m, g.
      * apply (IH s s' cur Hcur (fun k' l' H' => Hd k' l' (list_elem_of_further _ _ _ H'))
                 Hrun k0 l0 mine Hin Hmine).
    + destruct (_add_group r l s) as [s1 [[]|e]] eqn:Hadd; [|done].
      destruct (add_group_ok_run s s1 r l g cur Hg Hcur Hadd) as (_ & _ & _ & ->).
      apply elem_of_cons in Hin as [[= -> ->]|Hin]; [congruence|].
      set (cur1 := mk_tunable_groups
                     (_index cur ++ map (fun x => (Tunable.name x, l)) (get_tunables g))
                     (_tunable_groups cur ++ [(name g, l)])) in *.
      apply (IH (mk_store (groups s) (<[r := cur1]> (tunable_groups s))) s' cur1
               (list_lookup_insert_eq _ _ _ (lookup_lt_Some _ _ _ Hcur))
               (fun k' l' H' => Hd k' l' (list_elem_of_further _ _ _ H'))
               Hrun k0 l0 mine Hin).
      unfold cur1. cbn [_tunable_groups]. by rewrite dict_get_app, Hmine.
Qed.

Lemma merge_loop_settled (r : tgref) (s : Store) cur :
  tunable_groups s !! r = Some cur →
  ∀ (d : dict gref),
    (∀ k l, (k, l) ∈ d →
       ∃ g mine m, groups s !! l = Some g ∧ name g = k
                   ∧ dict_get k (_tunable_groups cur) = Some mine
                   ∧ groups s !! mine = Some m ∧ equals_defaults m g = true) →
    for_ (dict_values d) (fun group =>
        let* g := group_at group in
        let* o := this r in
        match dict_get (name g) (_tunable_groups o) with
        | None => _add_group r group
        | Some mine =>
            let* m := group_at mine in
            if equals_defaults m g then ret tt
            else raise (ValueError (OverlappingGroup (name g)))
        end) s = (s, Ok tt).
Proof.
  intros Hcur. induction d as [|[k l] d IH]; intros Hd; [done|].
  destruct (Hd k l) as (g & mine & m & Hg & Hname & Hmine & Hm & Heq); [left|].
  change (dict_values ((k, l) :: d)) with (l :: dict_values d).
  rewrite for_cons_run, bind_run, (group_at_ok _ _ _ Hg), bind_run, (this_ok _ _ _ Hcur).
  rewrite Hname, Hmine, bind_run, (group_at_ok _ _ _ Hm), Heq. cbn [ret].
  apply IH. intros k' l' H'. apply Hd. by right.
Qed.

Lemma filter_none {A} (f : A → bool) (l : list A) :
  (∀ x, x ∈ l → f x = false) → List.filter f l = [].
Proof.
  induction l as [|x l IH]; intros Hall; [done|]. simpl. rewrite Hall by left.
  apply IH. intros y Hy. apply Hall. by right.
Qed.

Lemma filter_keys_nodup {V} (f : string * V → bool) (d : dict V) :
  NoDup (dict_keys d) → NoDup (dict_keys (List.filter f d)).
Proof.
  induction d as [|[k v] d IH]; intros Hnd; [done|].
  assert ((k ∉ dict_keys d) ∧ NoDup (dict_keys d)) as [Hk Hnd'].
  { by apply NoDup_cons in Hnd. }
  simpl. destruct (f (k, v)); [|by apply IH].
  change (NoDup (k :: dict_keys (List.filter f d))). apply NoDup_cons. split; [|by apply IH].
  intros Hin. apply Hk. unfold dict_keys in Hin |- *. rewrite map_fmap in Hin |- *.
  apply list_elem_of_fmap in Hin as ([k' v'] & -> & Hin).
  apply list_elem_of_In, filter_In in Hin as [Hin _]. apply list_elem_of_In in Hin.
  by apply (list_elem_of_fmap_2 fst _ (k', v')).
Qed.

Lemma equals_defaults_refl g :
  NoDup (dict_keys (_tunables g)) → equals_defaults g g = true.
Proof.
  intros Hnd. unfold equals_defaults. apply dict_eqb_refl; [|done].
  intros x. unfold Tunable.eqb_defaults.
  by rewrite String.eqb_refl, domain_eqb_refl, value_eqb_refl.
Qed.

(** X26. Merging the same collection a second time changes nothing: when
    [merge] has returned, the same call made again returns the receiver
    and leaves the store exactly as the first call left it. *)
Theorem merge_twice_changes_nothing (s s' : Store) (r o a : tgref)
    (ro oo : TunableGroupsObject) :
  tunable_groups s !! r = Some ro →
  tunable_groups s !! o = Some oo →
  consistent s oo →
  allocated s oo →
  merge r o s = (s', Ok a) →
  merge r o s' = (s', Ok r).
Proof.
  intros Hr Ho Hc Ha Hrun.
  assert (∀ k l, (k, l) ∈ _tunable_groups oo → ∃ g, groups s !! l = Some g ∧ name g = k)
    as Hnamed.
  { intros k l Hin. destruct (groups_named _ _ Hc k l Hin) as (g & Hg & Hname & _). eauto. }
  pose proof Hrun as Hrun'. unfold merge in Hrun'.
  rewrite bind_run, (this_ok _ _ _ Ho), bind_run in Hrun'.
  destruct (for_ (dict_values (_tunable_groups oo)) _ s) as [s1 [[]|e]] eqn:Hloop; [|done].
  injection Hrun' as -> <-.
  pose proof (merge_loop_compatible r _ s s' ro Hr Hnamed Hloop) as Hcompat.
  pose proof (merge_loop_run r ro (_tunable_groups oo) s s' ro Hr Hnamed
                (groups_nodup _ _ Hc) (fun k _ => eq_refl) Hloop) as Hs'.
  destruct (decide (new_to ro (_tunable_groups oo) = [])) as [Hnone|Hsome].
  { rewrite Hnone in Hs'. cbn [map concat] in Hs'.
    rewrite !app_nil_r in Hs'. destruct ro as [idx G]. cbn [_index _tunable_groups] in Hs'.
    rewrite list_insert_id, store_eta in Hs' by done. subst s'.
    unfold merge. by rewrite bind_run, (this_ok _ _ _ Ho), bind_run, Hloop. }
  assert (o ≠ r) as Hne.
  { intros ->. rewrite Hr in Ho. injection Ho as ->. apply Hsome. unfold new_to.
    apply filter_none. intros [k l] Hin. cbn [fst].
    assert (dict_contains k (_tunable_groups oo) = true) as ->; [|done].
    apply dict_contains_true. by apply (dict_keys_elem k l). }
  set (ro' := mk_tunable_groups
                (_index ro ++ concat (map (fun kl => group_entries s kl.2)
                                          (new_to ro (_tunable_groups oo))))
                (_tunable_groups ro ++ new_to ro (_tunable_groups oo))) in *.
  assert (tunable_groups s' !! r = Some ro') as Hr'.
  { rewrite Hs'. apply list_lookup_insert_eq. by eapply lookup_lt_Some. }
  assert (tunable_groups s' !! o = Some oo) as Ho'.
  { rewrite Hs'. cbn [tunable_groups]. by rewrite list_lookup_insert_ne. }
  assert (groups s' = groups s) as Hgroups by (by rewrite Hs').
  unfold merge. rewrite bind_run, (this_ok _ _ _ Ho'), bind_run.
  rewrite (merge_loop_settled r s' ro' Hr'); [done|].
  intros k l Hin. destruct (Hnamed k l Hin) as (g & Hg & Hname).
  rewrite Hgroups. unfold ro'. cbn [_tunable_groups]. rewrite dict_get_app.
  destruct (dict_get k (_tunable_groups ro)) as [mine|] eqn:Hmine.
  - destruct (Hcompat k l mine Hin Hmine) as (m & g' & Hm & Hg' & Heq).
    rewrite Hg in Hg'. injection Hg' as <-. by exists g, mine, m.
  - exists g, l, g. split; [done|]. split; [done|]. split; [|split; [done|]].
    + assert (NoDup (dict_keys (new_to ro (_tunable_groups oo)))) as Hnd.
      { apply filter_keys_nodup, Hc. }
      apply dict_get_nodup; [done|]. unfold new_to.
      apply list_elem_of_In, filter_In. split; [by apply list_elem_of_In|].
      cbn [fst]. unfold dict_contains. by rewrite Hmine.
    + apply equals_defaults_refl.
      destruct (alloc_groups _ _ Ha k l Hin) as (g' & Hg' & Hnd).
      rewrite Hg in Hg'. by injection Hg' as <-.
Qed.

Lemma merge_twice_changes_nothing_witness :
  merge 0 1 (merge 0 1 two_collections).1 = ((merge 0 1 two_collections).1, Ok 0).
Proof.
  refine (merge_twice_changes_nothing two_collections (merge 0 1 two_collections).1 0 1 0
            fixture_object
            (mk_tunable_groups [("rootfs", 3); ("tcp_window", 4)] [("boot", 3); ("net", 4)])
            _ _ _ _ _).
  - reflexivity.
  - reflexivity.
  - apply consistentb_sound. vm_compute. reflexivity.
  - apply allocatedb_sound. vm_compute. reflexivity.
  - vm_compute. reflexivity.
Defined.

(** ** What the constructors leave alone *)

#[local] Instance allocates_preorder self : PreOrder (allocates self).
Proof.
  split.
  - intros s. by split.
  - intros s1 s2 s3 [Hg Ht] [Hg' Ht']. split.
    + intros l g Hl. by apply Hg', Hg.
    + intros r o Hr Ho. by apply Ht', Ht.
Qed.

Lemma new_group_allocates self g : preserves (allocates self) (new_group g).
Proof.
  intros s. split; simpl; [|done].
  intros l g0 Hl. rewrite lookup_app_l; [done | by eapply lookup_lt_Some].
Qed.

Lemma put_this_allocates self o : preserves (allocates self) (put_this self o).
Proof.
  intros s. split; simpl; [done|]. intros r o0 Hr Ho. by rewrite list_lookup_insert_ne.
Qed.

Lemma new_tunable_groups_allocates self o : preserves (allocates self) (new_tunable_groups o).
Proof.
  intros s. split; simpl; [done|].
  intros r o0 _ Ho. rewrite lookup_app_l; [done | by eapply lookup_lt_Some].
Qed.

Lemma add_group_allocates self group : preserves (allocates self) (_add_group self group).
Proof.
  apply preserves_bind; [apply _ | apply preserves_group_at; apply _ |]. intros g.
  apply preserves_bind; [apply _ | apply preserves_this; apply _ |]. intros o.
  destruct (dict_contains _ _); [apply preserves_raise; apply _|].
  apply preserves_bind; [apply _ | apply put_this_allocates |]. intros _.
  apply preserves_for; [apply _|]. intros x _.
  apply preserves_bind; [apply _ | apply preserves_this; apply _ |]. intros o'.
  destruct (dict_contains _ _); [apply preserves_raise; apply _ | apply put_this_allocates].
Qed.

Lemma deepcopy_dict_allocates self : ∀ d memo,
  preserves (allocates self) (deepcopy_dict d memo).
Proof.
  induction d as [|[k l] d IH]; intros memo; simpl.
  - apply preserves_ret. apply _.
  - apply preserves_bind; [apply _ | |].
    + unfold deepcopy_group. destruct (memo_get l memo); [apply preserves_ret; apply _|].
      apply preserves_bind; [apply _ | apply preserves_group_at; apply _ |]. intros g.
      apply preserves_bind; [apply _ | apply new_group_allocates |]. intros new.
      apply preserves_ret. apply _.
    + intros head. apply preserves_bind; [apply _ | apply IH |]. intros tail.
      apply preserves_ret. apply _.
Qed.

Lemma allocates_old self (s s' s'' : Store) :
  self = length (tunable_groups s) →
  allocates self s s' → allocates self s' s'' →
  (∀ l g, groups s !! l = Some g → groups s'' !! l = Some g)
  ∧ (∀ r o, tunable_groups s !! r = Some o → tunable_groups s'' !! r = Some o).
Proof.
  intros -> [Hg Ht] [Hg' Ht']. split.
  - intros l g Hl. by apply Hg', Hg.
  - intros r o Ho.
    assert (r ≠ length (tunable_groups s)) as Hne.
    { apply lookup_lt_Some in Ho. lia. }
    by apply Ht', Ht.
Qed.

(** X27. Building a collection, taking a subgroup and copying only
    create objects: whether they return or raise, every group object and
    every collection that existed before is afterwards exactly what it
    was.  A subgroup that fails on an unknown name, or a construction
    that fails on a duplicate, leaves nothing changed behind. *)
Theorem constructors_only_create_objects (s : Store) (t : tgref) (config : Config)
    (names : list string) :
  ((∀ l g, groups s !! l = Some g → groups (__init__ config s).1 !! l = Some g)
   ∧ (∀ r o, tunable_groups s !! r = Some o →
        tunable_groups (__init__ config s).1 !! r = Some o))
  ∧ ((∀ l g, groups s !! l = Some g → groups (subgroup t names s).1 !! l = Some g)
     ∧ (∀ r o, tunable_groups s !! r = Some o →
          tunable_groups (subgroup t names s).1 !! r = Some o))
  ∧ ((∀ l g, groups s !! l = Some g → groups (copy t s).1 !! l = Some g)
     ∧ (∀ r o, tunable_groups s !! r = Some o →
          tunable_groups (copy t s).1 !! r = Some o)).
Proof.
  set (c := length (tunable_groups s)).
  assert (∀ cfg, preserves (allocates c)
            (for_ cfg (fun item =>
               let* group := new_group (CovariantTunableGroup.__init__ item.1 item.2) in
               _add_group c group))) as Hloop.
  { intros cfg. apply preserves_for; [apply _|]. intros item _.
    apply preserves_bind; [apply _ | apply new_group_allocates |]. intros group.
    apply add_group_allocates. }
  assert (∀ cfg, (∀ l g, groups s !! l = Some g → groups (__init__ cfg s).1 !! l = Some g)
                 ∧ (∀ r o, tunable_groups s !! r = Some o →
                      tunable_groups (__init__ cfg s).1 !! r = Some o)) as Hinit.
  { intros cfg. apply (allocates_old c s (new_tunable_groups (mk_tunable_groups [] []) s).1);
      [done | apply new_tunable_groups_allocates |].
    unfold __init__. rewrite bind_run. unfold new_tunable_groups at 2. fold c.
    unfold new_tunable_groups. cbn [fst]. rewrite bind_run.
    specialize (Hloop cfg (mk_store (groups s) (tunable_groups s ++ [mk_tunable_groups [] []]))).
    by destruct (for_ cfg _ _) as [s1 [[]|e]]. }
  split; [apply Hinit|]. split.
  - apply (allocates_old c s (__init__ [] s).1); [done | |].
    + destruct (Hinit []) as [Hg Ht]. split; [done|]. intros r o _. apply Ht.
    + unfold subgroup. rewrite bind_run.
      assert ((__init__ [] s) = (mk_store (groups s)
                                   (tunable_groups s ++ [mk_tunable_groups [] []]), Ok c))
        as -> by done.
      cbn [fst]. rewrite bind_run.
      assert (preserves (allocates c)
                (for_ names (fun name =>
                   let* o := this t in
                   match dict_get name (_tunable_groups o) with
                   | None => raise (KeyError name)
                   | Some group => _add_group c group
                   end))) as Hsub.
      { apply preserves_for; [apply _|]. intros name _.
        apply preserves_bind; [apply _ | apply preserves_this; apply _ |]. intros o.
        destruct (dict_get name (_tunable_groups o));
          [apply add_group_allocates | apply preserves_raise; apply _]. }
      specialize (Hsub (mk_store (groups s) (tunable_groups s ++ [mk_tunable_groups [] []]))).
      by destruct (for_ names _ _) as [s1 [[]|e]].
  - apply (allocates_old c s s); [done | done |].
    assert (preserves (allocates c) (copy t)) as Hcopy; [|apply Hcopy].
    apply preserves_bind; [apply _ | apply preserves_this; apply _ |]. intros o.
    apply preserves_bind; [apply _ | apply deepcopy_dict_allocates |]. intros index.
    apply preserves_bind; [apply _ | apply deepcopy_dict_allocates |]. intros named.
    apply new_tunable_groups_allocates.
Qed.
